(** * SQL data-lineage visualizer: the layout engine of [LineageGraph]

    A shallow embedding of the layout and geometry code of the
    [LineageGraph] React component (depth assignment, coordinate
    assignment, drag handling, edge geometry and edge styling), and the
    properties of the specification proved against it.

    Conventions of the embedding.
    - JavaScript numbers that only ever hold integers (indices, in-degrees,
      depths) are [Z]; pixel coordinates are exact rationals [Q]: every
      operation of the layout on them is [+], [-], [*] or a division by 2,
      which doubles carry out exactly on the multiples of 1/2 that arise
      from an integer client height. The deltas of a drag are arbitrary
      doubles: the sum of the drag listener is rounded to binary64
      ([round64], [fadd]), an overflow to an infinity being [None].
    - [Map<string, T>] is [gmap string T], [Set<string>] is [gset string].
      [m.get(k)!] and [m.get(k) || 0] and [m.get(k) ?? 0] on numbers are
      [get0 m k] (0 when the key is absent); the loop invariants below
      ([kahnInv], [relaxInv]) and [setOrder_known] show that the key is
      present wherever the source asserts it with [!].
    - [Array.prototype.sort] with a comparator [(a, b) => key(a) - key(b)]
      is a parameter [sort_by] of the development, specified as a stable
      sort ([StableSort]); [isort_by] is one implementation. [Sorts] asks
      for the order only, as of an engine whose sort is not stable;
      [rsort_by] is such a sort.
    - A [while] loop over a growing queue is a function with fuel that
      returns [None] when the fuel runs out; the totality lemmas show that
      the fuel handed over by the callers is always enough. *)

From Stdlib Require Import ZArith QArith Lia Lqa Permutation Sorted.
From Stdlib Require Import FunctionalExtensionality.
From stdpp Require Import gmap strings list fin_maps.

Local Open Scope Z_scope.

(** ** Graph model ([types.ts]) *)

Record Column := mkColumn { col_name : string; col_type : string }.

Inductive NodeType := Source | Table | Model | View | CTE.

Record Node := mkNode {
  id : string;
  name : string;
  type : NodeType;
  columns : list Column
}.

Record Edge := mkEdge {
  sourceNodeId : string;
  sourceColumn : string;
  targetNodeId : string;
  targetColumn : string
}.

Record LineageData := mkData { nodes : list Node; edges : list Edge }.

(** [D3Node extends Node] with optional position and pin fields. *)
Record D3Node := mkD3 {
  base : Node;
  x : option Q;
  y : option Q;
  fx : option Q;
  fy : option Q
}.

#[global] Instance Column_eq_dec : EqDecision Column.
Proof. solve_decision. Defined.
#[global] Instance NodeType_eq_dec : EqDecision NodeType.
Proof. solve_decision. Defined.
#[global] Instance Node_eq_dec : EqDecision Node.
Proof. solve_decision. Defined.
#[global] Instance Edge_eq_dec : EqDecision Edge.
Proof. solve_decision. Defined.

Definition NODE_WIDTH : Q := 256.
Definition HEADER_HEIGHT : Q := 60.
Definition COLUMN_HEIGHT : Q := 28.

(** [m.get(k) || 0], also for [m.get(k) ?? 0] and [m.get(k)!]. *)
Definition get0 (m : gmap string Z) (k : string) : Z := default 0 (m !! k).

(** ** [Array.prototype.sort] *)

(** What the language guarantees of [l.sort((a, b) => key(a) - key(b))]:
    the result is ordered by [key], and elements of equal key keep their
    relative order. *)
Definition StableSort (sort : forall A : Type, (A -> Z) -> list A -> list A) : Prop :=
  forall (A : Type) (key : A -> Z) (l : list A),
    StronglySorted (fun a b => key a <= key b) (sort A key l) /\
    forall k : Z,
      List.filter (fun a => key a =? k) (sort A key l) =
      List.filter (fun a => key a =? k) l.

(** Insertion sort, inserting in front of the first element that is not
    smaller. *)
Fixpoint insert_by {A : Type} (key : A -> Z) (a : A) (l : list A) : list A :=
  match l with
  | [] => [a]
  | b :: r => if key a <=? key b then a :: b :: r else b :: insert_by key a r
  end.

Fixpoint isort_by (A : Type) (key : A -> Z) (l : list A) : list A :=
  match l with
  | [] => []
  | a :: r => insert_by key a (isort_by A key r)
  end.

(** What every implementation of [sort] gives, also one that does not
    keep the order of elements of equal key (as engines did for long arrays
    before the language asked for stability): the elements of the array, in
    the order of [key]. *)
Definition Sorts (sort : forall A : Type, (A -> Z) -> list A -> list A) : Prop :=
  forall (A : Type) (key : A -> Z) (l : list A),
    Permutation (sort A key l) l /\
    StronglySorted (fun a b => key a <= key b) (sort A key l).

(** Insertion sort, inserting behind the elements that are not greater: a
    sort that reverses the elements of equal key. *)
Fixpoint insert_after {A : Type} (key : A -> Z) (a : A) (l : list A) : list A :=
  match l with
  | [] => [a]
  | b :: r => if key a <? key b then a :: b :: r else b :: insert_after key a r
  end.

Fixpoint rsort_by (A : Type) (key : A -> Z) (l : list A) : list A :=
  match l with
  | [] => []
  | a :: r => insert_after key a (rsort_by A key r)
  end.

(** No two different elements of [l] have the same key. *)
Definition distinctKeys {A : Type} (key : A -> Z) (l : list A) : Prop :=
  forall a b : A, a ∈ l -> b ∈ l -> key a = key b -> a = b.

(** [handleNodeDrag]: the updater given to [setNodes] (the states of the
    component, defined with the layout below, refer to it). *)
Definition handleNodeDrag (nodeId : string) (position : Q * Q)
    (currentNodes : list D3Node) : list D3Node :=
  map (fun n =>
         if decide (id (base n) = nodeId)
         then mkD3 (base n) (Some (fst position)) (Some (snd position))
                (Some (fst position)) (Some (snd position))
         else n)
    currentNodes.

Section Layout.

Variable sort_by : forall A : Type, (A -> Z) -> list A -> list A.

(** ** Depth assignment ([nodeDepths]) *)

(** [data.nodes.forEach((node, index) => nodeOrder.set(node.id, index))] *)
Fixpoint setOrder (ns : list Node) (index : Z) (nodeOrder : gmap string Z)
  : gmap string Z :=
  match ns with
  | [] => nodeOrder
  | node :: r => setOrder r (index + 1) (<[id node := index]> nodeOrder)
  end.

Definition nodeOrderOf (data : LineageData) : gmap string Z :=
  setOrder (nodes data) 0 ∅.

(** [m.get(k)?.push(v)] *)
Definition pushTo (k v : string) (m : gmap string (list string))
  : gmap string (list string) :=
  match m !! k with
  | Some l => <[k := l ++ [v]]> m
  | None => m
  end.

(** The undirected adjacency lists of step 1. *)
Definition buildAdj (data : LineageData) : gmap string (list string) :=
  fold_left
    (fun adj edge =>
       pushTo (targetNodeId edge) (sourceNodeId edge)
         (pushTo (sourceNodeId edge) (targetNodeId edge) adj))
    (edges data)
    (fold_left (fun adj node => <[id node := []]> adj) (nodes data) ∅).

(** [data.nodes.find(n => n.id === vId)] *)
Definition findNode (ns : list Node) (vId : string) : option Node :=
  List.find (fun n => bool_decide (id n = vId)) ns.

(** The body of [for (const vId of adj.get(uNode.id) || [])]. *)
Definition visit (ns : list Node) (st : gset string * list Node) (vId : string)
  : gset string * list Node :=
  let '(visited, queue) := st in
  if decide (vId ∈ visited) then (visited, queue)
  else
    match findNode ns vId with
    | Some vNode => ({[vId]} ∪ visited, queue ++ [vNode])
    | None => ({[vId]} ∪ visited, queue)
    end.

(** [while (head < queue.length)] of the component search: [pending] is
    [queue] from [head] on, [component] the nodes dequeued so far. *)
Fixpoint bfs (fuel : nat) (ns : list Node) (adj : gmap string (list string))
    (visited : gset string) (pending component : list Node)
  : option (gset string * list Node) :=
  match pending with
  | [] => Some (visited, component)
  | uNode :: rest =>
      match fuel with
      | O => None
      | S fuel' =>
          let '(visited', queue') :=
            fold_left (visit ns) (default [] (adj !! id uNode)) (visited, rest) in
          bfs fuel' ns adj visited' queue' (component ++ [uNode])
      end
  end.

(** [for (const startNode of data.nodes)]. The search from one start node
    dequeues every node at most once: one more than the number of nodes is
    fuel enough ([bfs_placed]). *)
Fixpoint findComponents (ns : list Node) (adj : gmap string (list string))
    (starts : list Node) (visited : gset string) (components : list (list Node))
  : option (list (list Node)) :=
  match starts with
  | [] => Some components
  | startNode :: r =>
      if decide (id startNode ∈ visited) then
        findComponents ns adj r visited components
      else
        match bfs (S (length ns)) ns adj ({[id startNode]} ∪ visited)
                [startNode] [] with
        | None => None
        | Some (visited', component) =>
            findComponents ns adj r visited' (components ++ [component])
        end
  end.

(** [Math.min(...comp.map(node => nodeOrder.get(node.id)!))]; components
    are never empty (for an empty list JavaScript answers [Infinity]). *)
Definition minOrder (nodeOrder : gmap string Z) (comp : list Node) : Z :=
  match comp with
  | [] => 0
  | n :: r => fold_left Z.min (map (fun node => get0 nodeOrder (id node)) r)
                (get0 nodeOrder (id n))
  end.

(** The edges with both ends in the component. *)
Definition componentEdgesOf (data : LineageData) (component : list Node)
  : list Edge :=
  let componentNodeIds : gset string := list_to_set (map id component) in
  List.filter
    (fun e => bool_decide (sourceNodeId e ∈ componentNodeIds) &&
              bool_decide (targetNodeId e ∈ componentNodeIds))
    (edges data).

Definition initDegrees (component : list Node)
  : gmap string Z * gmap string (list string) :=
  fold_left
    (fun '(inDegree, compAdj) node =>
       (<[id node := 0]> inDegree, <[id node := []]> compAdj))
    component (∅, ∅).

Definition countEdges (componentEdges : list Edge)
    (st : gmap string Z * gmap string (list string))
  : gmap string Z * gmap string (list string) :=
  fold_left
    (fun '(inDegree, compAdj) edge =>
       (<[targetNodeId edge := get0 inDegree (targetNodeId edge) + 1]> inDegree,
        pushTo (sourceNodeId edge) (targetNodeId edge) compAdj))
    componentEdges st.

(** The seeding of the queue and of [depths] with the nodes of in-degree 0. *)
Definition seedQueue (inDegree : gmap string Z) (component : list Node)
  : list string * gmap string Z :=
  fold_left
    (fun '(queue, depths) node =>
       if get0 inDegree (id node) =? 0
       then (queue ++ [id node], <[id node := 0]> depths)
       else (queue, depths))
    component ([], ∅).

(** The body of [for (const v of neighbors)]. *)
Definition relax (u_depth : Z)
    (st : gmap string Z * gmap string Z * list string) (v : string)
  : gmap string Z * gmap string Z * list string :=
  let '(depths, inDegree, queue) := st in
  let newDegree := get0 inDegree v - 1 in
  (<[v := Z.max (get0 depths v) (u_depth + 1)]> depths,
   <[v := newDegree]> inDegree,
   if newDegree =? 0 then queue ++ [v] else queue).

(** [while (head < queue.length)] of the layering: [pending] is [queue]
    from [head] on, [dequeued] what was taken from it so far. *)
Fixpoint kahn (fuel : nat) (nodeOrder : gmap string Z)
    (compAdj : gmap string (list string))
    (pending : list string) (depths inDegree : gmap string Z)
    (dequeued : list string)
  : option (gmap string Z * list string) :=
  match pending with
  | [] => Some (depths, dequeued)
  | u :: rest =>
      match fuel with
      | O => None
      | S fuel' =>
          let u_depth := get0 depths u in
          let neighbors :=
            sort_by string (get0 nodeOrder) (default [] (compAdj !! u)) in
          let '(depths', inDegree', queue') :=
            fold_left (relax u_depth) neighbors (depths, inDegree, rest) in
          kahn fuel' nodeOrder compAdj queue' depths' inDegree' (dequeued ++ [u])
      end
  end.

(** The last [component.forEach]: the depth-0 fallback, the copy into
    [finalDepths] and the running maximum. *)
Definition finish (depthOffset : Z)
    (st : gmap string Z * gmap string Z * Z) (node : Node)
  : gmap string Z * gmap string Z * Z :=
  let '(depths, finalDepths, maxDepthInComponent) := st in
  let depths' :=
    match depths !! id node with
    | None => <[id node := 0]> depths
    | Some _ => depths
    end in
  let nodeDepth := get0 depths' (id node) in
  (depths',
   <[id node := nodeDepth + depthOffset]> finalDepths,
   if maxDepthInComponent <? nodeDepth then nodeDepth else maxDepthInComponent).

(** What one round of [for (const component of components)] leaves
    behind: [finalDepths] and [depthOffset] are the program's variables, the
    record keeps the round's locals for the statements below
    ([layer_queueDepths] is [depths] when the queue has drained,
    [layer_depths] is [depths] at the end of the round). *)
Record Layer := mkLayer {
  layer_nodes : list Node;
  layer_edges : list Edge;
  layer_dequeued : list string;
  layer_queueDepths : gmap string Z;
  layer_depths : gmap string Z;
  layer_offset : Z;
  layer_maxDepth : Z
}.

(** One round. The layering loop dequeues every node of the component at
    most once: the size of the component is fuel enough ([kahn_spec]). *)
Definition layerComponent (data : LineageData) (nodeOrder : gmap string Z)
    (component : list Node) (finalDepths : gmap string Z) (depthOffset : Z)
  : option (gmap string Z * Z * Layer) :=
  let componentEdges := componentEdgesOf data component in
  let '(inDegree, compAdj) := countEdges componentEdges (initDegrees component) in
  let '(queue, depths) := seedQueue inDegree component in
  let queue := sort_by string (get0 nodeOrder) queue in
  match kahn (length component) nodeOrder compAdj queue depths inDegree [] with
  | None => None
  | Some (depths, dequeued) =>
      let '(depths', finalDepths', maxDepthInComponent) :=
        fold_left (finish depthOffset) component (depths, finalDepths, 0) in
      Some (finalDepths', depthOffset + (maxDepthInComponent + 2),
            mkLayer component componentEdges dequeued depths depths'
              depthOffset maxDepthInComponent)
  end.

Fixpoint layerComponents (data : LineageData) (nodeOrder : gmap string Z)
    (components : list (list Node)) (finalDepths : gmap string Z)
    (depthOffset : Z) (layers : list Layer)
  : option (gmap string Z * list Layer) :=
  match components with
  | [] => Some (finalDepths, layers)
  | component :: r =>
      match layerComponent data nodeOrder component finalDepths depthOffset with
      | None => None
      | Some (finalDepths', depthOffset', layer) =>
          layerComponents data nodeOrder r finalDepths' depthOffset'
            (layers ++ [layer])
      end
  end.

(** The whole [useMemo] body, with the per-component locals kept. *)
Definition depthLayers (data : LineageData)
  : option (gmap string Z * list Layer) :=
  match nodes data with
  | [] => Some (∅, [])
  | _ =>
      let nodeOrder := nodeOrderOf data in
      match findComponents (nodes data) (buildAdj data) (nodes data) ∅ [] with
      | None => None
      | Some components =>
          layerComponents data nodeOrder
            (sort_by (list Node) (minOrder nodeOrder) components) ∅ 0 []
      end
  end.

Definition nodeDepths (data : LineageData) : option (gmap string Z) :=
  fst <$> depthLayers data.

(** ** Coordinate assignment (the layout [useEffect]) *)

Definition nodeHeight (n : Node) : Q :=
  (HEADER_HEIGHT + inject_Z (Z.of_nat (length (columns n))) * COLUMN_HEIGHT)%Q.

(** [a < b] on numbers. *)
Definition Qltb (a b : Q) : bool := negb (Qle_bool b a).

Definition set_x (n : D3Node) (v : Q) : D3Node :=
  mkD3 (base n) (Some v) (y n) (fx n) (fy n).
Definition set_y (n : D3Node) (v : Q) : D3Node :=
  mkD3 (base n) (x n) (Some v) (fx n) (fy n).

(** [JSON.parse(JSON.stringify(data.nodes))]: fresh objects without
    position. *)
Definition copyNodes (ns : list Node) : list D3Node :=
  map (fun n => mkD3 n None None None None) ns.

(** [nodesByDepth[depth].push(node)]. The object's keys are integers, so
    [Object.values] lists the groups by ascending key: the groups are kept
    in that order. A group holds references to the objects of
    [initialNodes]: the index of the object, with its immutable [Node]
    part. *)
Fixpoint pushAt (depth : Z) (ref : nat * Node) (groups : list (Z * list (nat * Node)))
  : list (Z * list (nat * Node)) :=
  match groups with
  | [] => [(depth, [ref])]
  | (d, g) :: r =>
      if depth =? d then (d, g ++ [ref]) :: r
      else if depth <? d then (depth, [ref]) :: (d, g) :: r
      else (d, g) :: pushAt depth ref r
  end.

Fixpoint groupByDepth (nodeDepths : gmap string Z) (ns : list Node) (index : nat)
    (nodesByDepth : list (Z * list (nat * Node)))
  : list (Z * list (nat * Node)) :=
  match ns with
  | [] => nodesByDepth
  | node :: r =>
      groupByDepth nodeDepths r (S index)
        (pushAt (get0 nodeDepths (id node)) (index, node) nodesByDepth)
  end.

Definition verticalMargin : Q := 40.

(** The body of [Object.values(nodesByDepth).forEach]: one depth column is
    stacked, writing [y] into the objects of [initialNodes]. *)
Definition stackColumn (height : Q) (nodeOrder : gmap string Z)
    (initialNodes : list D3Node) (nodesInDepth : list (nat * Node))
  : list D3Node :=
  let nodesInDepth :=
    sort_by (nat * Node)%type (fun a => get0 nodeOrder (id (snd a))) nodesInDepth in
  let totalContentHeight :=
    fold_left (fun acc a => (acc + nodeHeight (snd a))%Q) nodesInDepth 0%Q in
  let totalMargin :=
    ((inject_Z (Z.of_nat (length nodesInDepth)) - 1) * verticalMargin)%Q in
  let totalColumnHeight := (totalContentHeight + totalMargin)%Q in
  let currentY := ((height - totalColumnHeight) / 2)%Q in
  fst (fold_left
         (fun '(store, currentY) a =>
            (alter (fun n => set_y n (currentY + nodeHeight (snd a) / 2)%Q)
               (fst a) store,
             (currentY + (nodeHeight (snd a) + verticalMargin))%Q))
         nodesInDepth (initialNodes, currentY)).

Definition xSpacing : Q := (NODE_WIDTH + 120)%Q.

Definition assignX (nodeDepths : gmap string Z) (node : D3Node) : D3Node :=
  let depth := get0 nodeDepths (id (base node)) in
  set_x node (inject_Z depth * xSpacing + 50 + NODE_WIDTH / 2)%Q.

(** [v ?? 0] on an optional number. *)
Definition orZero (v : option Q) : Q := default 0%Q v.

(** The running minimum of the bounds pass; [None] is [Infinity]. *)
Definition lower (m : option Q) (v : Q) : option Q :=
  match m with
  | None => Some v
  | Some m' => if Qltb v m' then Some v else Some m'
  end.

Definition bounds (initialNodes : list D3Node) : option Q * option Q :=
  fold_left
    (fun '(minX, minY) node =>
       let nodeLeft := (orZero (x node) - NODE_WIDTH / 2)%Q in
       let nodeTop := (orZero (y node) - nodeHeight (base node) / 2)%Q in
       (lower minX nodeLeft, lower minY nodeTop))
    initialNodes (None, None).

Definition padding : Q := 50.

(** [min < padding ? -min + padding : 0] *)
Definition deficit (m : option Q) : Q :=
  match m with
  | Some m' => if Qltb m' padding then (- m' + padding)%Q else 0%Q
  | None => 0%Q
  end.

Definition normalize (initialNodes : list D3Node) : list D3Node :=
  match initialNodes with
  | [] => initialNodes
  | _ =>
      let '(minX, minY) := bounds initialNodes in
      let offsetX := deficit minX in
      let offsetY := deficit minY in
      if Qltb 0 offsetX || Qltb 0 offsetY then
        map (fun node =>
               mkD3 (base node) (Some (orZero (x node) + offsetX)%Q)
                 (Some (orZero (y node) + offsetY)%Q) (fx node) (fy node))
          initialNodes
      else initialNodes
  end.

(** The positions handed to [setNodes] for the depths [nodeDepths]. *)
Definition placeNodes (data : LineageData) (height : Q)
    (nodeDepths : gmap string Z) : list D3Node :=
  let nodeOrder := nodeOrderOf data in
  let initialNodes := copyNodes (nodes data) in
  let nodesByDepth := groupByDepth nodeDepths (nodes data) 0 [] in
  let initialNodes :=
    fold_left (stackColumn height nodeOrder) (map snd nodesByDepth)
      initialNodes in
  let initialNodes := map (assignX nodeDepths) initialNodes in
  normalize initialNodes.

(** The [nodes] state after the layout effect has run for [data] in a
    container of client height [height]; without nodes the effect returns
    early and the state stays the initial [[]]. *)
Definition computeLayout (data : LineageData) (height : Q)
  : option (list D3Node) :=
  match nodes data with
  | [] => Some []
  | _ => placeNodes data height <$> nodeDepths data
  end.

(** The values the [nodes] state takes during the life of one
    [LineageGraph] instance: [useState([])], then what the layout effect
    sets, then the updates of [handleNodeDrag]. *)
Inductive reachable (data : LineageData) (height : Q) : list D3Node -> Prop :=
  | reach_initial : reachable data height []
  | reach_layout ns :
      computeLayout data height = Some ns -> reachable data height ns
  | reach_drag ns nodeId position :
      reachable data height ns ->
      reachable data height (handleNodeDrag nodeId position ns).

End Layout.

(** ** Interaction and geometry *)

(** [v || 0] on an optional number. *)
Definition orElseZero (v : option Q) : Q :=
  match v with
  | Some q => if Qeq_bool q 0 then 0%Q else q
  | None => 0%Q
  end.

(** *** The numbers of a drag

    The positions that the layout computes are sums and halves of small
    integers, which JavaScript's numbers hold exactly. The deltas of a
    drag event are arbitrary numbers: the sum of two numbers is the exact
    sum rounded to the nearest binary64 value. *)

(** [2 ^ e], also for negative [e]. *)
Definition pow2 (e : Z) : Q :=
  if 0 <=? e then inject_Z (2 ^ e) else 1 # Z.to_pos (2 ^ (- e)).

(** The [k] with [2 ^ k <= a / d < 2 ^ (k + 1)], for positive [a], [d]. *)
Definition floorLog2 (a d : Z) : Z :=
  let e := Z.log2 a - Z.log2 d in
  if (if 0 <=? e then d * 2 ^ e <=? a else d <=? a * 2 ^ (- e)) then e
  else e - 1.

(** [n / d] rounded to the nearest integer, a tie to the even one. *)
Definition roundHalfEven (n d : Z) : Z :=
  let fl := n / d in
  let r := n mod d in
  if 2 * r <? d then fl
  else if d <? 2 * r then fl + 1
  else if Z.even fl then fl else fl + 1.

(** Rounding to binary64, to nearest, ties to even: 53 bits of
    significand, steps of [2 ^ -1074] at the least (subnormal numbers).
    [None] stands for an overflow, where JavaScript has [Infinity] or
    [-Infinity]: the numbers of the model are the finite ones. *)
Definition round64 (q : Q) : option Q :=
  let q := Qred q in
  let n := Qnum q in
  let d := Zpos (Qden q) in
  if n =? 0 then Some 0%Q
  else
    let a := Z.abs n in
    let k := floorLog2 a d in
    let u := Z.max (k - 52) (-1074) in
    let m := if 0 <=? u then roundHalfEven a (d * 2 ^ u)
             else roundHalfEven (a * 2 ^ (- u)) d in
    if (971 <? u) || ((u =? 971) && (2 ^ 53 <=? m)) then None
    else Some (Qred (inject_Z (Z.sgn n * m) * pow2 u)).

(** [a + b] on numbers. *)
Definition fadd (a b : Q) : option Q := round64 (a + b).

(** The ['drag'] listener of [NodeComponent], for the event deltas
    [(dx, dy)] on the component whose last render showed [latestNode]
    ([currentNodeRef.current]); the new position goes to the updater of
    [handleNodeDrag], which runs on the state [currentNodes]. *)
Definition onDrag (latestNode : D3Node) (dx dy : Q)
    (currentNodes : list D3Node) : option (list D3Node) :=
  match fadd (orElseZero (x latestNode)) dx,
        fadd (orElseZero (y latestNode)) dy with
  | Some newX, Some newY =>
      Some (handleNodeDrag (id (base latestNode)) (newX, newY) currentNodes)
  | _, _ => None
  end.

(** [new Map(nodes.map(n => [n.id, n]))]: a later entry replaces an
    earlier one of the same key. *)
Definition nodeMapOf (ns : list D3Node) : gmap string D3Node :=
  fold_left (fun m n => <[id (base n) := n]> m) ns ∅.

(** [columns.findIndex(c => c.name === columnName)], [-1] when there is
    none. *)
Fixpoint findIndexFrom (columnName : string) (cs : list Column) (i : Z) : Z :=
  match cs with
  | [] => -1
  | c :: r =>
      if bool_decide (col_name c = columnName) then i
      else findIndexFrom columnName r (i + 1)
  end.

Definition findIndex (columnName : string) (cs : list Column) : Z :=
  findIndexFrom columnName cs 0.

Definition getColumnYOffset (nodeMap : gmap string D3Node)
    (nodeId columnName : string) : Q :=
  match nodeMap !! nodeId with
  | None => 0%Q
  | Some node =>
      let columnIndex := findIndex columnName (columns (base node)) in
      if columnIndex =? -1 then 0%Q
      else (HEADER_HEIGHT + inject_Z columnIndex * COLUMN_HEIGHT
            + COLUMN_HEIGHT / 2)%Q
  end.

Record EdgeGeometry := mkGeometry { x1 : Q; y1 : Q; x2 : Q; y2 : Q }.

Definition markerOffset : Q := 10.

(** The callback of [data.edges.map] up to the two points given to
    [d3.linkHorizontal]; [None] is the [null] of an edge that is not
    drawn. *)
Definition resolveEdgeGeometry (nodeMap : gmap string D3Node) (edge : Edge)
  : option EdgeGeometry :=
  match nodeMap !! sourceNodeId edge, nodeMap !! targetNodeId edge with
  | Some sourceNode, Some targetNode =>
      match x sourceNode, y sourceNode, x targetNode, y targetNode with
      | Some sx, Some sy, Some tx, Some ty =>
          let sourceNodeHeight := nodeHeight (base sourceNode) in
          let targetNodeHeight := nodeHeight (base targetNode) in
          let y1 := ((sy - sourceNodeHeight / 2)
                     + getColumnYOffset nodeMap (sourceNodeId edge)
                         (sourceColumn edge))%Q in
          let y2 := ((ty - targetNodeHeight / 2)
                     + getColumnYOffset nodeMap (targetNodeId edge)
                         (targetColumn edge))%Q in
          if Qltb sx tx then
            Some (mkGeometry (sx + NODE_WIDTH / 2)%Q y1
                    (tx - NODE_WIDTH / 2 - markerOffset)%Q y2)
          else
            Some (mkGeometry (sx - NODE_WIDTH / 2)%Q y1
                    (tx + NODE_WIDTH / 2 + markerOffset)%Q y2)
      | _, _, _, _ => None
      end
  | _, _ => None
  end.

Record EdgeStyle := mkStyle {
  stroke : string;
  strokeWidth : Q;
  opacity : Q;
  isRelated : bool
}.

Definition neutralStyle : EdgeStyle := mkStyle "#9ca3af" (15 # 10) 1 false.
Definition relatedStyle : EdgeStyle := mkStyle "#2563eb" (25 # 10) 1 true.
Definition unrelatedStyle : EdgeStyle := mkStyle "#d1d5db" 1 (6 # 10) false.

Definition getEdgeStyle (selectedEdge : option Edge) (currentEdge : Edge)
  : EdgeStyle :=
  match selectedEdge with
  | None => neutralStyle
  | Some selectedEdge =>
      let isRelatedToSelection :=
        (bool_decide (sourceNodeId currentEdge = sourceNodeId selectedEdge) &&
         bool_decide (sourceColumn currentEdge = sourceColumn selectedEdge)) ||
        (bool_decide (targetNodeId currentEdge = targetNodeId selectedEdge) &&
         bool_decide (targetColumn currentEdge = targetColumn selectedEdge)) in
      if isRelatedToSelection then relatedStyle else unrelatedStyle
  end.

(** ** Canvas size ([graphDimensions]) *)

(** [Math.max(a, b)] *)
Definition Qmax (a b : Q) : Q := if Qltb a b then b else a.

(** The two shapes of the result: ['100%'] for both sides, or pixels. *)
Inductive Dimensions :=
  | FullSize
  | Pixels (width height : Q).

(** The running maxima of the right and bottom box edges; nodes without
    a position are skipped. *)
Definition extent (ns : list D3Node) : Q * Q :=
  fold_left
    (fun '(maxX, maxY) node =>
       match x node, y node with
       | Some vx, Some vy =>
           (Qmax maxX (vx + NODE_WIDTH / 2)%Q,
            Qmax maxY (vy + nodeHeight (base node) / 2)%Q)
       | _, _ => (maxX, maxY)
       end)
    ns (0%Q, 0%Q).

(** [container] is [(clientWidth, clientHeight)] of [containerRef.current],
    [None] while the ref is not attached. *)
Definition graphDimensions (ns : list D3Node) (container : option (Q * Q))
  : Dimensions :=
  match ns, container with
  | [], _ => FullSize
  | _, None => FullSize
  | _, Some (containerWidth, containerHeight) =>
      let '(maxX, maxY) := extent ns in
      Pixels (Qmax containerWidth (maxX + padding)%Q)
             (Qmax containerHeight (maxY + padding)%Q)
  end.

(** ** Vocabulary of the statements *)

(** The two edges have the same source column or the same target column. *)
Definition sharesEndpoint (e s : Edge) : Prop :=
  (sourceNodeId e = sourceNodeId s /\ sourceColumn e = sourceColumn s) \/
  (targetNodeId e = targetNodeId s /\ targetColumn e = targetColumn s).

#[global] Instance sharesEndpoint_dec e s : Decision (sharesEndpoint e s).
Proof. unfold sharesEndpoint. apply _. Defined.

(** The anchor of the specification: header, then the rows above the first
    column of the given name, then half a row; 0 without such a column. *)
Definition columnAnchor (cs : list Column) (columnName : string) : Q :=
  match list_find (fun c => col_name c = columnName) cs with
  | Some (columnIndex, _) =>
      (HEADER_HEIGHT + inject_Z (Z.of_nat columnIndex) * COLUMN_HEIGHT
       + COLUMN_HEIGHT / 2)%Q
  | None => 0%Q
  end.

(** The node [n] moved to [position] and pinned there. *)
Definition dragged (n : D3Node) (position : Q * Q) : D3Node :=
  mkD3 (base n) (Some (fst position)) (Some (snd position))
    (Some (fst position)) (Some (snd position)).


(** The drag as the specification words it: the node of the state that
    the drag is for ends at its previous position plus the delta. *)
Definition dragAsClaimed (latestNode : D3Node) (currentNodes : list D3Node)
  : Prop :=
  forall (dx dy : Q) (ns' : list D3Node) (i : nat) (n : D3Node) (px py : Q),
    currentNodes !! i = Some n -> id (base n) = id (base latestNode) ->
    x n = Some px -> y n = Some py ->
    onDrag latestNode dx dy currentNodes = Some ns' ->
    exists (n' : D3Node) (vx vy : Q),
      ns' !! i = Some n' /\ x n' = Some vx /\ y n' = Some vy /\
      (vx == px + dx)%Q /\ (vy == py + dy)%Q.

(** The offsets of successive rounds: each round starts where the round
    before it ended, [maxDepth + 2] further. *)
Fixpoint offsetsChain (off : Z) (Ls : list Layer) : Prop :=
  match Ls with
  | [] => True
  | L :: r =>
      layer_offset L = off /\ offsetsChain (off + (layer_maxDepth L + 2)) r
  end.

(** A directed walk of at least one edge. *)
Inductive walk (E : list Edge) : string -> string -> Prop :=
  | walk_edge e : e ∈ E -> walk E (sourceNodeId e) (targetNodeId e)
  | walk_step e w :
      e ∈ E -> walk E (targetNodeId e) w -> walk E (sourceNodeId e) w.

Definition onCycle (E : list Edge) (v : string) : Prop := walk E v v.

(** The node [v] is on a directed cycle of [E], or a directed walk leads
    from such a cycle to [v]. *)
Definition cycleUpstream (E : list Edge) (v : string) : Prop :=
  exists c, walk E c c /\ (c = v \/ walk E c v).

(** The edges can be ranked: there is no directed cycle. *)
Definition acyclicEdges (E : list Edge) : Prop :=
  exists rank : string -> nat,
    forall e, e ∈ E -> (rank (sourceNodeId e) < rank (targetNodeId e))%nat.

(** Depth monotonicity with the exception read as widely as its words
    allow: the target is on a cycle, or it got its depth from the depth-0
    fallback. *)
Definition depthMonotonicityAsClaimed
    (sort_by : forall A : Type, (A -> Z) -> list A -> list A)
    (data : LineageData) : Prop :=
  forall depths layers L e,
    depthLayers sort_by data = Some (depths, layers) ->
    L ∈ layers -> e ∈ edges data ->
    sourceNodeId e ∈ map id (layer_nodes L) ->
    targetNodeId e ∈ map id (layer_nodes L) ->
    get0 depths (sourceNodeId e) + 1 <= get0 depths (targetNodeId e) \/
    onCycle (edges data) (targetNodeId e) \/
    layer_queueDepths L !! targetNodeId e = None.


(** An edge of [E] joins [u] and [v], in one direction or the other. *)
Definition joined (E : list Edge) (u v : string) : Prop :=
  exists e, e ∈ E /\
            ((sourceNodeId e = u /\ targetNodeId e = v) \/
             (targetNodeId e = u /\ sourceNodeId e = v)).

(** The box of [a], centred at [ya], ends at least the vertical margin
    above the box of [b], centred at [yb]. *)
Definition above (ya : Q) (a : Node) (yb : Q) (b : Node) : Prop :=
  (ya + nodeHeight a / 2 + verticalMargin <= yb - nodeHeight b / 2)%Q.

(** A chain of [k] edges of [E], each starting where the one before it
    ends, the last one ending in the node. *)
Inductive chainTo (E : list Edge) : string -> nat -> Prop :=
  | chain_nil v : chainTo E v 0
  | chain_step e k :
      e ∈ E -> chainTo E (sourceNodeId e) k ->
      chainTo E (targetNodeId e) (S k).

(** ** Example graphs and states *)

(** A table with the one column [c], and an edge between such columns. *)
Definition tableNode (i : string) : Node := mkNode i i Table [mkColumn "c" "int"].
Definition columnEdge (a b : string) : Edge := mkEdge a "c" b "c".

(** [A -> X -> B], the cycle [B <-> C], and [D] fed by [A] and by [B]. *)
Definition cycleWithTail : LineageData :=
  mkData [tableNode "A"; tableNode "X"; tableNode "B"; tableNode "C";
          tableNode "D"]
    [columnEdge "A" "X"; columnEdge "X" "B"; columnEdge "B" "C";
     columnEdge "C" "B"; columnEdge "A" "D"; columnEdge "B" "D"].

(** [X -> B], and [A] on its own, listed between the two. *)
Definition splitPair : LineageData :=
  mkData [tableNode "X"; tableNode "A"; tableNode "B"] [columnEdge "X" "B"].

(** The cycle [A -> B -> A]. *)
Definition cycleAB : LineageData :=
  mkData [tableNode "A"; tableNode "B"] [columnEdge "A" "B"; columnEdge "B" "A"].

(** The depths, rounds and layout computed with the insertion sort. *)
Definition depthsOf (data : LineageData) : gmap string Z :=
  default ∅ (nodeDepths isort_by data).
Definition layersOf (data : LineageData) : list Layer :=
  default [] (snd <$> depthLayers isort_by data).

Definition noLayer : Layer := mkLayer [] [] [] ∅ ∅ 0 0.

Definition nthLayer (data : LineageData) (k : nat) : Layer :=
  default noLayer (layersOf data !! k).

(** A source table [A] feeding a table [B] of 30 columns and a table [C]
    of 2 columns. *)
Definition wideNode (i : string) (k : nat) : Node :=
  mkNode i i Table (repeat (mkColumn "c" "int") k).

Definition fanOut : LineageData :=
  mkData [wideNode "A" 1; wideNode "B" 30; wideNode "C" 2]
    [columnEdge "A" "B"; columnEdge "A" "C"].

Definition layoutOf (data : LineageData) (height : Q) : list D3Node :=
  default [] (computeLayout isort_by data height).

Definition noNode : D3Node := mkD3 (tableNode "") None None None None.

Definition nthNode (ns : list D3Node) (k : nat) : D3Node :=
  default noNode (ns !! k).

Definition noGeometry : EdgeGeometry := mkGeometry 0 0 0 0.

(** Two nodes of different heights with one id. *)
Definition twins : LineageData :=
  mkData [tableNode "A"; wideNode "A" 3] [].

(** Two laid-out nodes in one depth column. *)
Definition draggedNode : D3Node :=
  mkD3 (tableNode "A") (Some 178%Q) (Some 300%Q) None None.
Definition restingNode : D3Node :=
  mkD3 (tableNode "B") (Some 178%Q) (Some 420%Q) None None.


(** A node at [x = 2 ^ 53], where the next number is 2 further. *)
Definition farNode : D3Node :=
  mkD3 (tableNode "A") (Some (inject_Z (2 ^ 53))) (Some 300%Q) None None.

(** The scenario graphs of the specification. *)
Definition chain : LineageData :=
  mkData [tableNode "A"; tableNode "B"; tableNode "C"]
    [columnEdge "A" "B"; columnEdge "B" "C"].

Definition diamond : LineageData :=
  mkData [tableNode "A"; tableNode "B"; tableNode "C"; tableNode "D"]
    [columnEdge "A" "B"; columnEdge "A" "C"; columnEdge "B" "D";
     columnEdge "C" "D"].

Definition twoPairs : LineageData :=
  mkData [tableNode "A"; tableNode "B"; tableNode "C"; tableNode "D"]
    [columnEdge "A" "B"; columnEdge "C" "D"].

(** A self-loop, and an edge to a node that the graph does not have. *)
Definition selfLoop : LineageData :=
  mkData [tableNode "A"] [columnEdge "A" "A"].

Definition danglingEdge : LineageData :=
  mkData [tableNode "A"; tableNode "B"] [columnEdge "A" "Z"; columnEdge "A" "B"].

(** * Properties *)

(** ** Sorting *)

Section Sorting.
Context {A : Type} (key : A -> Z).

Let le_key (a b : A) : Prop := key a <= key b.
Let has_key (k : Z) (a : A) : bool := key a =? k.

Lemma insert_by_perm (a : A) (l : list A) :
  Permutation (insert_by key a l) (a :: l).
Proof.
  induction l as [|b r IH]; simpl; [reflexivity|].
  destruct (key a <=? key b); [reflexivity|].
  rewrite IH. apply perm_swap.
Qed.

Lemma isort_by_perm (l : list A) : Permutation (isort_by A key l) l.
Proof.
  induction l as [|a r IH]; simpl; [reflexivity|].
  rewrite insert_by_perm. now constructor.
Qed.

Lemma insert_by_sorted (a : A) (l : list A) :
  StronglySorted le_key l -> StronglySorted le_key (insert_by key a l).
Proof.
  induction 1 as [|b r Hs IH Hb]; simpl.
  - repeat constructor.
  - destruct (Z.leb_spec (key a) (key b)) as [Hle|Hgt].
    + constructor; [now constructor|].
      constructor; [exact Hle|].
      rewrite Forall_forall in Hb |- *. intros c Hc.
      specialize (Hb c Hc). unfold le_key in *. lia.
    + constructor; [exact IH|].
      rewrite Forall_forall in Hb |- *. intros c Hc.
      apply list_elem_of_In in Hc.
      apply (Permutation_in _ (insert_by_perm a r)) in Hc.
      destruct Hc as [<-|Hc]; [unfold le_key; lia|].
      apply Hb. now apply list_elem_of_In.
Qed.

Lemma isort_by_sorted (l : list A) : StronglySorted le_key (isort_by A key l).
Proof.
  induction l as [|a r IH]; simpl; [constructor|].
  now apply insert_by_sorted.
Qed.

Lemma insert_by_filter (k : Z) (a : A) (l : list A) :
  List.filter (has_key k) (insert_by key a l) = List.filter (has_key k) (a :: l).
Proof.
  induction l as [|b r IH]; [reflexivity|].
  cbn [insert_by]. destruct (Z.leb_spec (key a) (key b)) as [Hle|Hgt];
    [reflexivity|].
  cbn [List.filter] in *. rewrite IH. unfold has_key.
  destruct (Z.eqb_spec (key a) k), (Z.eqb_spec (key b) k); try reflexivity.
  lia.
Qed.

Lemma isort_by_filter (k : Z) (l : list A) :
  List.filter (has_key k) (isort_by A key l) = List.filter (has_key k) l.
Proof.
  induction l as [|a r IH]; [reflexivity|].
  cbn [isort_by]. rewrite insert_by_filter. cbn [List.filter].
  now rewrite IH.
Qed.

(** A list ordered by [key] is determined by its sublists of equal key. *)
Lemma sorted_by_classes (l1 l2 : list A) :
  StronglySorted le_key l1 -> StronglySorted le_key l2 ->
  (forall k, List.filter (has_key k) l1 = List.filter (has_key k) l2) ->
  l1 = l2.
Proof.
  intros H1. revert l2.
  induction H1 as [|a r1 Hs1 IH Ha]; intros l2 H2 Hf.
  - destruct l2 as [|b r2]; [reflexivity|].
    specialize (Hf (key b)). cbn in Hf. unfold has_key in Hf.
    rewrite Z.eqb_refl in Hf. discriminate.
  - destruct H2 as [|b r2 Hs2 Hb].
    + specialize (Hf (key a)). cbn in Hf. unfold has_key in Hf.
      rewrite Z.eqb_refl in Hf. discriminate.
    + assert (Hab : key a = key b).
      { apply Z.le_antisymm.
        - assert (Hin : In b (a :: r1)).
          { apply (List.filter_In (has_key (key b))). rewrite Hf.
            apply List.filter_In. split; [now left|].
            unfold has_key. apply Z.eqb_refl. }
          destruct Hin as [->|Hin]; [lia|].
          rewrite Forall_forall in Ha. apply Ha. now apply list_elem_of_In.
        - assert (Hin : In a (b :: r2)).
          { apply (List.filter_In (has_key (key a))). rewrite <- Hf.
            apply List.filter_In. split; [now left|].
            unfold has_key. apply Z.eqb_refl. }
          destruct Hin as [->|Hin]; [lia|].
          rewrite Forall_forall in Hb. apply Hb. now apply list_elem_of_In. }
      assert (a = b) as ->.
      { specialize (Hf (key a)). cbn in Hf. unfold has_key in Hf.
        rewrite <- Hab, Z.eqb_refl in Hf. congruence. }
      f_equal. apply IH; [exact Hs2|].
      intros k. specialize (Hf k). cbn in Hf.
      destruct (has_key k b); congruence.
Qed.

End Sorting.

Lemma isort_by_stable : StableSort isort_by.
Proof.
  intros A key l. split.
  - apply isort_by_sorted.
  - intros k. apply isort_by_filter.
Qed.

(** Every stable sort computes what the insertion sort computes. *)
Lemma StableSort_unique sort :
  StableSort sort -> forall A key l, sort A key l = isort_by A key l.
Proof.
  intros Hs A key l. destruct (Hs A key l) as [Hsorted Hfilter].
  apply (sorted_by_classes key); [exact Hsorted|apply isort_by_sorted|].
  intros k. rewrite Hfilter. symmetry. apply isort_by_filter.
Qed.

Lemma StableSort_perm sort :
  StableSort sort -> forall A key l, Permutation (sort A key l) l.
Proof.
  intros Hs A key l. rewrite (StableSort_unique sort Hs).
  apply isort_by_perm.
Qed.

Lemma StableSort_sorted sort :
  StableSort sort ->
  forall A key l, StronglySorted (fun a b => key a <= key b) (sort A key l).
Proof. intros Hs A key l. apply Hs. Qed.

(** ** Edge styling *)

Lemma getEdgeStyle_selected (s e : Edge) :
  getEdgeStyle (Some s) e =
  if decide (sharesEndpoint e s) then relatedStyle else unrelatedStyle.
Proof.
  unfold getEdgeStyle, sharesEndpoint.
  destruct (decide _) as [H|H];
    repeat case_bool_decide; simpl; try reflexivity; exfalso; tauto.
Qed.

(** C7. Without a selection every edge gets the neutral style. While [s]
    is selected, an edge [e] gets the related style when it has the source
    node and source column of [s], or the target node and target column of
    [s], and the unrelated style otherwise; it is flagged related exactly
    in the first case; [s] itself is related. *)
Theorem getEdgeStyle_classification (e : Edge) :
  getEdgeStyle None e = neutralStyle /\
  forall s : Edge,
    getEdgeStyle (Some s) e =
      (if decide (sharesEndpoint e s) then relatedStyle else unrelatedStyle) /\
    (isRelated (getEdgeStyle (Some s) e) = true <-> sharesEndpoint e s) /\
    getEdgeStyle (Some s) s = relatedStyle.
Proof.
  split; [reflexivity|]. intros s. split; [apply getEdgeStyle_selected|].
  split.
  - rewrite getEdgeStyle_selected. destruct (decide _); simpl; split;
      intros; done.
  - rewrite getEdgeStyle_selected. rewrite decide_True; [reflexivity|].
    left. done.
Qed.

(** ** Edge anchors *)

Lemma findIndexFrom_list_find (columnName : string) (cs : list Column) (i : Z) :
  findIndexFrom columnName cs i =
  match list_find (fun c => col_name c = columnName) cs with
  | Some (k, _) => i + Z.of_nat k
  | None => -1
  end.
Proof.
  revert i. induction cs as [|c r IH]; intros i; [reflexivity|].
  cbn [findIndexFrom list_find]. case_bool_decide as Hc.
  - rewrite decide_True by done. simpl. lia.
  - rewrite decide_False by done. rewrite IH.
    destruct (list_find _ r) as [[k ?]|]; simpl; lia.
Qed.

Lemma getColumnYOffset_anchor nodeMap nodeId columnName node :
  nodeMap !! nodeId = Some node ->
  getColumnYOffset nodeMap nodeId columnName =
  columnAnchor (columns (base node)) columnName.
Proof.
  intros Hn. unfold getColumnYOffset, columnAnchor, findIndex. rewrite Hn.
  rewrite findIndexFrom_list_find.
  destruct (list_find _ _) as [[k ?]|]; [|reflexivity].
  destruct (Z.eqb_spec (0 + Z.of_nat k) (-1)) as [Hk|_]; [lia|].
  reflexivity.
Qed.

Lemma getColumnYOffset_unknown nodeMap nodeId columnName :
  nodeMap !! nodeId = None -> getColumnYOffset nodeMap nodeId columnName = 0%Q.
Proof. intros Hn. unfold getColumnYOffset. now rewrite Hn. Qed.

(** What a drawn edge is made of. *)
Lemma resolveEdgeGeometry_Some nodeMap (e : Edge) (sn tn : D3Node)
    (g : EdgeGeometry) :
  nodeMap !! sourceNodeId e = Some sn ->
  nodeMap !! targetNodeId e = Some tn ->
  resolveEdgeGeometry nodeMap e = Some g ->
  exists sx sy tx ty : Q,
    x sn = Some sx /\ y sn = Some sy /\ x tn = Some tx /\ y tn = Some ty /\
    x1 g = (if Qltb sx tx then sx + NODE_WIDTH / 2 else sx - NODE_WIDTH / 2)%Q /\
    x2 g = (if Qltb sx tx then tx - NODE_WIDTH / 2 - markerOffset
            else tx + NODE_WIDTH / 2 + markerOffset)%Q /\
    y1 g = ((sy - nodeHeight (base sn) / 2)
            + columnAnchor (columns (base sn)) (sourceColumn e))%Q /\
    y2 g = ((ty - nodeHeight (base tn) / 2)
            + columnAnchor (columns (base tn)) (targetColumn e))%Q.
Proof.
  intros Hs Ht Hg. unfold resolveEdgeGeometry in Hg. rewrite Hs, Ht in Hg.
  destruct (x sn) as [sx|], (y sn) as [sy|], (x tn) as [tx|], (y tn) as [ty|];
    try discriminate.
  exists sx, sy, tx, ty.
  rewrite (getColumnYOffset_anchor _ _ _ _ Hs) in Hg.
  rewrite (getColumnYOffset_anchor _ _ _ _ Ht) in Hg.
  destruct (Qltb sx tx); injection Hg as <-; repeat split; reflexivity.
Qed.

(** C9. For an edge whose two nodes resolve and which is drawn, the
    vertical anchor below the top of each endpoint box is
    [HEADER_HEIGHT + columnIndex * COLUMN_HEIGHT + COLUMN_HEIGHT / 2] for
    the index of the first column of the edge's column name, and 0 when the
    node has no column of that name. *)
Theorem edge_anchor_offsets nodeMap (e : Edge) (sn tn : D3Node) (g : EdgeGeometry) :
  nodeMap !! sourceNodeId e = Some sn ->
  nodeMap !! targetNodeId e = Some tn ->
  resolveEdgeGeometry nodeMap e = Some g ->
  exists sy ty : Q,
    y sn = Some sy /\ y tn = Some ty /\
    y1 g = ((sy - nodeHeight (base sn) / 2)
            + columnAnchor (columns (base sn)) (sourceColumn e))%Q /\
    y2 g = ((ty - nodeHeight (base tn) / 2)
            + columnAnchor (columns (base tn)) (targetColumn e))%Q.
Proof.
  intros Hs Ht Hg.
  destruct (resolveEdgeGeometry_Some _ _ _ _ _ Hs Ht Hg)
    as (sx & sy & tx & ty & _ & Hsy & _ & Hty & _ & _ & H1 & H2).
  exists sy, ty. auto.
Qed.

(** ** Edge sides *)

Lemma Qltb_lt (a b : Q) : Qltb a b = true <-> (a < b)%Q.
Proof.
  unfold Qltb. rewrite negb_true_iff. split.
  - intros H. apply Qnot_le_lt. intros Hle.
    apply Qle_bool_iff in Hle. congruence.
  - intros H. destruct (Qle_bool b a) eqn:E; [|reflexivity].
    apply Qle_bool_iff in E. exfalso. now apply (Qlt_not_le a b).
Qed.

Lemma Qltb_ge (a b : Q) : Qltb a b = false <-> (b <= a)%Q.
Proof.
  unfold Qltb. rewrite negb_false_iff. apply Qle_bool_iff.
Qed.

(** C10. When the centres of the source and of the target have the same
    x, the edge leaves the source box on its left side and reaches the
    target box on its right side, the marker clearance added. *)
Theorem equal_x_takes_back_edge_branch nodeMap (e : Edge) (sn tn : D3Node)
    (sx tx : Q) (g : EdgeGeometry) :
  nodeMap !! sourceNodeId e = Some sn ->
  nodeMap !! targetNodeId e = Some tn ->
  x sn = Some sx -> x tn = Some tx -> (sx == tx)%Q ->
  resolveEdgeGeometry nodeMap e = Some g ->
  x1 g = (sx - NODE_WIDTH / 2)%Q /\
  x2 g = (tx + NODE_WIDTH / 2 + 10)%Q.
Proof.
  intros Hs Ht Hsx Htx Heq Hg.
  destruct (resolveEdgeGeometry_Some _ _ _ _ _ Hs Ht Hg)
    as (sx' & sy & tx' & ty & Hsx' & _ & Htx' & _ & H1 & H2 & _).
  assert (sx' = sx) as -> by congruence.
  assert (tx' = tx) as -> by congruence.
  assert (Hlt : Qltb sx tx = false).
  { apply Qltb_ge. rewrite Heq. apply Qle_refl. }
  rewrite Hlt in H1, H2. split; assumption.
Qed.

(** ** Dragging *)










(** ** Normalization *)

Lemma Qdiv2 (a : Q) : (a / 2 == a * (1 # 2))%Q.
Proof. reflexivity. Qed.

(** [lra] takes a halved variable for an unknown: halves become products
    first. *)
Ltac halves :=
  repeat match goal with
    | H : context [(?a / 2)%Q] |- _ => rewrite (Qdiv2 a) in H
    | |- context [(?a / 2)%Q] => rewrite (Qdiv2 a)
    end.


Definition nodeLeft (n : D3Node) : Q := (orZero (x n) - NODE_WIDTH / 2)%Q.
Definition nodeTop (n : D3Node) : Q :=
  (orZero (y n) - nodeHeight (base n) / 2)%Q.

Lemma nodeHeight_ge (n : Node) : (60 <= nodeHeight n)%Q.
Proof.
  unfold nodeHeight, HEADER_HEIGHT, COLUMN_HEIGHT.
  assert (0 <= inject_Z (Z.of_nat (length (columns n))))%Q
    by (unfold Qle; simpl; lia).
  lra.
Qed.

Lemma lower_Some (m : option Q) (v : Q) :
  exists q, lower m v = Some q /\ (q <= v)%Q /\
            forall m', m = Some m' -> (q <= m')%Q.
Proof.
  destruct m as [m'|]; simpl.
  - destruct (Qltb v m') eqn:E.
    + exists v. split; [reflexivity|]. split; [lra|].
      intros ? [= <-]. apply Qltb_lt in E. lra.
    + exists m'. split; [reflexivity|]. apply Qltb_ge in E.
      split; [exact E|]. intros ? [= <-]. lra.
  - exists v. split; [reflexivity|]. split; [lra|]. intros ? [=].
Qed.

Lemma bounds_fold (ns : list D3Node) (mx my : option Q) :
  let r :=
    fold_left
      (fun '(minX, minY) node =>
         (lower minX (orZero (x node) - NODE_WIDTH / 2)%Q,
          lower minY (orZero (y node) - nodeHeight (base node) / 2)%Q))
      ns (mx, my) in
  (forall q, mx = Some q -> exists q', fst r = Some q' /\ (q' <= q)%Q) /\
  (forall q, my = Some q -> exists q', snd r = Some q' /\ (q' <= q)%Q) /\
  (forall n, n ∈ ns -> exists q', fst r = Some q' /\ (q' <= nodeLeft n)%Q) /\
  (forall n, n ∈ ns -> exists q', snd r = Some q' /\ (q' <= nodeTop n)%Q).
Proof.
  revert mx my. induction ns as [|a r IH]; intros mx my; simpl.
  - repeat split; intros; try (eexists; split; [eassumption|lra]);
      match goal with H : _ ∈ [] |- _ => inversion H end.
  - destruct (lower_Some mx (orZero (x a) - NODE_WIDTH / 2)%Q)
      as (qx & Hqx & Hqx1 & Hqx2).
    destruct (lower_Some my (orZero (y a) - nodeHeight (base a) / 2)%Q)
      as (qy & Hqy & Hqy1 & Hqy2).
    specialize (IH (lower mx (orZero (x a) - NODE_WIDTH / 2)%Q)
                   (lower my (orZero (y a) - nodeHeight (base a) / 2)%Q)).
    simpl in IH. destruct IH as (IH1 & IH2 & IH3 & IH4).
    destruct (IH1 qx Hqx) as (qx' & Hqx' & Hlex).
    destruct (IH2 qy Hqy) as (qy' & Hqy' & Hley).
    repeat split.
    + intros q Hq. exists qx'. split; [exact Hqx'|].
      specialize (Hqx2 q Hq). lra.
    + intros q Hq. exists qy'. split; [exact Hqy'|].
      specialize (Hqy2 q Hq). lra.
    + intros n Hn. apply elem_of_cons in Hn as [->|Hn]; [|now apply IH3].
      exists qx'. split; [exact Hqx'|]. unfold nodeLeft. lra.
    + intros n Hn. apply elem_of_cons in Hn as [->|Hn]; [|now apply IH4].
      exists qy'. split; [exact Hqy'|]. unfold nodeTop. lra.
Qed.

Lemma deficit_spec (q v : Q) :
  (q <= v)%Q ->
  (50 <= v + deficit (Some q))%Q /\
  (Qltb 0 (deficit (Some q)) = false -> (50 <= v)%Q).
Proof.
  intros Hq. unfold deficit, padding. destruct (Qltb q 50) eqn:E.
  - apply Qltb_lt in E. split; [lra|].
    intros H0. apply Qltb_ge in H0. lra.
  - apply Qltb_ge in E. split; [lra|]. intros _. lra.
Qed.

(** After [normalize] every node has a position, and its box keeps the
    padding on the left and on top. *)
Lemma normalize_padded (ns : list D3Node) (n : D3Node) :
  n ∈ normalize ns ->
  exists vx vy : Q,
    x n = Some vx /\ y n = Some vy /\
    (padding <= vx - NODE_WIDTH / 2)%Q /\
    (padding <= vy - nodeHeight (base n) / 2)%Q.
Proof.
  unfold normalize. destruct ns as [|a r]; [intros H; inversion H|].
  cbv iota. assert (Ha : a ∈ a :: r) by left.
  remember (a :: r) as l eqn:Hl. clear Hl. unfold bounds.
  pose proof (bounds_fold l None None) as Hb. cbv zeta in Hb.
  destruct (fold_left _ l (None, None)) as [minX minY].
  destruct Hb as (_ & _ & HX & HY). cbn [fst snd] in HX, HY.
  assert (Hxy : exists qx qy, minX = Some qx /\ minY = Some qy).
  { destruct (HX a Ha) as (qx & -> & _).
    destruct (HY a Ha) as (qy & -> & _). eauto. }
  destruct Hxy as (qx & qy & -> & ->).
  assert (HX' : forall m, m ∈ l -> (qx <= nodeLeft m)%Q).
  { intros m Hm. destruct (HX m Hm) as (q' & [= <-] & Hle). exact Hle. }
  assert (HY' : forall m, m ∈ l -> (qy <= nodeTop m)%Q).
  { intros m Hm. destruct (HY m Hm) as (q' & [= <-] & Hle). exact Hle. }
  clear HX HY.
  destruct (Qltb 0 (deficit (Some qx)) || Qltb 0 (deficit (Some qy))) eqn:E.
  - intros Hn. apply list_elem_of_In, in_map_iff in Hn as (m & <- & Hm).
    apply list_elem_of_In in Hm. cbn [x y base].
    eexists _, _. split; [reflexivity|]. split; [reflexivity|].
    specialize (HX' m Hm). specialize (HY' m Hm).
    unfold nodeLeft in HX'. unfold nodeTop in HY'.
    destruct (deficit_spec qx _ HX') as [H1 _].
    destruct (deficit_spec qy _ HY') as [H2 _].
    unfold padding. split; lra.
  - intros Hn. apply orb_false_iff in E as [Ex Ey].
    specialize (HX' n Hn). specialize (HY' n Hn).
    unfold nodeLeft in HX'. unfold nodeTop in HY'.
    destruct (deficit_spec qx _ HX') as [_ H1].
    destruct (deficit_spec qy _ HY') as [_ H2].
    specialize (H1 Ex). specialize (H2 Ey). clear Ex Ey HX' HY'.
    pose proof (nodeHeight_ge (base n)) as Hh.
    unfold NODE_WIDTH, padding in *.
    destruct (x n) as [vx|], (y n) as [vy|]; simpl in *;
      try (exfalso; halves; lra).
    exists vx, vy. repeat split; assumption.
Qed.

Lemma handleNodeDrag_positioned nodeId position (ns : list D3Node) :
  (forall n, n ∈ ns -> is_Some (x n) /\ is_Some (y n)) ->
  forall n, n ∈ handleNodeDrag nodeId position ns ->
            is_Some (x n) /\ is_Some (y n).
Proof.
  intros H n Hn. unfold handleNodeDrag in Hn.
  apply list_elem_of_In, in_map_iff in Hn as (m & <- & Hm).
  apply list_elem_of_In in Hm.
  destruct (decide _); [simpl; split; eexists; reflexivity|now apply H].
Qed.

Lemma nodeMapOf_lookup_fold (ns : list D3Node) (m : gmap string D3Node)
    (k : string) (v : D3Node) :
  fold_left (fun m n => <[id (base n) := n]> m) ns m !! k = Some v ->
  (v ∈ ns /\ id (base v) = k) \/ m !! k = Some v.
Proof.
  revert m. induction ns as [|a r IH]; intros m Hv; [now right|].
  simpl in Hv. apply IH in Hv as [[Hv Hk]|Hv].
  - left. split; [now right|exact Hk].
  - destruct (decide (id (base a) = k)) as [<-|Hne].
    + rewrite lookup_insert_eq in Hv. injection Hv as <-.
      left. split; [left|reflexivity].
    + rewrite lookup_insert_ne in Hv by done. now right.
Qed.

Lemma nodeMapOf_lookup_Some (ns : list D3Node) (k : string) (v : D3Node) :
  nodeMapOf ns !! k = Some v -> v ∈ ns /\ id (base v) = k.
Proof.
  intros H. apply nodeMapOf_lookup_fold in H as [H|H]; [exact H|].
  rewrite lookup_empty in H. discriminate.
Qed.

Lemma nodeMapOf_dom_fold (ns : list D3Node) (m : gmap string D3Node) :
  dom (fold_left (fun m n => <[id (base n) := n]> m) ns m) =
  list_to_set (map (fun n => id (base n)) ns) ∪ dom m.
Proof.
  revert m. induction ns as [|a r IH]; intros m; simpl.
  - now rewrite (left_id_L ∅ (∪)).
  - rewrite IH, dom_insert_L. apply set_eq. intros k.
    rewrite !elem_of_union. tauto.
Qed.

(** A node id resolves in the node map exactly when some node has it. *)
Lemma nodeMapOf_is_Some (ns : list D3Node) (k : string) :
  is_Some (nodeMapOf ns !! k) <-> exists n, n ∈ ns /\ id (base n) = k.
Proof.
  rewrite <- elem_of_dom. unfold nodeMapOf. rewrite nodeMapOf_dom_fold.
  rewrite dom_empty_L, elem_of_union, elem_of_list_to_set.
  split.
  - intros [H|H]; [|set_solver].
    apply list_elem_of_In, in_map_iff in H as (n & Hn & Hin).
    exists n. split; [now apply list_elem_of_In|exact Hn].
  - intros (n & Hin & Hn). left. apply list_elem_of_In, in_map_iff.
    exists n. split; [exact Hn|now apply list_elem_of_In].
Qed.

Lemma alter_base (f : D3Node -> D3Node) (i : nat) (l : list D3Node) :
  (forall n, base (f n) = base n) -> map base (alter f i l) = map base l.
Proof.
  intros Hf. revert i. induction l as [|a r IH]; intros i; [reflexivity|].
  destruct i as [|i]; simpl; [now rewrite Hf|]. f_equal. apply IH.
Qed.

Lemma normalize_base (l : list D3Node) : map base (normalize l) = map base l.
Proof.
  unfold normalize. destruct l as [|a r]; [reflexivity|].
  destruct (bounds (a :: r)) as [minX minY].
  destruct (_ || _); [|reflexivity].
  rewrite map_map. reflexivity.
Qed.

Section Coordinates.

Variable sort_by : forall A : Type, (A -> Z) -> list A -> list A.

Lemma stackColumn_base (height : Q) (nodeOrder : gmap string Z)
    (store : list D3Node) (group : list (nat * Node)) :
  map base (stackColumn sort_by height nodeOrder store group) = map base store.
Proof.
  unfold stackColumn.
  generalize (sort_by (nat * Node)%type
                (fun a => get0 nodeOrder (id (snd a))) group) as l.
  intros l.
  generalize ((height
               - (fold_left (fun acc a => acc + nodeHeight (snd a)) l 0
                  + (inject_Z (Z.of_nat (length l)) - 1) * verticalMargin)) / 2)%Q
    as currentY.
  revert store. induction l as [|a r IH]; intros store currentY; [reflexivity|].
  cbn [fold_left]. rewrite IH. now apply alter_base.
Qed.

(** The layout keeps the nodes of the graph, in their order, with their
    columns. *)
Lemma placeNodes_base (data : LineageData) (height : Q)
    (depths : gmap string Z) :
  map base (placeNodes sort_by data height depths) = nodes data.
Proof.
  unfold placeNodes. rewrite normalize_base, map_map. cbn [assignX set_x base].
  change (map (fun n => base n)) with (map base).
  generalize (map snd (groupByDepth depths (nodes data) 0 [])) as groups.
  assert (H0 : map base (copyNodes (nodes data)) = nodes data).
  { unfold copyNodes. rewrite map_map. apply map_id. }
  revert H0. generalize (copyNodes (nodes data)) as store.
  intros store H0 groups. revert store H0.
  induction groups as [|g r IH]; intros store H0; [exact H0|].
  cbn [fold_left]. apply IH. now rewrite stackColumn_base.
Qed.

Lemma reachable_positioned (data : LineageData) (height : Q) (ns : list D3Node) :
  reachable sort_by data height ns ->
  forall n, n ∈ ns -> is_Some (x n) /\ is_Some (y n).
Proof.
  induction 1 as [|ns Hl|ns nodeId position Hr IH].
  - intros n Hn. inversion Hn.
  - intros n Hn. unfold computeLayout in Hl.
    destruct (nodes data); [injection Hl as <-; inversion Hn|].
    destruct (nodeDepths sort_by data); [|discriminate].
    injection Hl as <-. unfold placeNodes in Hn.
    apply normalize_padded in Hn as (vx & vy & -> & -> & _). eauto.
  - now apply handleNodeDrag_positioned.
Qed.

(** C6. In every state of the component, an edge whose source id or
    target id is the id of no node yields [null] (it is not drawn, nothing
    is raised), and an edge whose two ids are ids of nodes yields a
    geometry. *)
Theorem edge_geometry_resolution (data : LineageData) (height : Q)
    (ns : list D3Node) (e : Edge) :
  reachable sort_by data height ns ->
  (((forall n, n ∈ ns -> id (base n) <> sourceNodeId e) \/
    (forall n, n ∈ ns -> id (base n) <> targetNodeId e)) ->
   resolveEdgeGeometry (nodeMapOf ns) e = None) /\
  ((exists n, n ∈ ns /\ id (base n) = sourceNodeId e) ->
   (exists n, n ∈ ns /\ id (base n) = targetNodeId e) ->
   exists g, resolveEdgeGeometry (nodeMapOf ns) e = Some g).
Proof.
  intros Hr. split.
  - intros Hno. unfold resolveEdgeGeometry.
    destruct (nodeMapOf ns !! sourceNodeId e) as [sn|] eqn:Hs; [|reflexivity].
    destruct (nodeMapOf ns !! targetNodeId e) as [tn|] eqn:Ht; [|reflexivity].
    apply nodeMapOf_lookup_Some in Hs as [Hs1 Hs2].
    apply nodeMapOf_lookup_Some in Ht as [Ht1 Ht2].
    destruct Hno as [Hno|Hno]; exfalso;
      [exact (Hno sn Hs1 Hs2)|exact (Hno tn Ht1 Ht2)].
  - intros Hs Ht.
    apply nodeMapOf_is_Some in Hs as [sn Hs].
    apply nodeMapOf_is_Some in Ht as [tn Ht].
    unfold resolveEdgeGeometry. rewrite Hs, Ht.
    apply nodeMapOf_lookup_Some in Hs as [Hs _].
    apply nodeMapOf_lookup_Some in Ht as [Ht _].
    destruct (reachable_positioned _ _ _ Hr sn Hs) as [[sx ->] [sy ->]].
    destruct (reachable_positioned _ _ _ Hr tn Ht) as [[tx ->] [ty ->]].
    destruct (Qltb sx tx); eauto.
Qed.

End Coordinates.

(** ** Stable sorts *)

Lemma StableSort_ext sort1 sort2 :
  StableSort sort1 -> StableSort sort2 -> sort1 = sort2.
Proof.
  intros H1 H2.
  apply functional_extensionality_dep. intros A.
  apply functional_extensionality. intros key.
  apply functional_extensionality. intros l.
  now rewrite (StableSort_unique sort1 H1), (StableSort_unique sort2 H2).
Qed.

(** ** Component search *)

Lemma elem_of_map {A B : Type} (f : A -> B) (l : list A) (b : B) :
  b ∈ map f l <-> exists a, b = f a /\ a ∈ l.
Proof. apply (list_elem_of_fmap f l b). Qed.

Lemma elem_of_concat {A : Type} (a : A) (ls : list (list A)) :
  a ∈ concat ls <-> exists l, a ∈ l /\ l ∈ ls.
Proof.
  induction ls as [|c r IH]; simpl.
  - split; [intros H; inversion H|intros (l & _ & H); inversion H].
  - rewrite elem_of_app, IH. split.
    + intros [H|(l & Hl & Hr)]; [exists c; split; [exact H|left]|].
      exists l. split; [exact Hl|now right].
    + intros (l & Hl & Hc). apply elem_of_cons in Hc as [->|Hc]; [now left|].
      right. eauto.
Qed.

Lemma Permutation_concat {A : Type} (l l' : list (list A)) :
  Permutation l l' -> Permutation (concat l) (concat l').
Proof.
  induction 1 as [|c l l' _ IH|c d l|l l' l'' _ IH1 _ IH2]; simpl.
  - reflexivity.
  - now apply Permutation_app_head.
  - rewrite !app_assoc. apply Permutation_app_tail, Permutation_app_comm.
  - now transitivity (concat l').
Qed.

Section Components.

Variables (ns : list Node) (adj : gmap string (list string)).

(** [L] lists the nodes handed out so far (closed components, then the
    component being built, then the pending queue): they are nodes of the
    graph, of pairwise different ids, and their ids are the visited ids
    that are ids of nodes. *)
Definition placed (visited : gset string) (L : list Node) : Prop :=
  (forall n, n ∈ L -> n ∈ ns) /\
  NoDup (map id L) /\
  (forall k, k ∈ map id L <-> k ∈ visited /\ k ∈ map id ns).

Lemma findNode_Some (vId : string) (n : Node) :
  findNode ns vId = Some n -> n ∈ ns /\ id n = vId.
Proof.
  unfold findNode. intros H. apply find_some in H as [Hin Hid].
  split; [now apply list_elem_of_In|]. now apply bool_decide_eq_true in Hid.
Qed.

Lemma findNode_None (vId : string) :
  findNode ns vId = None -> vId ∉ map id ns.
Proof.
  unfold findNode. intros H Hin. apply elem_of_map in Hin as (n & -> & Hn).
  apply list_elem_of_In in Hn. apply (find_none _ _ H) in Hn.
  now apply bool_decide_eq_false in Hn.
Qed.

Lemma placed_length (visited : gset string) (L : list Node) :
  placed visited L -> (length L <= length ns)%nat.
Proof.
  intros (Hin & Hnd & _).
  rewrite <- (length_map id L), <- (length_map id ns).
  apply submseteq_length, NoDup_submseteq; [exact Hnd|].
  intros k Hk. apply elem_of_map in Hk as (n & -> & Hn).
  apply elem_of_map. exists n. split; [reflexivity|now apply Hin].
Qed.

Lemma placed_snoc (visited : gset string) (L : list Node) (n : Node) :
  placed visited L -> n ∈ ns -> id n ∉ visited ->
  placed ({[id n]} ∪ visited) (L ++ [n]).
Proof.
  intros (Hin & Hnd & Hiff) Hn Hfresh. split; [|split].
  - intros m Hm. apply elem_of_app in Hm as [Hm|Hm]; [now apply Hin|].
    apply list_elem_of_singleton in Hm as ->. exact Hn.
  - rewrite map_app. apply NoDup_app. split; [exact Hnd|]. split.
    + intros k Hk Hk'. simpl in Hk'. apply list_elem_of_singleton in Hk' as ->.
      apply Hiff in Hk as [Hk _]. contradiction.
    + simpl. apply NoDup_singleton.
  - intros k. rewrite map_app, elem_of_app, Hiff, elem_of_union,
      elem_of_singleton. simpl. rewrite list_elem_of_singleton. split.
    + intros [[H1 H2]| ->]; [tauto|]. split; [now left|].
      apply elem_of_map. eauto.
    + intros [[->|H1] H2]; tauto.
Qed.

Lemma placed_skip (visited : gset string) (L : list Node) (k : string) :
  placed visited L -> k ∉ map id ns -> placed ({[k]} ∪ visited) L.
Proof.
  intros (Hin & Hnd & Hiff) Hk. split; [exact Hin|]. split; [exact Hnd|].
  intros k'. rewrite Hiff, elem_of_union, elem_of_singleton. split.
  - tauto.
  - intros [[->|H1] H2]; [contradiction|tauto].
Qed.

Lemma visit_placed (P : list Node) (visited : gset string) (queue : list Node)
    (vId : string) :
  placed visited (P ++ queue) ->
  exists visited' more,
    visit ns (visited, queue) vId = (visited', queue ++ more) /\
    placed visited' (P ++ queue ++ more) /\ visited ⊆ visited'.
Proof.
  intros Hp. unfold visit. destruct (decide (vId ∈ visited)) as [Hv|Hv].
  - exists visited, []. rewrite !app_nil_r. auto.
  - destruct (findNode ns vId) as [vNode|] eqn:Hf.
    + apply findNode_Some in Hf as [Hin <-].
      exists ({[id vNode]} ∪ visited), [vNode]. split; [reflexivity|].
      split; [|apply union_subseteq_r].
      rewrite app_assoc. now apply placed_snoc.
    + apply findNode_None in Hf.
      exists ({[vId]} ∪ visited), []. rewrite !app_nil_r.
      split; [reflexivity|]. split; [|apply union_subseteq_r].
      now apply placed_skip.
Qed.

Lemma fold_visit_placed (vIds : list string) (P : list Node)
    (visited : gset string) (queue : list Node) :
  placed visited (P ++ queue) ->
  exists visited' more,
    fold_left (visit ns) vIds (visited, queue) = (visited', queue ++ more) /\
    placed visited' (P ++ queue ++ more) /\ visited ⊆ visited'.
Proof.
  revert visited queue. induction vIds as [|vId r IH]; intros visited queue Hp.
  - exists visited, []. rewrite !app_nil_r. auto.
  - cbn [fold_left]. destruct (visit_placed P visited queue vId Hp)
      as (v1 & m1 & -> & Hp1 & Hs1).
    destruct (IH v1 (queue ++ m1) Hp1) as (v2 & m2 & -> & Hp2 & Hs2).
    exists v2, (m1 ++ m2). rewrite !app_assoc in *.
    split; [reflexivity|]. split; [exact Hp2|]. now transitivity v1.
Qed.

Lemma bfs_placed (fuel : nat) (P : list Node) (visited : gset string)
    (pending component : list Node) :
  placed visited (P ++ component ++ pending) ->
  (length ns < fuel + length (P ++ component))%nat ->
  exists visited' more,
    bfs fuel ns adj visited pending component
    = Some (visited', component ++ pending ++ more) /\
    placed visited' (P ++ component ++ pending ++ more) /\
    visited ⊆ visited'.
Proof.
  revert visited pending component.
  induction fuel as [|fuel IH]; intros visited pending component Hp Hfuel.
  - destruct pending as [|uNode rest].
    + exists visited, []. simpl. rewrite !app_nil_r in *. auto.
    + exfalso. apply placed_length in Hp.
      rewrite !length_app in *. simpl in *. lia.
  - destruct pending as [|uNode rest].
    + exists visited, []. simpl. rewrite !app_nil_r in *. auto.
    + cbn [bfs].
      assert (Hp' : placed visited ((P ++ component ++ [uNode]) ++ rest)).
      { now rewrite <- !app_assoc. }
      destruct (fold_visit_placed (default [] (adj !! id uNode)) _ _ _ Hp')
        as (v1 & m1 & -> & Hp1 & Hs1).
      rewrite <- !app_assoc in Hp1.
      destruct (IH v1 (rest ++ m1) (component ++ [uNode])) as
        (v2 & m2 & -> & Hp2 & Hs2).
      * now rewrite <- !app_assoc.
      * rewrite !length_app in *. simpl. lia.
      * exists v2, (m1 ++ m2). rewrite <- !app_assoc in *. simpl in *.
        split; [reflexivity|]. split; [exact Hp2|]. now transitivity v1.
Qed.

Lemma findComponents_placed (starts : list Node) (visited : gset string)
    (components : list (list Node)) :
  (forall s, s ∈ starts -> s ∈ ns) ->
  placed visited (concat components) ->
  exists visited' new,
    findComponents ns adj starts visited components = Some (components ++ new) /\
    placed visited' (concat (components ++ new)) /\
    visited ⊆ visited' /\
    (forall s, s ∈ starts -> id s ∈ visited') /\
    [] ∉ new.
Proof.
  revert visited components.
  induction starts as [|startNode r IH]; intros visited components Hs Hp.
  - exists visited, []. rewrite app_nil_r. simpl.
    split; [reflexivity|]. split; [exact Hp|]. split; [done|].
    split; [intros s Hs'; inversion Hs'|intros H; inversion H].
  - cbn [findComponents].
    assert (Hr : forall s, s ∈ r -> s ∈ ns) by (intros; apply Hs; now right).
    destruct (decide (id startNode ∈ visited)) as [Hv|Hv].
    + destruct (IH visited components Hr Hp)
        as (v1 & new & -> & Hp1 & Hs1 & Hall & Hne).
      exists v1, new. split; [reflexivity|]. split; [exact Hp1|].
      split; [exact Hs1|]. split; [|exact Hne].
      intros s Hs'. apply elem_of_cons in Hs' as [->|Hs']; [|now apply Hall].
      now apply Hs1.
    + assert (Hp0 : placed ({[id startNode]} ∪ visited)
                      (concat components ++ [] ++ [startNode])).
      { simpl. apply placed_snoc; [exact Hp| |exact Hv]. apply Hs. left. }
      destruct (bfs_placed (S (length ns)) _ _ _ _ Hp0)
        as (v1 & m1 & -> & Hp1 & Hs1); [lia|].
      simpl in Hp1. simpl.
      destruct (IH v1 (components ++ [startNode :: m1]) Hr)
        as (v2 & new & -> & Hp2 & Hs2 & Hall & Hne).
      { rewrite concat_app. simpl. now rewrite app_nil_r. }
      exists v2, ((startNode :: m1) :: new). rewrite <- !app_assoc in *.
      simpl in *. split; [reflexivity|]. split; [exact Hp2|].
      split; [set_solver|]. split.
      * intros s Hs'. apply elem_of_cons in Hs' as [->|Hs']; [|now apply Hall].
        apply Hs2, Hs1. set_solver.
      * intros H. apply elem_of_cons in H as [H|H]; [discriminate|].
        contradiction.
Qed.

End Components.

(** The component search ends, and its components are non-empty lists of
    nodes of the graph which cover the ids of the graph, no id twice. *)
Lemma findComponents_spec (data : LineageData) :
  exists components,
    findComponents (nodes data) (buildAdj data) (nodes data) ∅ []
    = Some components /\
    (forall c n, c ∈ components -> n ∈ c -> n ∈ nodes data) /\
    NoDup (map id (concat components)) /\
    (forall n, n ∈ nodes data -> id n ∈ map id (concat components)) /\
    [] ∉ components.
Proof.
  destruct (findComponents_placed (nodes data) (buildAdj data) (nodes data) ∅ [])
    as (v & comps & -> & (Hin & Hnd & Hiff) & _ & Hall & Hne).
  - auto.
  - split; [|split].
    + intros n H. inversion H.
    + constructor.
    + intros k. simpl. split; [intros H; inversion H|].
      intros [H _]. now apply not_elem_of_empty in H.
  - simpl in *. exists comps. split; [reflexivity|].
    split; [|split; [exact Hnd|split; [|exact Hne]]].
    + intros c n Hc Hn. apply Hin. apply elem_of_concat. eauto.
    + intros n Hn. apply Hiff. split; [now apply Hall|].
      apply elem_of_map. eauto.
Qed.

(** ** Layering of one component *)

Lemma get0_insert (m : gmap string Z) (k k' : string) (v : Z) :
  get0 (<[k := v]> m) k' = if decide (k = k') then v else get0 m k'.
Proof.
  unfold get0. destruct (decide (k = k')) as [->|Hne].
  - now rewrite lookup_insert_eq.
  - now rewrite lookup_insert_ne.
Qed.

Lemma get0_Some (m : gmap string Z) (k : string) (v : Z) :
  m !! k = Some v -> get0 m k = v.
Proof. unfold get0. now intros ->. Qed.

Lemma get0_None (m : gmap string Z) (k : string) :
  m !! k = None -> get0 m k = 0.
Proof. unfold get0. now intros ->. Qed.

(** The number of edges into [v] whose source is not in [P]. *)
Fixpoint indeg (E : list Edge) (P : list string) (v : string) : Z :=
  match E with
  | [] => 0
  | e :: r =>
      (if decide (targetNodeId e = v /\ sourceNodeId e ∉ P) then 1 else 0)
      + indeg r P v
  end.

(** The targets of the edges out of [u], in the order of the edges. *)
Definition outs (E : list Edge) (u : string) : list string :=
  map targetNodeId (List.filter (fun e => bool_decide (sourceNodeId e = u)) E).

(** The number of occurrences of [v] in [l]. *)
Fixpoint occ (l : list string) (v : string) : Z :=
  match l with
  | [] => 0
  | a :: r => (if decide (a = v) then 1 else 0) + occ r v
  end.

Lemma indeg_nonneg E P v : 0 <= indeg E P v.
Proof. induction E as [|e r IH]; simpl; [lia|]. destruct (decide _); lia. Qed.

Lemma occ_nonneg l v : 0 <= occ l v.
Proof. induction l as [|a r IH]; simpl; [lia|]. destruct (decide _); lia. Qed.

Lemma occ_perm l l' v : Permutation l l' -> occ l v = occ l' v.
Proof.
  induction 1; simpl; repeat destruct (decide _); lia.
Qed.

Lemma indeg_snoc E P u v :
  u ∉ P -> indeg E P v = indeg E (P ++ [u]) v + occ (outs E u) v.
Proof.
  intros Hu. induction E as [|e r IH]; [reflexivity|].
  unfold outs in *. cbn [indeg List.filter]. rewrite IH.
  assert (Hiff : (sourceNodeId e ∉ P ++ [u]) <->
                 (sourceNodeId e ∉ P) /\ sourceNodeId e <> u).
  { rewrite elem_of_app, list_elem_of_singleton. tauto. }
  case_bool_decide as Hsrc; cbn [map occ];
    repeat destruct (decide _); try lia; exfalso;
    intuition congruence.
Qed.

Lemma indeg_pos E P v :
  1 <= indeg E P v ->
  exists e, e ∈ E /\ targetNodeId e = v /\ sourceNodeId e ∉ P.
Proof.
  induction E as [|e r IH]; simpl; [lia|].
  destruct (decide _) as [[Ht Hs]|_].
  - intros _. exists e. split; [left|auto].
  - intros H. destruct IH as (e' & He' & H'); [lia|].
    exists e'. split; [now right|exact H'].
Qed.

Lemma elem_of_outs E u v :
  v ∈ outs E u <-> exists e, e ∈ E /\ sourceNodeId e = u /\ targetNodeId e = v.
Proof.
  unfold outs. rewrite elem_of_map. split.
  - intros (e & -> & He). apply list_elem_of_In, List.filter_In in He as [He Hs].
    apply bool_decide_eq_true in Hs. exists e.
    split; [now apply list_elem_of_In|auto].
  - intros (e & He & Hs & Ht). exists e. split; [now symmetry|].
    apply list_elem_of_In, List.filter_In. split; [now apply list_elem_of_In|].
    now apply bool_decide_eq_true.
Qed.

Section Kahn.

Variable sort_by : forall A : Type, (A -> Z) -> list A -> list A.
Hypothesis sort_by_stable : StableSort sort_by.

Variables (nodeOrder : gmap string Z) (E : list Edge) (ids : list string)
  (compAdj : gmap string (list string)).
Hypothesis E_closed :
  forall e, e ∈ E -> sourceNodeId e ∈ ids /\ targetNodeId e ∈ ids.
Hypothesis compAdj_outs : forall u, u ∈ ids -> compAdj !! u = Some (outs E u).

(** Along every edge out of a node of [P] the depth grows. *)
Definition edgesOk (P : list string) (D : gmap string Z) : Prop :=
  forall e, e ∈ E -> sourceNodeId e ∈ P ->
            get0 D (sourceNodeId e) + 1 <= get0 D (targetNodeId e).

(** The invariant of the layering loop: [P] is what was dequeued, [Q] what
    is pending. *)
Record kahnInv (P Q : list string) (D I : gmap string Z) : Prop := {
  inv_nodup : NoDup (P ++ Q);
  inv_known : forall k, k ∈ P ++ Q ->
                        k ∈ ids /\ get0 I k = 0 /\ is_Some (D !! k);
  inv_indeg : forall v, get0 I v = indeg E P v;
  inv_zero : forall v, v ∈ ids -> get0 I v = 0 -> v ∈ P ++ Q;
  inv_edges : edgesOk P D;
  inv_nonneg : forall k d, D !! k = Some d -> 0 <= d;
  inv_degkeys : forall k, k ∈ ids -> is_Some (I !! k)
}.

(** The invariant of the loop over the neighbours of [u], of depth [ud]:
    [rem] is still to come, [done] was relaxed. *)
Record relaxInv (P : list string) (u : string) (ud : Z)
    (rem done Q : list string) (D I : gmap string Z) : Prop := {
  rel_nodup : NoDup ((P ++ [u]) ++ Q);
  rel_known : forall k, k ∈ (P ++ [u]) ++ Q ->
                        k ∈ ids /\ get0 I k = 0 /\ is_Some (D !! k);
  rel_indeg : forall v, get0 I v = indeg E (P ++ [u]) v + occ rem v;
  rel_zero : forall v, v ∈ ids -> get0 I v = 0 -> v ∈ (P ++ [u]) ++ Q;
  rel_edges : edgesOk P D;
  rel_depth : get0 D u = ud;
  rel_done : forall v, v ∈ done -> ud + 1 <= get0 D v;
  rel_nonneg : forall k d, D !! k = Some d -> 0 <= d;
  rel_degkeys : forall k, k ∈ ids -> is_Some (I !! k);
  rel_rem : forall v, v ∈ rem -> v ∈ ids
}.

Lemma relax_step P u ud v rem done Q D I :
  0 <= ud ->
  relaxInv P u ud (v :: rem) done Q D I ->
  exists D' I' more,
    relax ud (D, I, Q) v = (D', I', Q ++ more) /\
    relaxInv P u ud rem (done ++ [v]) (Q ++ more) D' I'.
Proof.
  intros Hud [Hnd Hknown Hindeg Hzero Hedges Hdepth Hdone Hnonneg Hkeys Hrem].
  assert (Hv1 : 1 <= get0 I v).
  { specialize (Hindeg v). cbn [occ] in Hindeg. rewrite decide_True in Hindeg by done.
    pose proof (indeg_nonneg E (P ++ [u]) v). pose proof (occ_nonneg rem v). lia. }
  assert (Hfresh : v ∉ (P ++ [u]) ++ Q).
  { intros Hin. apply Hknown in Hin as (_ & H0 & _). lia. }
  assert (Hvu : v <> u).
  { intros ->. apply Hfresh. apply elem_of_app. left. apply elem_of_app.
    right. left. }
  assert (HvP : v ∉ P).
  { intros Hin. apply Hfresh. apply elem_of_app. left. apply elem_of_app.
    now left. }
  set (D' := <[v := Z.max (get0 D v) (ud + 1)]> D).
  set (I' := <[v := get0 I v - 1]> I).
  assert (Hmono : forall w, get0 D w <= get0 D' w).
  { intros w. unfold D'. rewrite get0_insert. destruct (decide _) as [->|]; lia. }
  exists D', I', (if get0 I v - 1 =? 0 then [v] else []).
  split.
  { unfold relax. fold D' I'. destruct (get0 I v - 1 =? 0);
      [reflexivity|now rewrite app_nil_r]. }
  constructor.
  - destruct (get0 I v - 1 =? 0); [|now rewrite app_nil_r].
    rewrite app_assoc. apply NoDup_app. split; [exact Hnd|]. split.
    + intros k Hk Hk'. apply list_elem_of_singleton in Hk' as ->. contradiction.
    + apply NoDup_singleton.
  - intros k Hk.
    assert (Hcase : k ∈ (P ++ [u]) ++ Q \/ (k = v /\ get0 I v - 1 = 0)).
    { destruct (Z.eqb_spec (get0 I v - 1) 0) as [H0|H0].
      - rewrite app_assoc in Hk. apply elem_of_app in Hk as [Hk|Hk]; [now left|].
        apply list_elem_of_singleton in Hk. right. auto.
      - rewrite app_nil_r in Hk. now left. }
    destruct Hcase as [Hold|[-> H0]].
    + assert (k <> v) by (intros ->; contradiction).
      destruct (Hknown k Hold) as (H1 & H2 & H3).
      split; [exact H1|]. unfold I', D'.
      rewrite get0_insert, decide_False by done.
      rewrite lookup_insert_ne by done. auto.
    + split; [apply Hrem; left|]. unfold I', D'.
      rewrite get0_insert, decide_True by done.
      rewrite lookup_insert_eq. split; [exact H0|eauto].
  - intros w. specialize (Hindeg w). cbn [occ] in Hindeg. unfold I'.
    rewrite get0_insert. destruct (decide (v = w)) as [->|Hne]; lia.
  - intros w Hw. unfold I'. rewrite get0_insert.
    destruct (decide (v = w)) as [->|Hne].
    + intros H0. apply Z.eqb_eq in H0. rewrite H0.
      rewrite app_assoc. apply elem_of_app. right. left.
    + intros H0. rewrite app_assoc. apply elem_of_app. left. now apply Hzero.
  - intros e He Hs. specialize (Hedges e He Hs).
    assert (sourceNodeId e <> v) by (intros Heq; apply HvP; now rewrite <- Heq).
    unfold D' at 1. rewrite get0_insert, decide_False by done.
    specialize (Hmono (targetNodeId e)). lia.
  - unfold D'. rewrite get0_insert, decide_False by done. exact Hdepth.
  - intros w Hw. apply elem_of_app in Hw as [Hw|Hw].
    + specialize (Hdone w Hw). specialize (Hmono w). lia.
    + apply list_elem_of_singleton in Hw as ->. unfold D'.
      rewrite get0_insert, decide_True by done. lia.
  - intros k d. unfold D'. destruct (decide (v = k)) as [->|Hne].
    + rewrite lookup_insert_eq. intros [= <-]. lia.
    + rewrite lookup_insert_ne by done. apply Hnonneg.
  - intros k Hk. unfold I'. destruct (decide (v = k)) as [->|Hne].
    + rewrite lookup_insert_eq. eauto.
    + rewrite lookup_insert_ne by done. now apply Hkeys.
  - intros w Hw. apply Hrem. now right.
Qed.

Lemma relax_fold P u ud rem done Q D I :
  0 <= ud ->
  relaxInv P u ud rem done Q D I ->
  exists D' I' more,
    fold_left (relax ud) rem (D, I, Q) = (D', I', Q ++ more) /\
    relaxInv P u ud [] (done ++ rem) (Q ++ more) D' I'.
Proof.
  intros Hud. revert done Q D I.
  induction rem as [|v rem IH]; intros done Q D I Hinv.
  - exists D, I, []. rewrite !app_nil_r. auto.
  - cbn [fold_left].
    destruct (relax_step _ _ _ _ _ _ _ _ _ Hud Hinv) as (D1 & I1 & m1 & -> & H1).
    destruct (IH _ _ _ _ H1) as (D2 & I2 & m2 & -> & H2).
    exists D2, I2, (m1 ++ m2). rewrite <- !app_assoc in *. auto.
Qed.

Lemma kahn_step P u rest D I :
  kahnInv P (u :: rest) D I ->
  exists D' I' more,
    fold_left (relax (get0 D u))
      (sort_by string (get0 nodeOrder) (default [] (compAdj !! u)))
      (D, I, rest) = (D', I', rest ++ more) /\
    kahnInv (P ++ [u]) (rest ++ more) D' I'.
Proof.
  intros [Hnd Hknown Hindeg Hzero Hedges Hnonneg Hkeys].
  assert (Hu : u ∈ P ++ u :: rest) by (apply elem_of_app; right; left).
  destruct (Hknown u Hu) as (Huid & _ & [d Hd]).
  assert (Hud : 0 <= get0 D u).
  { rewrite (get0_Some _ _ _ Hd). now apply (Hnonneg u). }
  assert (HuP : u ∉ P).
  { apply NoDup_app in Hnd as (_ & Hdisj & _). intros Hin.
    apply (Hdisj u Hin). left. }
  rewrite (compAdj_outs u Huid). cbn [default].
  pose proof (StableSort_perm sort_by sort_by_stable string (get0 nodeOrder)
                (outs E u)) as Hperm.
  set (R := sort_by string (get0 nodeOrder) (outs E u)) in *.
  assert (Hinv : relaxInv P u (get0 D u) R [] rest D I).
  { constructor; try done.
    - now rewrite <- app_assoc.
    - intros k Hk. apply Hknown. now rewrite <- app_assoc in Hk.
    - intros v. rewrite (occ_perm _ _ v Hperm), <- indeg_snoc by done.
      apply Hindeg.
    - intros v Hv H0. rewrite <- app_assoc. now apply Hzero.
    - intros v Hv. inversion Hv.
    - intros v Hv. rewrite Hperm in Hv.
      apply elem_of_outs in Hv as (e & He & _ & <-). now apply E_closed. }
  destruct (relax_fold _ _ _ _ _ _ _ _ Hud Hinv)
    as (D' & I' & more & Hfold &
        [Hnd' Hknown' Hindeg' Hzero' Hedges' Hdepth' Hdone' Hnonneg' Hkeys' _]).
  exists D', I', more. split; [exact Hfold|].
  constructor; try done.
  - intros v. specialize (Hindeg' v). cbn [occ] in Hindeg'. lia.
  - intros e He Hs. apply elem_of_app in Hs as [Hs|Hs]; [now apply Hedges'|].
    apply list_elem_of_singleton in Hs. rewrite Hs, Hdepth'.
    apply Hdone'. simpl. rewrite Hperm. apply elem_of_outs. eauto.
Qed.

Lemma kahnInv_length P Q D I :
  kahnInv P Q D I -> (length (P ++ Q) <= length ids)%nat.
Proof.
  intros [Hnd Hknown _ _ _ _].
  apply submseteq_length, NoDup_submseteq; [exact Hnd|].
  intros k Hk. now apply Hknown.
Qed.

(** The layering loop ends within [length ids] rounds, in a state of the
    invariant with nothing pending. *)
Lemma kahn_spec (fuel : nat) P Q D I :
  kahnInv P Q D I ->
  (length ids <= fuel + length P)%nat ->
  exists D' I' P',
    kahn sort_by fuel nodeOrder compAdj Q D I P = Some (D', P') /\
    kahnInv P' [] D' I'.
Proof.
  revert P Q D I. induction fuel as [|fuel IH]; intros P Q D I Hinv Hfuel.
  - destruct Q as [|u rest].
    + exists D, I, P. simpl. auto.
    + exfalso. apply kahnInv_length in Hinv.
      rewrite length_app in Hinv. simpl in *. lia.
  - destruct Q as [|u rest].
    + exists D, I, P. simpl. auto.
    + cbn [kahn].
      destruct (kahn_step _ _ _ _ _ Hinv) as (D1 & I1 & more & -> & Hinv1).
      destruct (IH _ _ _ _ Hinv1) as (D2 & I2 & P2 & -> & Hinv2).
      { rewrite length_app. simpl. lia. }
      exists D2, I2, P2. auto.
Qed.

End Kahn.

(** *** The maps built before the loop *)

Lemma initDegrees_fold (c : list Node) (I : gmap string Z)
    (A : gmap string (list string)) :
  let r := fold_left
             (fun '(inDegree, compAdj) node =>
                (<[id node := 0]> inDegree, <[id node := []]> compAdj))
             c (I, A) in
  (forall k, fst r !! k = if decide (k ∈ map id c) then Some 0 else I !! k) /\
  (forall k, snd r !! k = if decide (k ∈ map id c) then Some [] else A !! k).
Proof.
  revert I A. induction c as [|n r IH]; intros I A; cbn [fold_left map].
  - split; intros k; rewrite decide_False; auto; intros H; inversion H.
  - destruct (IH (<[id n := 0]> I) (<[id n := []]> A)) as [H1 H2].
    split; intros k; [rewrite H1|rewrite H2];
      destruct (decide (k ∈ map id r)) as [Hk|Hk].
    + rewrite decide_True; [reflexivity|now right].
    + destruct (decide (id n = k)) as [<-|Hne].
      * rewrite lookup_insert_eq, decide_True; [reflexivity|left].
      * rewrite lookup_insert_ne, decide_False; [reflexivity| |done].
        intros Hin. apply elem_of_cons in Hin as [Hin|Hin]; congruence.
    + rewrite decide_True; [reflexivity|now right].
    + destruct (decide (id n = k)) as [<-|Hne].
      * rewrite lookup_insert_eq, decide_True; [reflexivity|left].
      * rewrite lookup_insert_ne, decide_False; [reflexivity| |done].
        intros Hin. apply elem_of_cons in Hin as [Hin|Hin]; congruence.
Qed.

Lemma pushTo_lookup (k v u : string) (A : gmap string (list string)) :
  pushTo k v A !! u =
  if decide (k = u) then (fun l => l ++ [v]) <$> A !! u else A !! u.
Proof.
  unfold pushTo. destruct (decide (k = u)) as [->|Hne].
  - destruct (A !! u) eqn:E; [now rewrite lookup_insert_eq|now rewrite E].
  - destruct (A !! k); [now rewrite lookup_insert_ne|reflexivity].
Qed.

Lemma countEdges_fold (E : list Edge) (I : gmap string Z)
    (A : gmap string (list string)) :
  let r := countEdges E (I, A) in
  (forall v, get0 (fst r) v = get0 I v + indeg E [] v) /\
  (forall k, is_Some (I !! k) -> is_Some (fst r !! k)) /\
  (forall u, snd r !! u = (fun l => l ++ outs E u) <$> A !! u).
Proof.
  unfold countEdges. revert I A.
  induction E as [|e r IH]; intros I A; cbn [fold_left].
  - split; [intros; simpl; lia|]. split; [auto|].
    intros u. unfold outs. simpl. destruct (A !! u); simpl; [|reflexivity].
    now rewrite app_nil_r.
  - destruct (IH (<[targetNodeId e := get0 I (targetNodeId e) + 1]> I)
                 (pushTo (sourceNodeId e) (targetNodeId e) A)) as (H1 & H2 & H3).
    split; [|split].
    + intros v. rewrite H1, get0_insert. cbn [indeg].
      destruct (decide (targetNodeId e = v)) as [->|Hne].
      * rewrite decide_True; [lia|]. split; [reflexivity|]. intros H; inversion H.
      * rewrite decide_False; [lia|]. tauto.
    + intros k Hk. apply H2. destruct (decide (targetNodeId e = k)) as [->|Hne].
      * rewrite lookup_insert_eq. eauto.
      * now rewrite lookup_insert_ne.
    + intros u. rewrite H3, pushTo_lookup. unfold outs. cbn [List.filter].
      destruct (decide (sourceNodeId e = u)) as [Hu|Hu].
      * rewrite bool_decide_eq_true_2 by done. cbn [map].
        destruct (A !! u); simpl; [|reflexivity]. now rewrite <- app_assoc.
      * now rewrite bool_decide_eq_false_2.
Qed.

Definition zeroDegree (I : gmap string Z) (c : list Node) : list string :=
  map id (List.filter (fun n => get0 I (id n) =? 0) c).

Lemma seedQueue_fold (I : gmap string Z) (c : list Node) (q : list string)
    (D : gmap string Z) :
  let r := fold_left
             (fun '(queue, depths) node =>
                if get0 I (id node) =? 0
                then (queue ++ [id node], <[id node := 0]> depths)
                else (queue, depths))
             c (q, D) in
  fst r = q ++ zeroDegree I c /\
  (forall k, snd r !! k =
             if decide (k ∈ zeroDegree I c) then Some 0 else D !! k).
Proof.
  unfold zeroDegree. revert q D.
  induction c as [|n r IH]; intros q D; cbn [fold_left List.filter map].
  - rewrite app_nil_r. split; [reflexivity|]. intros k.
    rewrite decide_False; [reflexivity|]. intros H; inversion H.
  - destruct (get0 I (id n) =? 0).
    + destruct (IH (q ++ [id n]) (<[id n := 0]> D)) as [H1 H2].
      split; [rewrite H1; cbn [map]; now rewrite <- app_assoc|].
      intros k. rewrite H2. cbn [map].
      destruct (decide (k ∈ map id (List.filter _ r))) as [Hk|Hk].
      * rewrite decide_True; [reflexivity|now right].
      * destruct (decide (id n = k)) as [<-|Hne].
        -- rewrite lookup_insert_eq, decide_True; [reflexivity|left].
        -- rewrite lookup_insert_ne, decide_False; [reflexivity| |done].
           intros Hin. apply elem_of_cons in Hin as [Hin|Hin]; congruence.
    + apply IH.
Qed.

Lemma NoDup_map_filter {A B : Type} (g : A -> B) (f : A -> bool) (l : list A) :
  NoDup (map g l) -> NoDup (map g (List.filter f l)).
Proof.
  induction l as [|a r IH]; simpl; [auto|].
  intros Hnd. apply NoDup_cons in Hnd as [Ha Hr].
  destruct (f a); simpl; [|now apply IH].
  apply NoDup_cons. split; [|now apply IH].
  intros Hin. apply Ha. apply elem_of_map in Hin as (a' & -> & Hin).
  apply list_elem_of_In, List.filter_In in Hin as [Hin _].
  apply elem_of_map. exists a'. split; [reflexivity|now apply list_elem_of_In].
Qed.

(** *** The last pass over the component *)

Lemma finish_fold (off : Z) (c : list Node) (D fd : gmap string Z) (m0 : Z) :
  let r := fold_left (finish off) c (D, fd, m0) in
  (forall k, fst (fst r) !! k =
             if decide (k ∈ map id c) then Some (get0 D k) else D !! k) /\
  (forall k, snd (fst r) !! k =
             if decide (k ∈ map id c) then Some (get0 D k + off) else fd !! k) /\
  m0 <= snd r /\
  (forall k, k ∈ map id c -> get0 D k <= snd r) /\
  (snd r = m0 \/ exists k, k ∈ map id c /\ snd r = get0 D k).
Proof.
  revert D fd m0. induction c as [|n r IH]; intros D fd m0; cbn [fold_left map].
  - split; [|split; [|split; [|split]]]; cbn [fst snd].
    + intros k. rewrite decide_False; [reflexivity|]. intros H; inversion H.
    + intros k. rewrite decide_False; [reflexivity|]. intros H; inversion H.
    + lia.
    + intros k H. inversion H.
    + now left.
  - set (D1 := match D !! id n with
               | Some _ => D
               | None => <[id n := 0]> D
               end).
    assert (Hget : forall k, get0 D1 k = get0 D k).
    { intros k. unfold D1. destruct (D !! id n) eqn:E; [reflexivity|].
      rewrite get0_insert. destruct (decide (id n = k)) as [<-|]; [|reflexivity].
      now rewrite (get0_None _ _ E). }
    assert (Hlook : forall k, D1 !! k =
                      if decide (id n = k) then Some (get0 D k) else D !! k).
    { intros k. unfold D1. destruct (decide (id n = k)) as [<-|Hne].
      - destruct (D !! id n) eqn:E.
        + now rewrite E, (get0_Some _ _ _ E).
        + now rewrite lookup_insert_eq, (get0_None _ _ E).
      - destruct (D !! id n); [reflexivity|now rewrite lookup_insert_ne]. }
    assert (Hstep : finish off (D, fd, m0) n =
                    (D1, <[id n := get0 D (id n) + off]> fd,
                     if m0 <? get0 D (id n) then get0 D (id n) else m0)).
    { unfold finish. fold D1. now rewrite Hget. }
    rewrite Hstep. clear Hstep.
    destruct (IH D1 (<[id n := get0 D (id n) + off]> fd)
                (if m0 <? get0 D (id n) then get0 D (id n) else m0))
      as (H1 & H2 & H3 & H4 & H5).
    assert (Hmax : m0 <= (if m0 <? get0 D (id n) then get0 D (id n) else m0) /\
                   get0 D (id n) <= (if m0 <? get0 D (id n) then get0 D (id n) else m0)).
    { destruct (Z.ltb_spec m0 (get0 D (id n))); lia. }
    split; [|split; [|split; [|split]]].
    + intros k. rewrite H1, Hlook, Hget.
      destruct (decide (k ∈ map id r)) as [Hk|Hk].
      * rewrite decide_True; [reflexivity|now right].
      * destruct (decide (id n = k)) as [<-|Hne].
        -- rewrite decide_True; [reflexivity|left].
        -- rewrite decide_False; [reflexivity|].
           intros Hin. apply elem_of_cons in Hin as [Hin|Hin]; congruence.
    + intros k. rewrite H2, Hget.
      destruct (decide (k ∈ map id r)) as [Hk|Hk].
      * rewrite decide_True; [reflexivity|now right].
      * destruct (decide (id n = k)) as [<-|Hne].
        -- rewrite lookup_insert_eq, decide_True; [reflexivity|left].
        -- rewrite lookup_insert_ne, decide_False; [reflexivity| |done].
           intros Hin. apply elem_of_cons in Hin as [Hin|Hin]; congruence.
    + lia.
    + intros k Hk. apply elem_of_cons in Hk as [->|Hk]; [lia|].
      rewrite <- (Hget k). now apply H4.
    + destruct H5 as [H5|(k & Hk & H5)].
      * rewrite H5. destruct (Z.ltb_spec m0 (get0 D (id n))); [|now left].
        right. exists (id n). split; [left|reflexivity].
      * right. exists k. split; [now right|]. rewrite H5. apply Hget.
Qed.

(** *** One round of the loop over the components *)

(** What a round guarantees of its locals. *)
Record layerOk (L : Layer) : Prop := {
  ok_dequeued_nodup : NoDup (layer_dequeued L);
  ok_dequeued_known :
    forall k, k ∈ layer_dequeued L ->
              k ∈ map id (layer_nodes L) /\ is_Some (layer_queueDepths L !! k);
  ok_edges : edgesOk (layer_edges L) (layer_dequeued L) (layer_depths L);
  ok_fallback :
    forall k, k ∈ map id (layer_nodes L) ->
              layer_depths L !! k = Some (get0 (layer_queueDepths L) k);
  ok_nonneg : forall k d, layer_queueDepths L !! k = Some d -> 0 <= d;
  ok_max_bound :
    forall k, k ∈ map id (layer_nodes L) ->
              get0 (layer_depths L) k <= layer_maxDepth L;
  ok_max_nonneg : 0 <= layer_maxDepth L;
  ok_max_attained :
    layer_maxDepth L = 0 \/
    exists k, k ∈ map id (layer_nodes L) /\
              layer_maxDepth L = get0 (layer_depths L) k;
  ok_complete :
    forall v, v ∈ map id (layer_nodes L) -> v ∉ layer_dequeued L ->
              exists e, e ∈ layer_edges L /\ targetNodeId e = v /\
                        sourceNodeId e ∉ layer_dequeued L
}.

Lemma componentEdgesOf_closed (data : LineageData) (c : list Node) (e : Edge) :
  e ∈ componentEdgesOf data c <->
  e ∈ edges data /\ sourceNodeId e ∈ map id c /\ targetNodeId e ∈ map id c.
Proof.
  unfold componentEdgesOf. rewrite list_elem_of_In, List.filter_In.
  rewrite andb_true_iff, !bool_decide_eq_true, !elem_of_list_to_set.
  now rewrite <- (list_elem_of_In (edges data)).
Qed.

Lemma get0_nonneg (D : gmap string Z) (k : string) :
  (forall k d, D !! k = Some d -> 0 <= d) -> 0 <= get0 D k.
Proof.
  intros H. unfold get0. destruct (D !! k) as [d|] eqn:E; simpl; [|lia].
  now apply (H k).
Qed.

Section Rounds.

Variable sort_by : forall A : Type, (A -> Z) -> list A -> list A.
Hypothesis sort_by_stable : StableSort sort_by.

Variables (data : LineageData) (nodeOrder : gmap string Z).

Lemma layerComponent_spec (c : list Node) (fd : gmap string Z) (off : Z) :
  NoDup (map id c) ->
  exists fd' L,
    layerComponent sort_by data nodeOrder c fd off
    = Some (fd', off + (layer_maxDepth L + 2), L) /\
    layer_nodes L = c /\
    layer_edges L = componentEdgesOf data c /\
    layer_offset L = off /\
    layerOk L /\
    (forall k, fd' !! k =
               if decide (k ∈ map id c)
               then Some (get0 (layer_depths L) k + off) else fd !! k).
Proof.
  intros Hnd. unfold layerComponent.
  set (E := componentEdgesOf data c).
  pose proof (initDegrees_fold c ∅ ∅) as Hinit. cbv zeta in Hinit.
  fold (initDegrees c) in Hinit.
  destruct (initDegrees c) as [I0 A0]. cbn [fst snd] in Hinit.
  destruct Hinit as [HI0 HA0].
  pose proof (countEdges_fold E I0 A0) as Hcount. cbv zeta in Hcount.
  destruct (countEdges E (I0, A0)) as [I A]. cbn [fst snd] in Hcount.
  destruct Hcount as (HI & HIkeys & HA).
  pose proof (seedQueue_fold I c [] ∅) as Hseed. cbv zeta in Hseed.
  fold (seedQueue I c) in Hseed.
  destruct (seedQueue I c) as [q D0]. cbn [fst snd] in Hseed.
  destruct Hseed as [Hq HD0]. simpl in Hq. subst q.
  pose proof (StableSort_perm sort_by sort_by_stable string (get0 nodeOrder)
                (zeroDegree I c)) as Hperm.
  set (Q := sort_by string (get0 nodeOrder) (zeroDegree I c)) in *.
  assert (HzIn : forall k, k ∈ zeroDegree I c -> k ∈ map id c /\ get0 I k = 0).
  { intros k Hk. unfold zeroDegree in Hk. apply elem_of_map in Hk as (n & -> & Hn).
    apply list_elem_of_In, List.filter_In in Hn as [Hn H0].
    split; [apply elem_of_map; exists n; split; [reflexivity|now apply list_elem_of_In]|].
    now apply Z.eqb_eq. }
  assert (Hclosed : forall e, e ∈ E ->
                      sourceNodeId e ∈ map id c /\ targetNodeId e ∈ map id c).
  { intros e He. now apply componentEdgesOf_closed in He. }
  assert (Hadj : forall u, u ∈ map id c -> A !! u = Some (outs E u)).
  { intros u Hu. rewrite HA, HA0, decide_True by done. reflexivity. }
  assert (Hinv : kahnInv E (map id c) [] Q D0 I).
  { constructor.
    - simpl. rewrite Hperm. unfold zeroDegree. now apply NoDup_map_filter.
    - intros k Hk. simpl in Hk. rewrite Hperm in Hk.
      destruct (HzIn k Hk) as [H1 H2]. split; [exact H1|]. split; [exact H2|].
      rewrite HD0, decide_True by done. eauto.
    - intros v. rewrite HI. unfold get0. rewrite HI0.
      destruct (decide _); [|rewrite lookup_empty]; simpl; lia.
    - intros v Hv H0. simpl. rewrite Hperm. unfold zeroDegree.
      apply elem_of_map in Hv as (n & -> & Hn). apply elem_of_map.
      exists n. split; [reflexivity|].
      apply list_elem_of_In, List.filter_In.
      split; [now apply list_elem_of_In|now apply Z.eqb_eq].
    - intros e _ Hs. inversion Hs.
    - intros k d. rewrite HD0, lookup_empty.
      destruct (decide _); [intros [= <-]; lia|discriminate].
    - intros k Hk. apply HIkeys. rewrite HI0, decide_True by done. eauto. }
  destruct (kahn_spec sort_by sort_by_stable nodeOrder E (map id c) A
              Hclosed Hadj (length c) [] Q D0 I Hinv)
    as (D & I' & P & -> & [Hnd' Hknown' Hindeg' Hzero' Hedges' Hnonneg' _]).
  { rewrite length_map. simpl. lia. }
  rewrite app_nil_r in Hnd', Hknown', Hzero'.
  pose proof (finish_fold off c D fd 0) as Hfin. cbv zeta in Hfin.
  destruct (fold_left (finish off) c (D, fd, 0)) as [[D' fd'] mx].
  cbn [fst snd] in Hfin. destruct Hfin as (HD' & Hfd' & Hmx0 & Hmx1 & Hmx2).
  assert (Hget : forall k, get0 D' k = get0 D k).
  { intros k. unfold get0 at 1. rewrite HD'. destruct (decide _); reflexivity. }
  exists fd', (mkLayer c E P D D' off mx). cbn [layer_maxDepth].
  split; [reflexivity|]. split; [reflexivity|]. split; [reflexivity|].
  split; [reflexivity|]. split.
  - constructor; cbn [layer_nodes layer_edges layer_dequeued layer_queueDepths
                       layer_depths layer_offset layer_maxDepth].
    + exact Hnd'.
    + intros k Hk. destruct (Hknown' k Hk) as (H1 & _ & H3). auto.
    + intros e He Hs. rewrite !Hget. now apply Hedges'.
    + intros k Hk. rewrite HD'. now rewrite decide_True.
    + exact Hnonneg'.
    + intros k Hk. rewrite Hget. now apply Hmx1.
    + exact Hmx0.
    + destruct Hmx2 as [->|(k & Hk & ->)]; [now left|].
      right. exists k. split; [exact Hk|]. now rewrite Hget.
    + intros v Hv HvP. apply indeg_pos.
      pose proof (indeg_nonneg E P v). specialize (Hindeg' v).
      destruct (decide (get0 I' v = 0)) as [H0|H0]; [|lia].
      exfalso. apply HvP. now apply Hzero'.
  - intros k. rewrite Hfd'. cbn [layer_depths]. now rewrite Hget.
Qed.

Lemma layerComponents_spec (comps : list (list Node)) (fd : gmap string Z)
    (off : Z) (layers : list Layer) :
  NoDup (map id (concat comps)) ->
  exists fd' new,
    layerComponents sort_by data nodeOrder comps fd off layers
    = Some (fd', layers ++ new) /\
    map layer_nodes new = comps /\
    Forall layerOk new /\
    (forall L, L ∈ new -> layer_edges L = componentEdgesOf data (layer_nodes L)) /\
    offsetsChain off new /\
    (forall k, k ∉ map id (concat comps) -> fd' !! k = fd !! k) /\
    (forall L k, L ∈ new -> k ∈ map id (layer_nodes L) ->
                 fd' !! k = Some (get0 (layer_depths L) k + layer_offset L)).
Proof.
  revert fd off layers.
  induction comps as [|c r IH]; intros fd off layers Hnd.
  - exists fd, []. simpl. rewrite app_nil_r.
    split; [reflexivity|]. split; [reflexivity|]. split; [constructor|].
    split; [intros L H; inversion H|]. split; [exact I|].
    split; [auto|]. intros L k H. inversion H.
  - cbn [concat] in Hnd. rewrite map_app in Hnd.
    apply NoDup_app in Hnd as (Hc & Hdisj & Hr).
    cbn [layerComponents].
    destruct (layerComponent_spec c fd off Hc)
      as (fd1 & L & -> & Hnodes & Hedges & Hoff & Hok & Hfd1).
    destruct (IH fd1 (off + (layer_maxDepth L + 2)) (layers ++ [L]) Hr)
      as (fd' & new & -> & Hmap & Hall & Hedges' & Hchain & Hout & Hin).
    exists fd', (L :: new). rewrite <- app_assoc. simpl.
    split; [reflexivity|]. split; [now rewrite Hnodes, Hmap|].
    split; [now constructor|]. split.
    { intros L' HL'. apply elem_of_cons in HL' as [->|HL'];
        [now rewrite Hnodes|now apply Hedges']. }
    split; [now split|]. split.
    + intros k Hk. rewrite map_app, elem_of_app in Hk.
      rewrite Hout by tauto. rewrite Hfd1, decide_False by tauto. reflexivity.
    + intros L' k HL' Hk. apply elem_of_cons in HL' as [->|HL'].
      * rewrite Hnodes in Hk. rewrite Hout by (now apply Hdisj).
        rewrite Hfd1, decide_True by done. now rewrite Hoff.
      * now apply Hin.
Qed.

End Rounds.

(** *** Order of the nodes and of the components *)

Lemma setOrder_notin (ns : list Node) (s : Z) (m : gmap string Z) (k : string) :
  k ∉ map id ns -> setOrder ns s m !! k = m !! k.
Proof.
  revert s m. induction ns as [|a r IH]; intros s m Hk; [reflexivity|].
  simpl in *. rewrite IH.
  - apply lookup_insert_ne. intros Heq. apply Hk. rewrite Heq. left.
  - intros Hin. apply Hk. now right.
Qed.

(** With unique ids, [nodeOrder] maps an id to the index of its node. *)
Lemma setOrder_lookup (ns : list Node) (s : Z) (m : gmap string Z)
    (i : nat) (n : Node) :
  NoDup (map id ns) -> ns !! i = Some n ->
  setOrder ns s m !! id n = Some (s + Z.of_nat i).
Proof.
  revert s m i. induction ns as [|a r IH]; intros s m i Hnd Hi; [discriminate|].
  simpl in Hnd. apply NoDup_cons in Hnd as [Ha Hr]. destruct i as [|i].
  - injection Hi as ->. simpl. rewrite setOrder_notin by done.
    rewrite lookup_insert_eq. f_equal. lia.
  - simpl in *. rewrite (IH _ _ i) by done. f_equal. lia.
Qed.

Lemma setOrder_known (ns : list Node) (s : Z) (m : gmap string Z) (k : string) :
  k ∈ map id ns -> is_Some (setOrder ns s m !! k).
Proof.
  revert s m. induction ns as [|a r IH]; intros s m Hk; [inversion Hk|].
  simpl in *. destruct (decide (k ∈ map id r)) as [Hin|Hin]; [now apply IH|].
  rewrite setOrder_notin by done.
  apply elem_of_cons in Hk as [->|Hk]; [|contradiction].
  rewrite lookup_insert_eq. eauto.
Qed.

Lemma fold_min_spec (l : list Z) (a : Z) :
  fold_left Z.min l a <= a /\
  (forall b, b ∈ l -> fold_left Z.min l a <= b) /\
  (fold_left Z.min l a = a \/ fold_left Z.min l a ∈ l).
Proof.
  revert a. induction l as [|b r IH]; intros a; simpl.
  - split; [lia|]. split; [intros b H; inversion H|now left].
  - destruct (IH (Z.min a b)) as (H1 & H2 & H3).
    split; [lia|]. split.
    + intros c Hc. apply elem_of_cons in Hc as [->|Hc]; [lia|now apply H2].
    + destruct H3 as [H3|H3]; [|right; now right].
      rewrite H3. destruct (Z.min_spec a b) as [[_ ->]|[_ ->]];
        [now left|right; left].
Qed.


Lemma minOrder_attained (nodeOrder : gmap string Z) (c : list Node) :
  c <> [] -> exists n, n ∈ c /\ minOrder nodeOrder c = get0 nodeOrder (id n).
Proof.
  destruct c as [|a r]; [congruence|]. intros _. unfold minOrder.
  destruct (fold_min_spec (map (fun node => get0 nodeOrder (id node)) r)
              (get0 nodeOrder (id a))) as (_ & _ & [H|H]).
  - exists a. split; [left|exact H].
  - apply elem_of_map in H as (n & H & Hn). exists n. split; [now right|exact H].
Qed.

Lemma StronglySorted_map_inv {A B : Type} (f : A -> B) (R : B -> B -> Prop)
    (l : list A) :
  StronglySorted R (map f l) -> StronglySorted (fun a b => R (f a) (f b)) l.
Proof.
  induction l as [|a r IH]; simpl; intros H; [constructor|].
  apply StronglySorted_inv in H as [Hr Ha]. constructor; [now apply IH|].
  rewrite Forall_forall in Ha. rewrite Forall_forall. intros b Hb. apply Ha.
  apply elem_of_map. eauto.
Qed.


Lemma offsetsChain_ge (off : Z) (Ls : list Layer) (L : Layer) :
  offsetsChain off Ls -> Forall layerOk Ls -> L ∈ Ls -> off <= layer_offset L.
Proof.
  revert off. induction Ls as [|L' r IH]; intros off Hc Hok HL; [inversion HL|].
  destruct Hc as [Hoff Hc]. apply Forall_cons in Hok as [Hok Hr].
  apply elem_of_cons in HL as [->|HL]; [lia|].
  specialize (IH _ Hc Hr HL). pose proof (ok_max_nonneg _ Hok). lia.
Qed.


(** *** The whole depth assignment *)

(** What [depthLayers] guarantees of the depths and of the rounds. *)
Record depthsOk (data : LineageData) (fd : gmap string Z)
    (layers : list Layer) : Prop := {
  dl_layers : Forall layerOk layers;
  dl_edges : forall L, L ∈ layers ->
                       layer_edges L = componentEdgesOf data (layer_nodes L);
  dl_chain : offsetsChain 0 layers;
  dl_final : forall L k, L ∈ layers -> k ∈ map id (layer_nodes L) ->
               fd !! k = Some (get0 (layer_depths L) k + layer_offset L);
  dl_cover : forall n, n ∈ nodes data ->
               exists L, L ∈ layers /\ id n ∈ map id (layer_nodes L);
  dl_members : forall L n, L ∈ layers -> n ∈ layer_nodes L -> n ∈ nodes data;
  dl_sorted :
    StronglySorted
      (fun a b => minOrder (nodeOrderOf data) (layer_nodes a)
                  <= minOrder (nodeOrderOf data) (layer_nodes b)) layers
}.

Section Depths.

Variable sort_by : forall A : Type, (A -> Z) -> list A -> list A.
Hypothesis sort_by_stable : StableSort sort_by.

(** The depth assignment ends for every graph. *)
Lemma depthLayers_sound (data : LineageData) :
  exists fd layers,
    depthLayers sort_by data = Some (fd, layers) /\ depthsOk data fd layers.
Proof.
  unfold depthLayers. destruct (nodes data) as [|n0 r0] eqn:Hns.
  - exists ∅, []. split; [reflexivity|]. constructor.
    + constructor.
    + intros L H. inversion H.
    + exact I.
    + intros L k H. inversion H.
    + rewrite Hns. intros n H. inversion H.
    + intros L n H. inversion H.
    + constructor.
  - rewrite <- Hns.
    destruct (findComponents_spec data)
      as (comps & -> & Hmem & Hnd & Hcover & _).
    pose proof (StableSort_perm sort_by sort_by_stable (list Node)
                  (minOrder (nodeOrderOf data)) comps) as Hperm.
    pose proof (StableSort_sorted sort_by sort_by_stable (list Node)
                  (minOrder (nodeOrderOf data)) comps) as Hsorted.
    set (sorted := sort_by (list Node) (minOrder (nodeOrderOf data)) comps) in *.
    assert (Hnd' : NoDup (map id (concat sorted))).
    { assert (Hp : Permutation (map id (concat sorted)) (map id (concat comps)))
        by now apply Permutation_map, Permutation_concat.
      now rewrite Hp. }
    destruct (layerComponents_spec sort_by sort_by_stable data (nodeOrderOf data)
                sorted ∅ 0 [] Hnd')
      as (fd & layers & -> & Hmap & Hok & Hedges & Hchain & _ & Hfinal).
    exists fd, layers. split; [reflexivity|].
    assert (Hcomp : forall L, L ∈ layers -> layer_nodes L ∈ comps).
    { intros L HL. rewrite <- Hperm, <- Hmap. apply elem_of_map. eauto. }
    constructor; try done.
    + intros n Hn. apply Hcover in Hn.
      apply elem_of_map in Hn as (n' & Heq & Hn').
      apply elem_of_concat in Hn' as (c & Hn' & Hc).
      rewrite <- Hperm, <- Hmap in Hc.
      apply elem_of_map in Hc as (L & -> & HL).
      exists L. split; [exact HL|]. apply elem_of_map. eauto.
    + intros L n HL Hn.
      apply (Hmem (layer_nodes L)); [now apply Hcomp|exact Hn].
    + apply (StronglySorted_map_inv layer_nodes
               (fun a b => minOrder (nodeOrderOf data) a
                           <= minOrder (nodeOrderOf data) b)).
      now rewrite Hmap.
Qed.

End Depths.

(** ** Depth monotonicity, totality, component order and padding *)

Lemma walk_leaves (E : list Edge) (u w : string) :
  walk E u w -> exists e, e ∈ E /\ sourceNodeId e = u.
Proof. intros [e He|e w' He _]; eauto. Qed.

(** Without a directed cycle the layering loop dequeues every node of the
    component. *)
Lemma acyclic_all_dequeued (L : Layer) :
  layerOk L ->
  (forall e, e ∈ layer_edges L -> sourceNodeId e ∈ map id (layer_nodes L)) ->
  acyclicEdges (layer_edges L) ->
  forall v, v ∈ map id (layer_nodes L) -> v ∈ layer_dequeued L.
Proof.
  intros Hok Hclosed (rank & Hrank) v.
  remember (rank v) as n eqn:Hn. revert v Hn.
  induction n as [n IH] using lt_wf_ind. intros v -> Hv.
  destruct (decide (v ∈ layer_dequeued L)) as [Hin|Hout]; [exact Hin|].
  destruct (ok_complete L Hok v Hv Hout) as (e & He & Ht & Hs).
  exfalso. apply Hs.
  apply (IH (rank (sourceNodeId e))); [|reflexivity|now apply Hclosed].
  rewrite <- Ht. now apply Hrank.
Qed.

Section LayoutClaims.

Variable sort_by : forall A : Type, (A -> Z) -> list A -> list A.
Hypothesis sort_by_stable : StableSort sort_by.

(** C1, as amended. For an edge [u -> v] of the graph with both ends in
    one component, if [u] was dequeued by the layering loop of that
    component, as every node is when the component has no directed cycle,
    then [depth(v) >= depth(u) + 1] in the final depths. *)
Theorem depth_monotone_from_dequeued (data : LineageData)
    (depths : gmap string Z) (layers : list Layer) (L : Layer) (e : Edge) :
  depthLayers sort_by data = Some (depths, layers) ->
  L ∈ layers -> e ∈ edges data ->
  sourceNodeId e ∈ map id (layer_nodes L) ->
  targetNodeId e ∈ map id (layer_nodes L) ->
  sourceNodeId e ∈ layer_dequeued L \/ acyclicEdges (layer_edges L) ->
  exists du dv : Z,
    depths !! sourceNodeId e = Some du /\
    depths !! targetNodeId e = Some dv /\
    du + 1 <= dv.
Proof.
  intros Heq HL He Hs Ht Hdeq.
  destruct (depthLayers_sound sort_by sort_by_stable data)
    as (fd & ls & Heq' & Hok).
  rewrite Heq in Heq'. injection Heq' as <- <-.
  destruct Hok as [Hlayers Hedges _ Hfinal _ _ _].
  rewrite Forall_forall in Hlayers. specialize (Hlayers L HL).
  exists (get0 (layer_depths L) (sourceNodeId e) + layer_offset L),
         (get0 (layer_depths L) (targetNodeId e) + layer_offset L).
  split; [now apply Hfinal|]. split; [now apply Hfinal|].
  assert (He' : e ∈ layer_edges L).
  { rewrite (Hedges L HL). apply componentEdgesOf_closed. auto. }
  assert (Hdeq' : sourceNodeId e ∈ layer_dequeued L).
  { destruct Hdeq as [Hdeq|Hacyclic]; [exact Hdeq|].
    apply acyclic_all_dequeued; try done.
    intros e0 He0. rewrite (Hedges L HL) in He0.
    now apply componentEdgesOf_closed in He0. }
  pose proof (ok_edges L Hlayers e He' Hdeq'). lia.
Qed.

(** C2. The depth assignment ends for every graph, cyclic or not, and
    gives every node one depth, which is not negative; a node of a
    component that has no depth when the queue of its component has drained
    gets depth 0 in the component, so the offset of the component in the
    end; in the cycle [A -> B -> A] both nodes get depth 0. *)
Theorem nodeDepths_total (data : LineageData) :
  (exists depths layers,
     depthLayers sort_by data = Some (depths, layers) /\
     nodeDepths sort_by data = Some depths /\
     (forall n, n ∈ nodes data ->
                exists d, depths !! id n = Some d /\ 0 <= d) /\
     (forall L n, L ∈ layers -> n ∈ layer_nodes L ->
                  layer_queueDepths L !! id n = None ->
                  layer_depths L !! id n = Some 0 /\
                  depths !! id n = Some (layer_offset L))) /\
  (exists depths,
     nodeDepths sort_by cycleAB = Some depths /\
     depths !! "A" = Some 0 /\ depths !! "B" = Some 0).
Proof.
  split.
  - destruct (depthLayers_sound sort_by sort_by_stable data)
      as (fd & ls & Heq & [Hlayers Hedges Hchain Hfinal Hcover _ _]).
    exists fd, ls. split; [exact Heq|].
    split; [unfold nodeDepths; now rewrite Heq|].
    rewrite Forall_forall in Hlayers. split.
    + intros n Hn. destruct (Hcover n Hn) as (L & HL & Hid).
      exists (get0 (layer_depths L) (id n) + layer_offset L).
      split; [now apply Hfinal|].
      pose proof (Hlayers L HL) as Hok.
      assert (0 <= layer_offset L).
      { apply (offsetsChain_ge 0 ls); [exact Hchain| |exact HL].
        now apply Forall_forall. }
      pose proof (ok_fallback L Hok (id n) Hid) as Hfb.
      rewrite (get0_Some _ _ _ Hfb).
      pose proof (get0_nonneg (layer_queueDepths L) (id n) (ok_nonneg L Hok)).
      lia.
    + intros L n HL Hn Hnone.
      assert (Hid : id n ∈ map id (layer_nodes L))
        by (apply elem_of_map; eauto).
      pose proof (ok_fallback L (Hlayers L HL) (id n) Hid) as Hfb.
      rewrite (get0_None _ _ Hnone) in Hfb. split; [exact Hfb|].
      rewrite (Hfinal L (id n) HL Hid), (get0_Some _ _ _ Hfb). reflexivity.
  - rewrite (StableSort_ext sort_by isort_by sort_by_stable isort_by_stable).
    exists (depthsOf cycleAB). split; [|split]; vm_compute; reflexivity.
Qed.


(** C4. The layout computation returns the nodes of the graph, and every
    node of the result has a position whose box keeps the padding of 50 on
    the left and on top: [x - NODE_WIDTH / 2 >= padding] and
    [y - nodeHeight / 2 >= padding], for [nodeHeight] the header and the
    rows of its columns. *)
Theorem layout_respects_padding (data : LineageData) (height : Q) :
  padding = 50%Q /\
  exists ns : list D3Node,
    computeLayout sort_by data height = Some ns /\
    map base ns = nodes data /\
    forall n, n ∈ ns ->
      exists vx vy : Q,
        x n = Some vx /\ y n = Some vy /\
        (padding <= vx - NODE_WIDTH / 2)%Q /\
        (padding
         <= vy - (HEADER_HEIGHT
                  + inject_Z (Z.of_nat (length (columns (base n))))
                    * COLUMN_HEIGHT) / 2)%Q.
Proof.
  split; [reflexivity|].
  unfold computeLayout. destruct (nodes data) as [|a r] eqn:Hns.
  - exists []. split; [reflexivity|]. split; [reflexivity|].
    intros n Hn. inversion Hn.
  - destruct (depthLayers_sound sort_by sort_by_stable data)
      as (fd & ls & Heq & _).
    unfold nodeDepths. rewrite Heq. cbn [fmap option_fmap option_map fst].
    exists (placeNodes sort_by data height fd). split; [reflexivity|].
    split; [now rewrite placeNodes_base|].
    intros n Hn. unfold placeNodes in Hn.
    now apply normalize_padded in Hn.
Qed.

End LayoutClaims.

(** ** Determinism *)

(** The layout has one source of freedom: [sort], where two elements
    compare equal. The depths do not depend on it at all, and the
    coordinates do not when the sort is stable or the ids are unique. *)

Section AnySort.
Context {A : Type} (key : A -> Z).

Lemma insert_after_perm (a : A) (l : list A) :
  Permutation (insert_after key a l) (a :: l).
Proof.
  induction l as [|b r IH]; simpl; [reflexivity|].
  destruct (key a <? key b); [reflexivity|].
  rewrite IH. apply perm_swap.
Qed.

Lemma rsort_by_perm (l : list A) : Permutation (rsort_by A key l) l.
Proof.
  induction l as [|a r IH]; simpl; [reflexivity|].
  rewrite insert_after_perm. now constructor.
Qed.

Lemma insert_after_sorted (a : A) (l : list A) :
  StronglySorted (fun a b => key a <= key b) l ->
  StronglySorted (fun a b => key a <= key b) (insert_after key a l).
Proof.
  induction 1 as [|b r Hs IH Hb]; simpl.
  - repeat constructor.
  - destruct (Z.ltb_spec (key a) (key b)) as [Hlt|Hge].
    + constructor; [now constructor|].
      constructor; [lia|].
      rewrite Forall_forall in Hb |- *. intros c Hc.
      specialize (Hb c Hc). simpl in Hb. lia.
    + constructor; [exact IH|].
      rewrite Forall_forall in Hb |- *. intros c Hc.
      apply list_elem_of_In in Hc.
      apply (Permutation_in _ (insert_after_perm a r)) in Hc.
      destruct Hc as [<-|Hc]; [lia|].
      apply Hb. now apply list_elem_of_In.
Qed.

Lemma rsort_by_sorted (l : list A) :
  StronglySorted (fun a b => key a <= key b) (rsort_by A key l).
Proof.
  induction l as [|a r IH]; simpl; [constructor|].
  now apply insert_after_sorted.
Qed.

(** A list without ties has one arrangement in the order of [key]. *)
Lemma sorted_perm_unique (l1 l2 : list A) :
  StronglySorted (fun a b => key a <= key b) l1 ->
  StronglySorted (fun a b => key a <= key b) l2 ->
  Permutation l1 l2 -> distinctKeys key l1 -> l1 = l2.
Proof.
  intros H1. revert l2.
  induction H1 as [|a r1 Hs1 IH Ha]; intros l2 H2 Hperm Hkeys.
  - now apply Permutation_nil in Hperm.
  - destruct H2 as [|b r2 Hs2 Hb].
    + symmetry in Hperm. now apply Permutation_nil in Hperm.
    + rewrite Forall_forall in Ha, Hb.
      assert (Hba : b ∈ a :: r1) by (rewrite Hperm; left).
      assert (Hab : a ∈ b :: r2) by (rewrite <- Hperm; left).
      assert (Heq : a = b).
      { apply Hkeys; [left|exact Hba|].
        apply Z.le_antisymm.
        - apply elem_of_cons in Hba as [->|Hba]; [lia|now apply Ha].
        - apply elem_of_cons in Hab as [->|Hab]; [lia|now apply Hb]. }
      subst b. f_equal. apply IH; [exact Hs2|now apply Permutation_cons_inv in Hperm|].
      intros c d Hc Hd. apply Hkeys; now right.
Qed.

End AnySort.

Lemma isort_by_sorts : Sorts isort_by.
Proof. intros A key l. split; [apply isort_by_perm|apply isort_by_sorted]. Qed.

Lemma rsort_by_sorts : Sorts rsort_by.
Proof. intros A key l. split; [apply rsort_by_perm|apply rsort_by_sorted]. Qed.

Lemma StableSort_Sorts sort : StableSort sort -> Sorts sort.
Proof.
  intros Hs A key l.
  split; [now apply StableSort_perm|now apply StableSort_sorted].
Qed.

(** On a list without ties every sort computes what the insertion sort
    computes. *)
Lemma Sorts_unique sort (A : Type) (key : A -> Z) (l : list A) :
  Sorts sort -> distinctKeys key l -> sort A key l = isort_by A key l.
Proof.
  intros Hs Hkeys. destruct (Hs A key l) as [Hperm Hsorted].
  apply (sorted_perm_unique key); [exact Hsorted|apply isort_by_sorted| |].
  - rewrite Hperm. symmetry. apply isort_by_perm.
  - intros a b Ha Hb. rewrite Hperm in Ha, Hb. now apply Hkeys.
Qed.

(** [nodeOrder] gives an id the index of its last node: different ids of
    the graph have different orders, also when ids repeat. *)
Lemma setOrder_index (ns : list Node) (s : Z) (m : gmap string Z) (k : string) :
  k ∈ map id ns ->
  exists (i : nat) (n : Node),
    ns !! i = Some n /\ id n = k /\ setOrder ns s m !! k = Some (s + Z.of_nat i).
Proof.
  revert s m. induction ns as [|a r IH]; intros s m Hk; [inversion Hk|].
  simpl in *. destruct (decide (k ∈ map id r)) as [Hin|Hin].
  - destruct (IH (s + 1) (<[id a := s]> m) Hin) as (i & n & Hi & Hn & Hl).
    exists (S i), n. split; [exact Hi|]. split; [exact Hn|].
    rewrite Hl. f_equal. lia.
  - apply elem_of_cons in Hk as [->|Hk]; [|contradiction].
    exists 0%nat, a. split; [reflexivity|]. split; [reflexivity|].
    rewrite setOrder_notin by done. rewrite lookup_insert_eq. f_equal. lia.
Qed.

Lemma nodeOrder_inj (data : LineageData) (a b : string) :
  a ∈ map id (nodes data) -> b ∈ map id (nodes data) ->
  get0 (nodeOrderOf data) a = get0 (nodeOrderOf data) b -> a = b.
Proof.
  intros Ha Hb. unfold get0, nodeOrderOf.
  destruct (setOrder_index (nodes data) 0 ∅ a Ha) as (i & n & Hi & <- & ->).
  destruct (setOrder_index (nodes data) 0 ∅ b Hb) as (j & n' & Hj & <- & ->).
  simpl. intros Heq. assert (i = j) as -> by lia. congruence.
Qed.

Lemma distinctKeys_ids (data : LineageData) (l : list string) :
  (forall k, k ∈ l -> k ∈ map id (nodes data)) ->
  distinctKeys (get0 (nodeOrderOf data)) l.
Proof. intros Hl a b Ha Hb. apply nodeOrder_inj; auto. Qed.

(** A node id is in one component. *)
Lemma shared_id_same_component (comps : list (list Node)) (c1 c2 : list Node)
    (k : string) :
  NoDup (map id (concat comps)) -> c1 ∈ comps -> c2 ∈ comps ->
  k ∈ map id c1 -> k ∈ map id c2 -> c1 = c2.
Proof.
  induction comps as [|c r IH]; intros Hnd H1 H2 Hk1 Hk2; [inversion H1|].
  simpl in Hnd. rewrite map_app in Hnd.
  apply NoDup_app in Hnd as (_ & Hdisj & Hr).
  assert (Hrest : forall c', c' ∈ r -> k ∈ map id c' -> k ∈ map id (concat r)).
  { intros c' Hc' Hk. apply elem_of_map in Hk as (n & -> & Hn).
    apply elem_of_map. exists n. split; [reflexivity|].
    apply elem_of_concat. eauto. }
  apply elem_of_cons in H1 as [->|H1], H2 as [->|H2].
  - reflexivity.
  - exfalso. apply (Hdisj k Hk1). now apply (Hrest c2).
  - exfalso. apply (Hdisj k Hk2). now apply (Hrest c1).
  - now apply IH.
Qed.

Section SortFree.

Variable sort : forall A : Type, (A -> Z) -> list A -> list A.
Hypothesis sort_sorts : Sorts sort.

Variable data : LineageData.

Lemma kahn_any_sort (compAdj : gmap string (list string)) :
  (forall u l v, compAdj !! u = Some l -> v ∈ l -> v ∈ map id (nodes data)) ->
  forall (fuel : nat) (pending : list string) (depths inDegree : gmap string Z)
         (dequeued : list string),
    kahn sort fuel (nodeOrderOf data) compAdj pending depths inDegree dequeued
    = kahn isort_by fuel (nodeOrderOf data) compAdj pending depths inDegree
        dequeued.
Proof.
  intros Hadj. induction fuel as [|fuel IH]; intros pending depths inDegree dequeued;
    destruct pending as [|u rest]; cbn [kahn]; try reflexivity.
  rewrite (Sorts_unique sort string (get0 (nodeOrderOf data))
             (default [] (compAdj !! u)) sort_sorts).
  - destruct (fold_left _ _ _) as [[depths' inDegree'] queue']. apply IH.
  - apply distinctKeys_ids. intros k Hk.
    destruct (compAdj !! u) as [l|] eqn:El; simpl in Hk; [|inversion Hk].
    exact (Hadj u l k El Hk).
Qed.

Lemma layerComponent_any_sort (c : list Node) (fd : gmap string Z) (off : Z) :
  (forall n, n ∈ c -> n ∈ nodes data) ->
  layerComponent sort data (nodeOrderOf data) c fd off
  = layerComponent isort_by data (nodeOrderOf data) c fd off.
Proof.
  intros Hc.
  assert (Hids : forall k, k ∈ map id c -> k ∈ map id (nodes data)).
  { intros k Hk. apply elem_of_map in Hk as (n & -> & Hn).
    apply elem_of_map. exists n. split; [reflexivity|now apply Hc]. }
  unfold layerComponent.
  set (E := componentEdgesOf data c).
  pose proof (initDegrees_fold c ∅ ∅) as Hinit. cbv zeta in Hinit.
  fold (initDegrees c) in Hinit.
  destruct (initDegrees c) as [I0 A0]. cbn [fst snd] in Hinit.
  destruct Hinit as [_ HA0].
  pose proof (countEdges_fold E I0 A0) as Hcount. cbv zeta in Hcount.
  destruct (countEdges E (I0, A0)) as [I A]. cbn [fst snd] in Hcount.
  destruct Hcount as (_ & _ & HA).
  pose proof (seedQueue_fold I c [] ∅) as Hseed. cbv zeta in Hseed.
  fold (seedQueue I c) in Hseed.
  destruct (seedQueue I c) as [q D0]. cbn [fst snd] in Hseed.
  destruct Hseed as [Hq _]. simpl in Hq. subst q.
  rewrite (Sorts_unique sort string (get0 (nodeOrderOf data))
             (zeroDegree I c) sort_sorts).
  - rewrite kahn_any_sort; [reflexivity|].
    intros u l v Hl Hv. rewrite HA, HA0 in Hl.
    destruct (decide (u ∈ map id c)) as [Hu|Hu];
      [|rewrite lookup_empty in Hl; discriminate].
    simpl in Hl. injection Hl as <-.
    apply elem_of_outs in Hv as (e & He & _ & <-).
    apply componentEdgesOf_closed in He as (_ & _ & Ht). now apply Hids.
  - apply distinctKeys_ids. intros k Hk. apply Hids.
    unfold zeroDegree in Hk. apply elem_of_map in Hk as (n & -> & Hn).
    apply list_elem_of_In, List.filter_In in Hn as [Hn _].
    apply elem_of_map. exists n. split; [reflexivity|now apply list_elem_of_In].
Qed.

Lemma layerComponents_any_sort (comps : list (list Node)) :
  (forall c n, c ∈ comps -> n ∈ c -> n ∈ nodes data) ->
  forall (fd : gmap string Z) (off : Z) (layers : list Layer),
    layerComponents sort data (nodeOrderOf data) comps fd off layers
    = layerComponents isort_by data (nodeOrderOf data) comps fd off layers.
Proof.
  induction comps as [|c r IH]; intros Hmem fd off layers; [reflexivity|].
  cbn [layerComponents]. rewrite layerComponent_any_sort.
  - destruct (layerComponent isort_by data (nodeOrderOf data) c fd off)
      as [[[fd' off'] L]|]; [|reflexivity].
    apply IH. intros c' n Hc'. apply Hmem. now right.
  - intros n. apply Hmem. left.
Qed.

(** The components have different least orders. *)
Lemma components_distinctKeys (comps : list (list Node)) :
  (forall c n, c ∈ comps -> n ∈ c -> n ∈ nodes data) ->
  NoDup (map id (concat comps)) -> [] ∉ comps ->
  distinctKeys (minOrder (nodeOrderOf data)) comps.
Proof.
  intros Hmem Hnd Hne c1 c2 H1 H2 Heq.
  destruct (minOrder_attained (nodeOrderOf data) c1) as (n1 & Hn1 & E1);
    [intros ->; contradiction|].
  destruct (minOrder_attained (nodeOrderOf data) c2) as (n2 & Hn2 & E2);
    [intros ->; contradiction|].
  assert (Hid : id n1 = id n2).
  { apply (nodeOrder_inj data); [| |congruence];
      apply elem_of_map; eexists; split; eauto. }
  apply (shared_id_same_component comps c1 c2 (id n1) Hnd H1 H2);
    apply elem_of_map; [exists n1|exists n2]; split; auto.
Qed.

Lemma depthLayers_any_sort : depthLayers sort data = depthLayers isort_by data.
Proof.
  unfold depthLayers. destruct (nodes data) as [|n0 r0] eqn:Hns; [reflexivity|].
  rewrite <- Hns.
  destruct (findComponents_spec data) as (comps & -> & Hmem & Hnd & _ & Hne).
  rewrite (Sorts_unique sort (list Node) (minOrder (nodeOrderOf data)) comps
             sort_sorts (components_distinctKeys comps Hmem Hnd Hne)).
  apply layerComponents_any_sort. intros c n Hc.
  apply (Hmem c). now rewrite <- (isort_by_perm (minOrder (nodeOrderOf data)) comps).
Qed.

Lemma nodeDepths_any_sort : nodeDepths sort data = nodeDepths isort_by data.
Proof. unfold nodeDepths. now rewrite depthLayers_any_sort. Qed.

(** The groups of the layout hold the nodes with their indices. *)
Lemma pushAt_refs (P : nat * Node -> Prop) (depth : Z) (ref : nat * Node)
    (groups : list (Z * list (nat * Node))) :
  P ref -> Forall (fun g => Forall P (snd g)) groups ->
  Forall (fun g => Forall P (snd g)) (pushAt depth ref groups).
Proof.
  intros Href. induction 1 as [|[d g] r Hg Hr IH]; simpl.
  - repeat constructor. exact Href.
  - destruct (depth =? d); [|destruct (depth <? d)].
    + constructor; [|exact Hr]. simpl in *. apply Forall_app. split; [exact Hg|].
      repeat constructor. exact Href.
    + constructor; [repeat constructor; exact Href|]. now constructor.
    + now constructor.
Qed.

Lemma groupByDepth_refs (depths : gmap string Z) (all ns : list Node)
    (index : nat) (groups : list (Z * list (nat * Node))) :
  (forall i n, ns !! i = Some n -> all !! (index + i)%nat = Some n) ->
  Forall (fun g => Forall (fun ref => all !! fst ref = Some (snd ref)) (snd g))
    groups ->
  Forall (fun g => Forall (fun ref => all !! fst ref = Some (snd ref)) (snd g))
    (groupByDepth depths ns index groups).
Proof.
  revert index groups. induction ns as [|n r IH]; intros index groups Hns Hg;
    [exact Hg|].
  cbn [groupByDepth]. apply IH.
  - intros i m Hi. replace (S index + i)%nat with (index + S i)%nat by lia.
    now apply Hns.
  - apply pushAt_refs; [|exact Hg]. simpl.
    rewrite <- (Hns 0%nat n eq_refl). f_equal. lia.
Qed.

Lemma stackColumn_any_sort (height : Q) (store : list D3Node)
    (group : list (nat * Node)) :
  NoDup (map id (nodes data)) ->
  Forall (fun ref => nodes data !! fst ref = Some (snd ref)) group ->
  stackColumn sort height (nodeOrderOf data) store group
  = stackColumn isort_by height (nodeOrderOf data) store group.
Proof.
  intros Hnd Hg. unfold stackColumn.
  rewrite (Sorts_unique sort (nat * Node)%type
             (fun a => get0 (nodeOrderOf data) (id (snd a))) group sort_sorts);
    [reflexivity|].
  rewrite Forall_forall in Hg.
  intros [i n] [j m] Ha Hb. simpl.
  pose proof (Hg _ Ha) as Hi. pose proof (Hg _ Hb) as Hj. simpl in Hi, Hj.
  unfold get0, nodeOrderOf.
  rewrite (setOrder_lookup (nodes data) 0 ∅ i n Hnd Hi).
  rewrite (setOrder_lookup (nodes data) 0 ∅ j m Hnd Hj).
  simpl. intros Heq. assert (i = j) as -> by lia. congruence.
Qed.

Lemma placeNodes_any_sort (height : Q) (depths : gmap string Z) :
  NoDup (map id (nodes data)) ->
  placeNodes sort data height depths = placeNodes isort_by data height depths.
Proof.
  intros Hnd. unfold placeNodes. do 2 f_equal.
  pose proof (groupByDepth_refs depths (nodes data) (nodes data) 0 []
                (fun i n H => H) (List.Forall_nil _)) as Hrefs.
  generalize (copyNodes (nodes data)).
  induction Hrefs as [|[d g] r Hg Hr IH]; intros store; [reflexivity|].
  cbn [map fold_left snd]. rewrite stackColumn_any_sort by assumption.
  apply IH.
Qed.

Lemma computeLayout_any_sort (height : Q) :
  NoDup (map id (nodes data)) ->
  computeLayout sort data height = computeLayout isort_by data height.
Proof.
  intros Hnd. unfold computeLayout. rewrite nodeDepths_any_sort.
  destruct (nodes data) eqn:Hns; [reflexivity|]. rewrite <- Hns in *.
  destruct (nodeDepths isort_by data) as [depths|]; [|reflexivity].
  simpl. f_equal. now apply placeNodes_any_sort.
Qed.

End SortFree.

Lemma nodeDepths_isort_total (data : LineageData) :
  exists depths, nodeDepths isort_by data = Some depths.
Proof.
  destruct (depthLayers_sound isort_by isort_by_stable data)
    as (fd & layers & Hrun & _).
  exists fd. unfold nodeDepths. now rewrite Hrun.
Qed.

Lemma computeLayout_isort_total (data : LineageData) (height : Q) :
  exists ns, computeLayout isort_by data height = Some ns.
Proof.
  unfold computeLayout. destruct (nodes data); [now exists []|].
  destruct (nodeDepths_isort_total data) as (depths & ->).
  simpl. eauto.
Qed.

(** C3. The layout is a function of the graph and of the viewport height.
    Two runs yield the same depths, whichever implementations of
    [Array.prototype.sort] the two runs are given, stable or not: no sort
    of the depth assignment meets two different elements that compare
    equal. They yield the same nodes with the same coordinates when the
    ids of the nodes are unique, and also, whatever the ids, when the
    sorts are stable, as the language has it. *)
Theorem layout_deterministic sort1 sort2 (data : LineageData) (height : Q) :
  Sorts sort1 -> Sorts sort2 ->
  (exists depths : gmap string Z,
     nodeDepths sort1 data = Some depths /\
     nodeDepths sort2 data = Some depths) /\
  (NoDup (map id (nodes data)) \/ (StableSort sort1 /\ StableSort sort2) ->
   exists ns : list D3Node,
     computeLayout sort1 data height = Some ns /\
     computeLayout sort2 data height = Some ns).
Proof.
  intros H1 H2. split.
  - destruct (nodeDepths_isort_total data) as (depths & Hrun).
    exists depths.
    now rewrite (nodeDepths_any_sort sort1 H1), (nodeDepths_any_sort sort2 H2).
  - destruct (computeLayout_isort_total data height) as (ns & Hrun).
    intros [Hnd|[Hs1 Hs2]]; exists ns.
    + now rewrite (computeLayout_any_sort sort1 H1 data height Hnd),
        (computeLayout_any_sort sort2 H2 data height Hnd).
    + now rewrite (StableSort_ext sort1 isort_by Hs1 isort_by_stable),
        (StableSort_ext sort2 isort_by Hs2 isort_by_stable).
Qed.

(** ** The claims on example graphs *)

Lemma cycleWithTail_layers :
  depthLayers isort_by cycleWithTail
  = Some (depthsOf cycleWithTail, layersOf cycleWithTail).
Proof. vm_compute. reflexivity. Qed.

Lemma splitPair_layers :
  depthLayers isort_by splitPair = Some (depthsOf splitPair, layersOf splitPair).
Proof. vm_compute. reflexivity. Qed.

(** C1 fails as stated: in [cycleWithTail] the edge [B -> D] stays inside
    the one component, [D] is on no cycle and has its depth 1 from [A], not
    from the fallback, and [B] has depth 2. *)
Lemma depth_monotonicity_counterexample :
  ~ depthMonotonicityAsClaimed isort_by cycleWithTail.
Proof.
  intros H.
  destruct (H (depthsOf cycleWithTail) (layersOf cycleWithTail)
              (nthLayer cycleWithTail 0) (columnEdge "B" "D")
              cycleWithTail_layers) as [H1|[H1|H1]].
  - vm_compute. left.
  - vm_compute. do 5 right. left.
  - vm_compute. do 3 right. left.
  - vm_compute. do 2 right. left.
  - vm_compute in H1. exact (H1 eq_refl).
  - apply walk_leaves in H1 as (e & He & Hs). simpl in He, Hs.
    repeat (apply elem_of_cons in He as [->|He]; [discriminate|]).
    inversion He.
  - vm_compute in H1. discriminate.
Qed.


Lemma fanOut_layout :
  computeLayout isort_by fanOut 600 = Some (layoutOf fanOut 600).
Proof. vm_compute. reflexivity. Qed.

(** In [cycleWithTail], [A] is dequeued and [A -> X] is an edge. *)
Lemma depth_monotone_from_dequeued_witness :
  exists du dv : Z,
    depthsOf cycleWithTail !! "A" = Some du /\
    depthsOf cycleWithTail !! "X" = Some dv /\
    du + 1 <= dv.
Proof.
  apply (depth_monotone_from_dequeued isort_by isort_by_stable cycleWithTail
           (depthsOf cycleWithTail) (layersOf cycleWithTail)
           (nthLayer cycleWithTail 0) (columnEdge "A" "X")
           cycleWithTail_layers).
  - vm_compute. left.
  - vm_compute. left.
  - vm_compute. left.
  - vm_compute. right. left.
  - left. vm_compute. left.
Defined.

(** The depth assignment of [cycleWithTail] ends. *)
Lemma nodeDepths_total_witness :
  exists depths layers,
    depthLayers isort_by cycleWithTail = Some (depths, layers) /\
    nodeDepths isort_by cycleWithTail = Some depths /\
    (forall n, n ∈ nodes cycleWithTail ->
               exists d, depths !! id n = Some d /\ 0 <= d) /\
    (forall L n, L ∈ layers -> n ∈ layer_nodes L ->
                 layer_queueDepths L !! id n = None ->
                 layer_depths L !! id n = Some 0 /\
                 depths !! id n = Some (layer_offset L)).
Proof.
  exact (proj1 (nodeDepths_total isort_by isort_by_stable cycleWithTail)).
Defined.

(** Two runs on [fanOut], one with the insertion sort and one with the
    sort that reverses ties. *)
Lemma layout_deterministic_witness :
  (exists depths : gmap string Z,
     nodeDepths isort_by fanOut = Some depths /\
     nodeDepths rsort_by fanOut = Some depths) /\
  exists ns : list D3Node,
    computeLayout isort_by fanOut 600 = Some ns /\
    computeLayout rsort_by fanOut 600 = Some ns.
Proof.
  destruct (layout_deterministic isort_by rsort_by fanOut 600
              isort_by_sorts rsort_by_sorts) as [Hdepths Hlayout].
  split; [exact Hdepths|]. apply Hlayout. left.
  apply (bool_decide_unpack _). vm_compute. reflexivity.
Defined.

(** The two sorts differ where keys tie, and with them the layout of a
    graph in which an id repeats: the depths are the same, the two nodes
    trade places. *)
Example rsort_by_reverses_ties :
  isort_by (Z * Z) fst [(1, 1); (0, 2); (1, 3)] = [(0, 2); (1, 1); (1, 3)] /\
  rsort_by (Z * Z) fst [(1, 1); (0, 2); (1, 3)] = [(0, 2); (1, 3); (1, 1)].
Proof. split; reflexivity. Qed.

Example twins_layout_needs_stability :
  nodeDepths isort_by twins = nodeDepths rsort_by twins /\
  computeLayout isort_by twins 600 <> computeLayout rsort_by twins 600.
Proof.
  split; [vm_compute; reflexivity|].
  vm_compute. discriminate.
Qed.

(** The layout of [fanOut] in a viewport of height 600. *)
Lemma layout_respects_padding_witness :
  exists ns : list D3Node,
    computeLayout isort_by fanOut 600 = Some ns /\
    map base ns = nodes fanOut /\
    forall n, n ∈ ns ->
      exists vx vy : Q,
        x n = Some vx /\ y n = Some vy /\
        (padding <= vx - NODE_WIDTH / 2)%Q /\
        (padding
         <= vy - (HEADER_HEIGHT
                  + inject_Z (Z.of_nat (length (columns (base n))))
                    * COLUMN_HEIGHT) / 2)%Q.
Proof.
  exact (proj2 (layout_respects_padding isort_by isort_by_stable fanOut 600)).
Defined.


(** The layout of [fanOut] after a drag of [A], and the edge [A -> B]. *)
Lemma edge_geometry_resolution_witness :
  (((forall n, n ∈ handleNodeDrag "A" (10, 20)%Q (layoutOf fanOut 600) ->
               id (base n) <> "A") \/
    (forall n, n ∈ handleNodeDrag "A" (10, 20)%Q (layoutOf fanOut 600) ->
               id (base n) <> "B")) ->
   resolveEdgeGeometry
     (nodeMapOf (handleNodeDrag "A" (10, 20)%Q (layoutOf fanOut 600)))
     (columnEdge "A" "B") = None) /\
  ((exists n, n ∈ handleNodeDrag "A" (10, 20)%Q (layoutOf fanOut 600) /\
              id (base n) = "A") ->
   (exists n, n ∈ handleNodeDrag "A" (10, 20)%Q (layoutOf fanOut 600) /\
              id (base n) = "B") ->
   exists g,
     resolveEdgeGeometry
       (nodeMapOf (handleNodeDrag "A" (10, 20)%Q (layoutOf fanOut 600)))
       (columnEdge "A" "B") = Some g).
Proof.
  apply (edge_geometry_resolution isort_by fanOut 600
           (handleNodeDrag "A" (10, 20)%Q (layoutOf fanOut 600))
           (columnEdge "A" "B")).
  apply reach_drag, reach_layout. exact fanOut_layout.
Defined.



(** The rounding on known values: [0.1], [0.1 + 0.2] (which is
    [0.30000000000000004]), a tie at [2 ^ 53 + 1] and at [2 ^ 53 + 3], a
    half-integer, the largest double and the first value that overflows. *)
Example round64_values :
  round64 (1 # 10) = Some (3602879701896397 # 36028797018963968)%Q /\
  fadd (3602879701896397 # 36028797018963968) (3602879701896397 # 18014398509481984)
  = Some (1351079888211149 # 4503599627370496)%Q /\
  round64 (inject_Z (2 ^ 53 + 1)) = Some (inject_Z (2 ^ 53)) /\
  round64 (inject_Z (2 ^ 53 + 3)) = Some (inject_Z (2 ^ 53 + 4)) /\
  round64 (- (367 # 2)) = Some (- (367 # 2))%Q /\
  round64 (inject_Z (2 ^ 1024 - 2 ^ 971))
  = Some (inject_Z (2 ^ 1024 - 2 ^ 971)) /\
  round64 (inject_Z (2 ^ 1024 - 2 ^ 970)) = None.
Proof. vm_compute. repeat split. Qed.

(** The sum of the listener is rounded: at [x = 2 ^ 53] a delta of 1
    leaves the node where it is. *)
Example drag_rounds_the_sum :
  onDrag farNode 1 0 [farNode]
  = Some [dragged farNode (inject_Z (2 ^ 53), 300%Q)] /\
  ~ dragAsClaimed farNode [farNode].
Proof.
  split; [vm_compute; reflexivity|].
  intros H.
  destruct (H 1%Q 0%Q [dragged farNode (inject_Z (2 ^ 53), 300%Q)]
              0%nat farNode (inject_Z (2 ^ 53)) 300%Q)
    as (n' & vx & vy & Hn' & Hvx & _ & Hx & _);
    try reflexivity.
  injection Hn' as <-. injection Hvx as <-. vm_compute in Hx. discriminate.
Qed.

(** An edge from the column [c] of [A] to a column that [B] does not
    have. *)
Lemma edge_anchor_offsets_witness :
  exists sy ty : Q,
    y draggedNode = Some sy /\ y restingNode = Some ty /\
    y1 (default noGeometry
          (resolveEdgeGeometry (nodeMapOf [draggedNode; restingNode])
             (mkEdge "A" "c" "B" "missing")))
    = ((sy - nodeHeight (base draggedNode) / 2)
       + columnAnchor (columns (base draggedNode)) "c")%Q /\
    y2 (default noGeometry
          (resolveEdgeGeometry (nodeMapOf [draggedNode; restingNode])
             (mkEdge "A" "c" "B" "missing")))
    = ((ty - nodeHeight (base restingNode) / 2)
       + columnAnchor (columns (base restingNode)) "missing")%Q.
Proof.
  apply (edge_anchor_offsets (nodeMapOf [draggedNode; restingNode])
           (mkEdge "A" "c" "B" "missing") draggedNode restingNode).
  - vm_compute. reflexivity.
  - vm_compute. reflexivity.
  - vm_compute. reflexivity.
Defined.

(** [draggedNode] and [restingNode] have the same x. *)
Lemma equal_x_takes_back_edge_branch_witness :
  x1 (default noGeometry
        (resolveEdgeGeometry (nodeMapOf [draggedNode; restingNode])
           (columnEdge "A" "B")))
  = (178 - NODE_WIDTH / 2)%Q /\
  x2 (default noGeometry
        (resolveEdgeGeometry (nodeMapOf [draggedNode; restingNode])
           (columnEdge "A" "B")))
  = (178 + NODE_WIDTH / 2 + 10)%Q.
Proof.
  apply (equal_x_takes_back_edge_branch (nodeMapOf [draggedNode; restingNode])
           (columnEdge "A" "B") draggedNode restingNode 178 178).
  - vm_compute. reflexivity.
  - vm_compute. reflexivity.
  - reflexivity.
  - reflexivity.
  - reflexivity.
  - vm_compute. reflexivity.
Defined.

(** ** The scenarios of the specification, run on the model *)

Example chain_depths :
  map (get0 (depthsOf chain)) ["A"; "B"; "C"] = [0; 1; 2].
Proof. vm_compute. reflexivity. Qed.

Example chain_x_increasing :
  map (fun n => Qred (orZero (x n))) (layoutOf chain 600)
  = [178%Q; 554%Q; 930%Q].
Proof. vm_compute. reflexivity. Qed.

Example diamond_depths :
  map (get0 (depthsOf diamond)) ["A"; "B"; "C"; "D"] = [0; 1; 1; 2].
Proof. vm_compute. reflexivity. Qed.

Example twoPairs_depths :
  map (get0 (depthsOf twoPairs)) ["A"; "B"; "C"; "D"] = [0; 1; 3; 4].
Proof. vm_compute. reflexivity. Qed.

Example cycleWithTail_depths :
  map (get0 (depthsOf cycleWithTail)) ["A"; "X"; "B"; "C"; "D"]
  = [0; 1; 2; 0; 1].
Proof. vm_compute. reflexivity. Qed.

Example splitPair_offsets :
  map (fun L => (map id (layer_nodes L), layer_offset L)) (layersOf splitPair)
  = [(["X"; "B"], 0); (["A"], 3)].
Proof. vm_compute. reflexivity. Qed.

Example selfLoop_depth : nodeDepths isort_by selfLoop = Some {[ "A" := 0 ]}.
Proof. vm_compute. reflexivity. Qed.

(** The edge to the missing node is not drawn, the other one is. *)
Example danglingEdge_depths :
  map (get0 (depthsOf danglingEdge)) ["A"; "B"] = [0; 1] /\
  map (fun e =>
         match resolveEdgeGeometry (nodeMapOf (layoutOf danglingEdge 600)) e
         with Some _ => true | None => false end)
    (edges danglingEdge)
  = [false; true].
Proof. vm_compute. split; reflexivity. Qed.

(** In [fanOut] the stack of [B] and [C] is taller than the viewport: the
    top of [B] is moved to the padding exactly, and [A] with it. *)
Example fanOut_tops :
  map (fun n => Qred (orZero (y n) - nodeHeight (base n) / 2))
    (layoutOf fanOut 600)
  = [534%Q; 50%Q; 990%Q].
Proof. vm_compute. reflexivity. Qed.

(** * Further properties of the code *)

(** ** Drags compose *)

(** X1. A later drag of a node replaces an earlier one, drags of nodes
    of different ids commute, and a drag keeps the [Node] part of every
    node, in the order of the list. *)
Theorem handleNodeDrag_compose (k1 k2 : string) (p1 p2 : Q * Q)
    (ns : list D3Node) :
  k1 <> k2 ->
  handleNodeDrag k1 p2 (handleNodeDrag k1 p1 ns) = handleNodeDrag k1 p2 ns /\
  handleNodeDrag k1 p1 (handleNodeDrag k2 p2 ns)
  = handleNodeDrag k2 p2 (handleNodeDrag k1 p1 ns) /\
  map base (handleNodeDrag k1 p1 ns) = map base ns.
Proof.
  intros Hne. unfold handleNodeDrag. rewrite !map_map.
  split; [|split]; apply map_ext; intros n.
  - destruct (decide (id (base n) = k1)) as [H|H]; cbn [base].
    + now rewrite decide_True.
    + now rewrite decide_False.
  - destruct (decide (id (base n) = k1)) as [H1|H1],
             (decide (id (base n) = k2)) as [H2|H2]; cbn [base];
      repeat destruct (decide _); congruence.
  - now destruct (decide _).
Qed.

Lemma handleNodeDrag_compose_witness :
  handleNodeDrag "A" (3, 4)%Q
    (handleNodeDrag "A" (1, 2)%Q [draggedNode; restingNode])
  = handleNodeDrag "A" (3, 4)%Q [draggedNode; restingNode] /\
  handleNodeDrag "A" (1, 2)%Q
    (handleNodeDrag "B" (3, 4)%Q [draggedNode; restingNode])
  = handleNodeDrag "B" (3, 4)%Q
      (handleNodeDrag "A" (1, 2)%Q [draggedNode; restingNode]) /\
  map base (handleNodeDrag "A" (1, 2)%Q [draggedNode; restingNode])
  = map base [draggedNode; restingNode].
Proof.
  apply (handleNodeDrag_compose "A" "B"). discriminate.
Defined.

(** ** The node map *)

Lemma nodeMapOf_fold_last (ns : list D3Node) (m : gmap string D3Node)
    (k : string) :
  fold_left (fun m n => <[id (base n) := n]> m) ns m !! k =
  match last (List.filter (fun n => bool_decide (id (base n) = k)) ns) with
  | Some n => Some n
  | None => m !! k
  end.
Proof.
  revert m. induction ns as [|a r IH]; intros m; [reflexivity|].
  cbn [fold_left List.filter]. rewrite IH.
  case_bool_decide as Ha.
  - rewrite last_cons.
    destruct (last (List.filter _ r)); [reflexivity|].
    now rewrite <- Ha, lookup_insert_eq.
  - destruct (last (List.filter _ r)); [reflexivity|].
    now rewrite lookup_insert_ne.
Qed.

(** X2. Looking an id up in the node map gives the last node of the list
    that has this id, and nothing when no node has it. *)
Theorem nodeMapOf_last_wins (ns : list D3Node) (k : string) :
  nodeMapOf ns !! k =
  last (List.filter (fun n => bool_decide (id (base n) = k)) ns).
Proof.
  unfold nodeMapOf. rewrite nodeMapOf_fold_last, lookup_empty.
  now destruct (last _).
Qed.

Lemma NoDup_map_inj {A B : Type} (f : A -> B) (l : list A) (a b : A) :
  NoDup (map f l) -> a ∈ l -> b ∈ l -> f a = f b -> a = b.
Proof.
  induction l as [|c r IH]; simpl; intros Hnd Ha Hb Hf; [inversion Ha|].
  apply NoDup_cons in Hnd as [Hc Hr].
  apply elem_of_cons in Ha as [->|Ha]; apply elem_of_cons in Hb as [->|Hb].
  - reflexivity.
  - exfalso. apply Hc. rewrite Hf. apply elem_of_map. eauto.
  - exfalso. apply Hc. rewrite <- Hf. apply elem_of_map. eauto.
  - now apply IH.
Qed.

(** With unique ids every node is found under its id. *)
Lemma nodeMapOf_lookup_unique (ns : list D3Node) (n : D3Node) :
  NoDup (map (fun n => id (base n)) ns) -> n ∈ ns ->
  nodeMapOf ns !! id (base n) = Some n.
Proof.
  intros Hnd Hn.
  destruct (proj2 (nodeMapOf_is_Some ns (id (base n)))) as [v Hv]; [eauto|].
  rewrite Hv. f_equal.
  apply nodeMapOf_lookup_Some in Hv as [Hv Hid].
  now apply (NoDup_map_inj (fun n => id (base n)) ns).
Qed.

(** ** The anchor lies in a row of the box *)

(** X3. For a node of the map, the column offset is 0 when the node has no
    column of the name, and otherwise it is the middle of the row of the
    first such column: at least the header plus half a row, and at least
    half a row above the bottom of the box. *)
Theorem getColumnYOffset_within_box (nodeMap : gmap string D3Node)
    (nodeId columnName : string) (node : D3Node) :
  nodeMap !! nodeId = Some node ->
  (getColumnYOffset nodeMap nodeId columnName = 0%Q /\
   forall c, c ∈ columns (base node) -> col_name c <> columnName) \/
  (exists (i : nat) (c : Column),
     columns (base node) !! i = Some c /\ col_name c = columnName /\
     (forall (j : nat) (c' : Column),
        columns (base node) !! j = Some c' -> (j < i)%nat ->
        col_name c' <> columnName) /\
     getColumnYOffset nodeMap nodeId columnName
     = (HEADER_HEIGHT + inject_Z (Z.of_nat i) * COLUMN_HEIGHT
        + COLUMN_HEIGHT / 2)%Q /\
     (HEADER_HEIGHT + COLUMN_HEIGHT / 2
      <= getColumnYOffset nodeMap nodeId columnName)%Q /\
     (getColumnYOffset nodeMap nodeId columnName + COLUMN_HEIGHT / 2
      <= nodeHeight (base node))%Q).
Proof.
  intros Hn. rewrite (getColumnYOffset_anchor _ _ _ _ Hn). unfold columnAnchor.
  destruct (list_find _ _) as [[i c]|] eqn:Hfind.
  - right. apply list_find_Some in Hfind as (Hi & Hc & Hfirst).
    exists i, c. split; [exact Hi|]. split; [exact Hc|].
    split; [exact Hfirst|]. split; [reflexivity|].
    apply lookup_lt_Some in Hi.
    assert (H0 : (0 <= inject_Z (Z.of_nat i))%Q) by (unfold Qle; simpl; lia).
    assert (H1 : (inject_Z (Z.of_nat i) + 1
                  <= inject_Z (Z.of_nat (length (columns (base node)))))%Q).
    { unfold Qle. simpl. lia. }
    unfold nodeHeight, HEADER_HEIGHT, COLUMN_HEIGHT.
    generalize dependent (inject_Z (Z.of_nat i)).
    generalize (inject_Z (Z.of_nat (length (columns (base node))))).
    clear. intros q q0 H0 H1. split; halves; lra.
  - left. split; [reflexivity|].
    apply list_find_None in Hfind. rewrite Forall_forall in Hfind. exact Hfind.
Qed.

Lemma getColumnYOffset_within_box_witness :
  (getColumnYOffset (nodeMapOf [draggedNode; restingNode]) "A" "c" = 0%Q /\
   forall c, c ∈ columns (base draggedNode) -> col_name c <> "c") \/
  (exists (i : nat) (c : Column),
     columns (base draggedNode) !! i = Some c /\ col_name c = "c" /\
     (forall (j : nat) (c' : Column),
        columns (base draggedNode) !! j = Some c' -> (j < i)%nat ->
        col_name c' <> "c") /\
     getColumnYOffset (nodeMapOf [draggedNode; restingNode]) "A" "c"
     = (HEADER_HEIGHT + inject_Z (Z.of_nat i) * COLUMN_HEIGHT
        + COLUMN_HEIGHT / 2)%Q /\
     (HEADER_HEIGHT + COLUMN_HEIGHT / 2
      <= getColumnYOffset (nodeMapOf [draggedNode; restingNode]) "A" "c")%Q /\
     (getColumnYOffset (nodeMapOf [draggedNode; restingNode]) "A" "c"
      + COLUMN_HEIGHT / 2
      <= nodeHeight (base draggedNode))%Q).
Proof.
  apply (getColumnYOffset_within_box (nodeMapOf [draggedNode; restingNode])
           "A" "c" draggedNode).
  vm_compute. reflexivity.
Defined.

(** ** The states keep the nodes of the graph *)

Section States.

Variable sort_by : forall A : Type, (A -> Z) -> list A -> list A.

(** X4. Every state of the component after the initial [[]] lists the
    nodes of the graph, in the order of the graph and with their columns:
    neither the layout nor a drag adds, drops, reorders or edits a node. *)
Theorem reachable_keeps_nodes (data : LineageData) (height : Q)
    (ns : list D3Node) :
  reachable sort_by data height ns ->
  ns = [] \/ map base ns = nodes data.
Proof.
  induction 1 as [|ns Hl|ns nodeId position Hr IH].
  - now left.
  - unfold computeLayout in Hl. destruct (nodes data) eqn:Hns.
    + injection Hl as <-. now left.
    + destruct (nodeDepths sort_by data); [|discriminate].
      injection Hl as <-. right. rewrite placeNodes_base. now symmetry.
  - destruct IH as [->|IH]; [now left|right].
    unfold handleNodeDrag. rewrite map_map, <- IH. apply map_ext.
    intros n. now destruct (decide _).
Qed.

End States.

Lemma reachable_keeps_nodes_witness :
  handleNodeDrag "A" (10, 20)%Q (layoutOf fanOut 600) = [] \/
  map base (handleNodeDrag "A" (10, 20)%Q (layoutOf fanOut 600))
  = nodes fanOut.
Proof.
  apply (reachable_keeps_nodes isort_by fanOut 600).
  apply reach_drag, reach_layout. exact fanOut_layout.
Defined.

(** ** The canvas covers the boxes *)

Lemma Qmax_l (a b : Q) : (a <= Qmax a b)%Q.
Proof.
  unfold Qmax. destruct (Qltb a b) eqn:E; [|lra].
  apply Qltb_lt in E. lra.
Qed.

Lemma Qmax_r (a b : Q) : (b <= Qmax a b)%Q.
Proof.
  unfold Qmax. destruct (Qltb a b) eqn:E; [lra|].
  now apply Qltb_ge in E.
Qed.

Lemma extent_fold (ns : list D3Node) (mx my : Q) :
  let r :=
    fold_left
      (fun '(maxX, maxY) node =>
         match x node, y node with
         | Some vx, Some vy =>
             (Qmax maxX (vx + NODE_WIDTH / 2)%Q,
              Qmax maxY (vy + nodeHeight (base node) / 2)%Q)
         | _, _ => (maxX, maxY)
         end)
      ns (mx, my) in
  (mx <= fst r)%Q /\ (my <= snd r)%Q /\
  forall n vx vy, n ∈ ns -> x n = Some vx -> y n = Some vy ->
    (vx + NODE_WIDTH / 2 <= fst r)%Q /\
    (vy + nodeHeight (base n) / 2 <= snd r)%Q.
Proof.
  revert mx my. induction ns as [|a r IH]; intros mx my; cbn [fold_left].
  - split; [simpl; lra|]. split; [simpl; lra|]. intros n vx vy H. inversion H.
  - destruct (x a) as [ax|] eqn:Hax, (y a) as [ay|] eqn:Hay.
    2-4: destruct (IH mx my) as (H1 & H2 & H3); split; [exact H1|];
         split; [exact H2|]; intros n vx vy Hn Hx Hy;
         apply elem_of_cons in Hn as [->|Hn]; [congruence|now apply H3].
    destruct (IH (Qmax mx (ax + NODE_WIDTH / 2)%Q)
                 (Qmax my (ay + nodeHeight (base a) / 2)%Q)) as (H1 & H2 & H3).
    pose proof (Qmax_l mx (ax + NODE_WIDTH / 2)%Q).
    pose proof (Qmax_r mx (ax + NODE_WIDTH / 2)%Q).
    pose proof (Qmax_l my (ay + nodeHeight (base a) / 2)%Q).
    pose proof (Qmax_r my (ay + nodeHeight (base a) / 2)%Q).
    split; [lra|]. split; [lra|]. intros n vx vy Hn Hx Hy.
    apply elem_of_cons in Hn as [->|Hn]; [|now apply H3].
    assert (vx = ax) as -> by congruence.
    assert (vy = ay) as -> by congruence. split; lra.
Qed.

(** X5. With nodes and an attached container the canvas has pixel sizes:
    at least the client size of the container, and large enough for the
    right and the bottom edge of every positioned box plus the padding. *)
Theorem graphDimensions_covers (ns : list D3Node) (cw ch : Q) :
  ns <> [] ->
  exists w h : Q,
    graphDimensions ns (Some (cw, ch)) = Pixels w h /\
    (cw <= w)%Q /\ (ch <= h)%Q /\
    forall n vx vy, n ∈ ns -> x n = Some vx -> y n = Some vy ->
      (vx + NODE_WIDTH / 2 + padding <= w)%Q /\
      (vy + nodeHeight (base n) / 2 + padding <= h)%Q.
Proof.
  intros Hne. unfold graphDimensions. destruct ns as [|a r]; [congruence|].
  unfold extent. pose proof (extent_fold (a :: r) 0 0) as He. cbv zeta in He.
  destruct (fold_left _ (a :: r) (0%Q, 0%Q)) as [maxX maxY].
  cbn [fst snd] in He. destruct He as (_ & _ & He).
  eexists _, _. split; [reflexivity|].
  split; [apply Qmax_l|]. split; [apply Qmax_l|].
  intros n vx vy Hn Hx Hy. destruct (He n vx vy Hn Hx Hy) as [H1 H2].
  pose proof (Qmax_r cw (maxX + padding)%Q).
  pose proof (Qmax_r ch (maxY + padding)%Q). split; lra.
Qed.

Lemma graphDimensions_covers_witness :
  exists w h : Q,
    graphDimensions (layoutOf fanOut 600) (Some (800, 600)%Q) = Pixels w h /\
    (800 <= w)%Q /\ (600 <= h)%Q /\
    forall n vx vy, n ∈ layoutOf fanOut 600 ->
      x n = Some vx -> y n = Some vy ->
      (vx + NODE_WIDTH / 2 + padding <= w)%Q /\
      (vy + nodeHeight (base n) / 2 + padding <= h)%Q.
Proof.
  apply (graphDimensions_covers (layoutOf fanOut 600) 800 600).
  vm_compute. discriminate.
Defined.

(** ** Normalization is a translation, applied once *)

Lemma lower_cases (m : option Q) (v : Q) :
  lower m v = Some v \/ exists m', m = Some m' /\ lower m v = Some m'.
Proof.
  destruct m as [m'|]; simpl; [|now left].
  destruct (Qltb v m'); [now left|right; eauto].
Qed.

(** The running minima are taken among the edges of the boxes. *)
Lemma bounds_fold_attained (ns : list D3Node) (mx my : option Q) :
  let r :=
    fold_left
      (fun '(minX, minY) node =>
         (lower minX (orZero (x node) - NODE_WIDTH / 2)%Q,
          lower minY (orZero (y node) - nodeHeight (base node) / 2)%Q))
      ns (mx, my) in
  (fst r = mx \/ exists n, n ∈ ns /\ fst r = Some (nodeLeft n)) /\
  (snd r = my \/ exists n, n ∈ ns /\ snd r = Some (nodeTop n)).
Proof.
  cbv zeta. revert mx my.
  induction ns as [|a r IH]; intros mx my; cbn [fold_left].
  - split; now left.
  - destruct (IH (lower mx (orZero (x a) - NODE_WIDTH / 2)%Q)
                 (lower my (orZero (y a) - nodeHeight (base a) / 2)%Q))
      as [IHx IHy].
    split.
    + destruct IHx as [H1|(n & Hn & H1)].
      * rewrite H1.
        destruct (lower_cases mx (orZero (x a) - NODE_WIDTH / 2)%Q)
          as [E|(m' & -> & E)]; rewrite E.
        -- right. exists a. split; [left|reflexivity].
        -- now left.
      * right. exists n. split; [now right|exact H1].
    + destruct IHy as [H1|(n & Hn & H1)].
      * rewrite H1.
        destruct (lower_cases my (orZero (y a) - nodeHeight (base a) / 2)%Q)
          as [E|(m' & -> & E)]; rewrite E.
        -- right. exists a. split; [left|reflexivity].
        -- now left.
      * right. exists n. split; [now right|exact H1].
Qed.

(** What [normalize] does to a list that is not empty. *)
Lemma normalize_cons (a : D3Node) (r : list D3Node) :
  exists qx qy : Q,
    bounds (a :: r) = (Some qx, Some qy) /\
    (forall n, n ∈ a :: r -> (qx <= nodeLeft n)%Q /\ (qy <= nodeTop n)%Q) /\
    (exists n, n ∈ a :: r /\ qx = nodeLeft n) /\
    (exists n, n ∈ a :: r /\ qy = nodeTop n) /\
    normalize (a :: r) =
    if Qltb 0 (deficit (Some qx)) || Qltb 0 (deficit (Some qy))
    then map (fun node =>
                mkD3 (base node) (Some (orZero (x node) + deficit (Some qx))%Q)
                  (Some (orZero (y node) + deficit (Some qy))%Q)
                  (fx node) (fy node)) (a :: r)
    else a :: r.
Proof.
  unfold normalize. cbv iota. assert (Ha : a ∈ a :: r) by left.
  remember (a :: r) as l eqn:Hl. unfold bounds.
  pose proof (bounds_fold l None None) as Hb. cbv zeta in Hb.
  pose proof (bounds_fold_attained l None None) as Hatt. cbv zeta in Hatt.
  destruct (fold_left _ l (None, None)) as [minX minY].
  destruct Hb as (_ & _ & HX & HY). cbn [fst snd] in HX, HY, Hatt.
  destruct (HX a Ha) as (qx & -> & _). destruct (HY a Ha) as (qy & -> & _).
  exists qx, qy. split; [reflexivity|]. split; [|split; [|split]].
  - intros n Hn. destruct (HX n Hn) as (q & [= <-] & H1).
    destruct (HY n Hn) as (q' & [= <-] & H2). auto.
  - destruct Hatt as [[H|(n & Hn & [= ->])] _]; [discriminate|eauto].
  - destruct Hatt as [_ [H|(n & Hn & [= ->])]]; [discriminate|eauto].
  - subst l. reflexivity.
Qed.

Lemma deficit_nonneg (q : Q) : (0 <= deficit (Some q))%Q.
Proof.
  unfold deficit, padding. destruct (Qltb q 50) eqn:E; [|lra].
  apply Qltb_lt in E. lra.
Qed.

(** X6. Normalizing a normalized layout changes nothing. *)
Theorem normalize_idempotent (l : list D3Node) :
  normalize (normalize l) = normalize l.
Proof.
  destruct (normalize l) as [|a r] eqn:Hn; [reflexivity|].
  assert (Hpad : forall n, n ∈ a :: r ->
            (padding <= nodeLeft n)%Q /\ (padding <= nodeTop n)%Q).
  { intros n Hin. rewrite <- Hn in Hin.
    apply normalize_padded in Hin as (vx & vy & Hx & Hy & H1 & H2).
    unfold nodeLeft, nodeTop. rewrite Hx, Hy. auto. }
  destruct (normalize_cons a r)
    as (qx & qy & _ & _ & (n1 & Hn1 & ->) & (n2 & Hn2 & ->) & ->).
  assert (Hx : Qltb 0 (deficit (Some (nodeLeft n1))) = false).
  { unfold deficit. destruct (Qltb (nodeLeft n1) padding) eqn:E; [|reflexivity].
    apply Qltb_lt in E. destruct (Hpad n1 Hn1). lra. }
  assert (Hy : Qltb 0 (deficit (Some (nodeTop n2))) = false).
  { unfold deficit. destruct (Qltb (nodeTop n2) padding) eqn:E; [|reflexivity].
    apply Qltb_lt in E. destruct (Hpad n2 Hn2). lra. }
  now rewrite Hx, Hy.
Qed.

(** X7. Normalization moves all nodes by one vector [(ox, oy)], to the right
    and down or not at all, and keeps everything else; when it moves the
    nodes down, the highest box ends with its top on the padding exactly,
    and likewise to the right. *)
Theorem normalize_translates (l : list D3Node) :
  exists ox oy : Q,
    (0 <= ox)%Q /\ (0 <= oy)%Q /\
    Forall2
      (fun n n' =>
         base n' = base n /\ fx n' = fx n /\ fy n' = fy n /\
         (orZero (x n') == orZero (x n) + ox)%Q /\
         (orZero (y n') == orZero (y n) + oy)%Q)
      l (normalize l) /\
    ((0 < ox)%Q -> exists n', n' ∈ normalize l /\ (nodeLeft n' == padding)%Q) /\
    ((0 < oy)%Q -> exists n', n' ∈ normalize l /\ (nodeTop n' == padding)%Q).
Proof.
  destruct l as [|a r].
  { exists 0%Q, 0%Q. split; [lra|]. split; [lra|]. split; [constructor|].
    split; intros H; lra. }
  destruct (normalize_cons a r)
    as (qx & qy & _ & _ & (n1 & Hn1 & Hq1) & (n2 & Hn2 & Hq2) & Heq).
  pose proof (deficit_nonneg qx) as Hox. pose proof (deficit_nonneg qy) as Hoy.
  destruct (Qltb 0 (deficit (Some qx)) || Qltb 0 (deficit (Some qy))) eqn:E.
  - exists (deficit (Some qx)), (deficit (Some qy)).
    split; [exact Hox|]. split; [exact Hoy|]. rewrite Heq. clear Heq.
    split; [|split].
    + clear. induction (a :: r) as [|b l IH]; simpl; constructor; [|exact IH].
      cbn [base x y fx fy orZero default]. repeat split; reflexivity.
    + intros Hpos. exists (mkD3 (base n1)
        (Some (orZero (x n1) + deficit (Some qx))%Q)
        (Some (orZero (y n1) + deficit (Some qy))%Q) (fx n1) (fy n1)).
      split.
      * apply elem_of_map. exists n1. split; [reflexivity|exact Hn1].
      * unfold nodeLeft. cbn [x orZero default base].
        unfold deficit in Hpos |- *. unfold nodeLeft in Hq1.
        destruct (Qltb qx padding); [|lra]. rewrite Hq1.
        unfold Datatypes.id. ring.
    + intros Hpos. exists (mkD3 (base n2)
        (Some (orZero (x n2) + deficit (Some qx))%Q)
        (Some (orZero (y n2) + deficit (Some qy))%Q) (fx n2) (fy n2)).
      split.
      * apply elem_of_map. exists n2. split; [reflexivity|exact Hn2].
      * unfold nodeTop. cbn [y orZero default base].
        unfold deficit in Hpos |- *. unfold nodeTop in Hq2.
        destruct (Qltb qy padding); [|lra]. rewrite Hq2.
        unfold Datatypes.id. ring.
  - apply orb_false_iff in E as [Ex Ey].
    apply Qltb_ge in Ex. apply Qltb_ge in Ey.
    exists 0%Q, 0%Q. split; [lra|]. split; [lra|]. rewrite Heq.
    split; [|split; intros H; lra].
    clear. induction (a :: r) as [|b l IH]; constructor; [|exact IH].
    repeat split; ring.
Qed.

(** ** Columns of the layout *)

Lemma inject_Z_succ_le (a b : Z) : a + 1 <= b -> (inject_Z a + 1 <= inject_Z b)%Q.
Proof.
  intros H. change 1%Q with (inject_Z 1). rewrite <- inject_Z_plus.
  now rewrite <- Zle_Qle.
Qed.

Lemma inject_Z_nonneg (a : Z) : 0 <= a -> (0 <= inject_Z a)%Q.
Proof. intros H. change 0%Q with (inject_Z 0). now rewrite <- Zle_Qle. Qed.

(** Boxes already right of the padding keep their x through [normalize]. *)
Lemma normalize_keeps_x (l : list D3Node) (f : Node -> Q) :
  (forall n, n ∈ l ->
     exists vx, x n = Some vx /\ (vx == f (base n))%Q /\
                (padding <= vx - NODE_WIDTH / 2)%Q) ->
  forall n, n ∈ normalize l ->
    exists vx, x n = Some vx /\ (vx == f (base n))%Q.
Proof.
  intros Hl n Hn. destruct l as [|a r]; [inversion Hn|].
  destruct (normalize_cons a r)
    as (qx & qy & _ & _ & (n1 & Hn1 & Hq1) & _ & Heq).
  assert (Hx : deficit (Some qx) = 0%Q).
  { unfold deficit. destruct (Qltb qx padding) eqn:E; [|reflexivity].
    apply Qltb_lt in E. destruct (Hl n1 Hn1) as (vx & Hvx & _ & Hpad).
    exfalso. subst qx. unfold nodeLeft in E. rewrite Hvx in E.
    unfold orZero in E. cbn [default] in E. unfold Datatypes.id in E. lra. }
  rewrite Heq in Hn. rewrite Hx in Hn.
  destruct (Qltb 0 0 || Qltb 0 (deficit (Some qy))).
  - apply elem_of_map in Hn as (m & -> & Hm).
    destruct (Hl m Hm) as (vx & Hvx & Hf & _).
    exists (vx + 0)%Q. cbn [x base]. rewrite Hvx. split; [reflexivity|].
    rewrite <- Hf. ring.
  - destruct (Hl n Hn) as (vx & Hvx & Hf & _). eauto.
Qed.

Section Columns.

Variable sort_by : forall A : Type, (A -> Z) -> list A -> list A.
Hypothesis sort_by_stable : StableSort sort_by.

Lemma stackColumns_base (height : Q) (nodeOrder : gmap string Z)
    (groups : list (list (nat * Node))) (store : list D3Node) :
  map base (fold_left (stackColumn sort_by height nodeOrder) groups store)
  = map base store.
Proof.
  revert store. induction groups as [|g r IH]; intros store; [reflexivity|].
  cbn [fold_left]. rewrite IH. apply stackColumn_base.
Qed.

Lemma depths_nonneg (data : LineageData) (depths : gmap string Z) (n : Node) :
  nodeDepths sort_by data = Some depths -> n ∈ nodes data ->
  0 <= get0 depths (id n).
Proof.
  intros Hd Hn.
  destruct (depthLayers_sound sort_by sort_by_stable data)
    as (fd & ls & Heq & [Hlayers _ Hchain Hfinal Hcover _ _]).
  unfold nodeDepths in Hd. rewrite Heq in Hd. injection Hd as <-.
  cbn [fst]. destruct (Hcover n Hn) as (L & HL & Hid).
  rewrite (get0_Some _ _ _ (Hfinal L (id n) HL Hid)).
  pose proof (offsetsChain_ge 0 ls L Hchain Hlayers HL) as Hoff.
  rewrite Forall_forall in Hlayers. pose proof (Hlayers L HL) as Hok.
  rewrite (get0_Some _ _ _ (ok_fallback L Hok (id n) Hid)).
  pose proof (get0_nonneg (layer_queueDepths L) (id n) (ok_nonneg L Hok)).
  lia.
Qed.

(** The x of a laid-out node is that of its depth column. *)
Lemma layout_column (data : LineageData) (height : Q)
    (depths : gmap string Z) (ns : list D3Node) (n : D3Node) :
  nodeDepths sort_by data = Some depths ->
  computeLayout sort_by data height = Some ns -> n ∈ ns ->
  exists vx,
    x n = Some vx /\
    (vx == inject_Z (get0 depths (id (base n))) * (NODE_WIDTH + 120)
           + 50 + NODE_WIDTH / 2)%Q.
Proof.
  intros Hd Hl Hn. unfold computeLayout in Hl.
  destruct (nodes data) as [|a r] eqn:Hns; [injection Hl as <-; inversion Hn|].
  rewrite Hd in Hl. injection Hl as <-. clear a r Hns.
  revert n Hn. unfold placeNodes.
  apply (normalize_keeps_x _
           (fun b => inject_Z (get0 depths (id b)) * (NODE_WIDTH + 120)
                     + 50 + NODE_WIDTH / 2)%Q).
  intros n Hn. apply elem_of_map in Hn as (m & -> & Hm).
  unfold assignX, set_x, xSpacing. cbn [x base].
  eexists. split; [reflexivity|]. split; [reflexivity|].
  assert (Hb : base m ∈ nodes data).
  { assert (H : base m ∈ map base
                  (fold_left (stackColumn sort_by height (nodeOrderOf data))
                     (map snd (groupByDepth depths (nodes data) 0 []))
                     (copyNodes (nodes data))))
      by (apply elem_of_map; eauto).
    rewrite stackColumns_base in H. unfold copyNodes in H.
    rewrite map_map in H. cbn [base] in H. now rewrite map_id in H. }
  pose proof (inject_Z_nonneg _ (depths_nonneg data depths (base m) Hd Hb)).
  unfold padding, NODE_WIDTH. lra.
Qed.

End Columns.

(** ** The components are closed under the edges *)

(** What the edges push to the adjacency list of [u], in order. *)
Fixpoint links (E : list Edge) (u : string) : list string :=
  match E with
  | [] => []
  | e :: r =>
      (if decide (sourceNodeId e = u) then [targetNodeId e] else [])
      ++ (if decide (targetNodeId e = u) then [sourceNodeId e] else [])
      ++ links r u
  end.

Lemma elem_of_links (E : list Edge) (u v : string) :
  v ∈ links E u <->
  exists e, e ∈ E /\
            ((sourceNodeId e = u /\ targetNodeId e = v) \/
             (targetNodeId e = u /\ sourceNodeId e = v)).
Proof.
  induction E as [|e r IH]; simpl.
  - split; [intros H; inversion H|intros (e & H & _); inversion H].
  - rewrite !elem_of_app, IH. split.
    + intros [H|[H|(e' & He' & H)]].
      * destruct (decide (sourceNodeId e = u)); [|inversion H].
        apply list_elem_of_singleton in H as ->.
        exists e. split; [left|]. now left.
      * destruct (decide (targetNodeId e = u)); [|inversion H].
        apply list_elem_of_singleton in H as ->.
        exists e. split; [left|]. now right.
      * exists e'. split; [now right|exact H].
    + intros (e' & He' & H). apply elem_of_cons in He' as [->|He'].
      * destruct H as [[<- <-]|[<- <-]].
        -- left. rewrite decide_True by reflexivity. left.
        -- right. left. rewrite decide_True by reflexivity. left.
      * right. right. eauto.
Qed.

Lemma links_sym (E : list Edge) (u v : string) : v ∈ links E u -> u ∈ links E v.
Proof.
  rewrite !elem_of_links. intros (e & He & H). exists e. tauto.
Qed.

Lemma adjEdges_fold (E : list Edge) (adj0 : gmap string (list string))
    (u : string) :
  fold_left
    (fun adj edge =>
       pushTo (targetNodeId edge) (sourceNodeId edge)
         (pushTo (sourceNodeId edge) (targetNodeId edge) adj)) E adj0 !! u
  = (fun l => l ++ links E u) <$> adj0 !! u.
Proof.
  revert adj0. induction E as [|e r IH]; intros adj0; cbn [fold_left links].
  - destruct (adj0 !! u); simpl; [now rewrite app_nil_r|reflexivity].
  - rewrite IH, !pushTo_lookup.
    destruct (decide (targetNodeId e = u)), (decide (sourceNodeId e = u)),
      (adj0 !! u); simpl; try reflexivity; now rewrite <- ?app_assoc.
Qed.

Lemma adjNodes_fold (ns : list Node) (adj0 : gmap string (list string))
    (u : string) :
  fold_left (fun adj node => <[id node := []]> adj) ns adj0 !! u
  = if decide (u ∈ map id ns) then Some [] else adj0 !! u.
Proof.
  revert adj0. induction ns as [|n r IH]; intros adj0; cbn [fold_left map].
  - rewrite decide_False; [reflexivity|]. intros H. inversion H.
  - rewrite IH. destruct (decide (u ∈ map id r)) as [Hr|Hr].
    + rewrite decide_True; [reflexivity|now right].
    + destruct (decide (id n = u)) as [<-|Hne].
      * rewrite lookup_insert_eq, decide_True; [reflexivity|left].
      * rewrite lookup_insert_ne by exact Hne.
        rewrite decide_False; [reflexivity|].
        intros H. apply elem_of_cons in H as [H|H]; congruence.
Qed.

(** The adjacency list of a node id holds the other ends of the edges at
    that id; ids of no node have no list. *)
Lemma buildAdj_lookup (data : LineageData) (u : string) :
  buildAdj data !! u =
  if decide (u ∈ map id (nodes data)) then Some (links (edges data) u)
  else None.
Proof.
  unfold buildAdj. rewrite adjEdges_fold, adjNodes_fold.
  destruct (decide (u ∈ map id (nodes data))); reflexivity.
Qed.

Section Closure.

Variables (ns : list Node) (adj : gmap string (list string)).

(** The neighbours of the nodes of [P] have all been met. *)
Definition closedIn (visited : gset string) (P : list Node) : Prop :=
  forall u v, u ∈ map id P -> v ∈ default [] (adj !! u) -> v ∈ visited.

Lemma visit_grows (st : gset string * list Node) (vId : string) :
  fst st ⊆ fst (visit ns st vId) /\ vId ∈ fst (visit ns st vId).
Proof.
  destruct st as [visited queue]. unfold visit.
  destruct (decide (vId ∈ visited)); [simpl; now split|].
  destruct (findNode ns vId); simpl; split;
    solve [apply union_subseteq_r
          |apply elem_of_union; left; now apply elem_of_singleton].
Qed.

Lemma fold_visit_grows (vIds : list string) (st : gset string * list Node) :
  fst st ⊆ fst (fold_left (visit ns) vIds st) /\
  forall v, v ∈ vIds -> v ∈ fst (fold_left (visit ns) vIds st).
Proof.
  revert st. induction vIds as [|a r IH]; intros st; cbn [fold_left].
  - split; [done|]. intros v H. inversion H.
  - destruct (IH (visit ns st a)) as [H1 H2].
    destruct (visit_grows st a) as [H3 H4].
    split; [now transitivity (fst (visit ns st a))|].
    intros v Hv. apply elem_of_cons in Hv as [->|Hv];
      [now apply H1|now apply H2].
Qed.

Lemma bfs_closed (fuel : nat) (visited : gset string)
    (pending component : list Node) (visited' : gset string)
    (component' : list Node) :
  bfs fuel ns adj visited pending component = Some (visited', component') ->
  closedIn visited component ->
  visited ⊆ visited' /\ closedIn visited' component'.
Proof.
  revert visited pending component.
  induction fuel as [|fuel IH]; intros visited pending component Hb Hc.
  - destruct pending; [|discriminate]. injection Hb as <- <-. auto.
  - destruct pending as [|uNode rest]; [injection Hb as <- <-; auto|].
    cbn [bfs] in Hb.
    pose proof (fold_visit_grows (default [] (adj !! id uNode)) (visited, rest))
      as [H1 H2].
    destruct (fold_left (visit ns) (default [] (adj !! id uNode))
                (visited, rest)) as [v1 q1].
    cbn [fst] in H1, H2. apply IH in Hb as [H3 H4].
    + split; [now transitivity v1|exact H4].
    + intros u v Hu Hv. rewrite map_app, elem_of_app in Hu.
      destruct Hu as [Hu|Hu].
      * apply H1. now apply (Hc u v).
      * simpl in Hu. apply list_elem_of_singleton in Hu as ->. now apply H2.
Qed.

Hypothesis adj_sym :
  forall u v, v ∈ map id ns -> v ∈ default [] (adj !! u) ->
              u ∈ default [] (adj !! v).

(** A neighbour that is a node lies in the same component. *)
Definition separated (comps : list (list Node)) : Prop :=
  forall c u v, c ∈ comps -> u ∈ map id c -> v ∈ default [] (adj !! u) ->
                v ∈ map id ns -> v ∈ map id c.

Lemma findComponents_closed (starts : list Node) (visited : gset string)
    (comps comps' : list (list Node)) :
  (forall s, s ∈ starts -> s ∈ ns) ->
  findComponents ns adj starts visited comps = Some comps' ->
  placed ns visited (concat comps) -> closedIn visited (concat comps) ->
  separated comps -> separated comps'.
Proof.
  revert visited comps.
  induction starts as [|s r IH]; intros visited comps Hs Hf Hp Hc Hsep.
  - injection Hf as <-. exact Hsep.
  - cbn [findComponents] in Hf.
    assert (Hr : forall s, s ∈ r -> s ∈ ns) by (intros; apply Hs; now right).
    destruct (decide (id s ∈ visited)) as [Hv|Hv]; [now apply (IH visited comps)|].
    assert (Hp0 : placed ns ({[id s]} ∪ visited) (concat comps ++ [] ++ [s])).
    { simpl. apply placed_snoc; [exact Hp| |exact Hv]. apply Hs. left. }
    destruct (bfs_placed ns adj (S (length ns)) _ _ _ _ Hp0)
      as (v1 & m1 & Hb & Hp1 & Hs1); [lia|].
    rewrite Hb in Hf. simpl in Hp1, Hf.
    apply bfs_closed in Hb as [_ Hc1]; [|intros u v Hu; inversion Hu].
    simpl in Hc1.
    assert (Hsub : visited ⊆ v1).
    { transitivity ({[id s]} ∪ visited); [apply union_subseteq_r|exact Hs1]. }
    apply (IH v1 (comps ++ [s :: m1])); auto.
    + rewrite concat_app. simpl. now rewrite app_nil_r.
    + rewrite concat_app. simpl. rewrite app_nil_r.
      intros u v Hu Hv'. rewrite map_app, elem_of_app in Hu.
      destruct Hu as [Hu|Hu]; [apply Hsub; now apply (Hc u v)|].
      now apply (Hc1 u v).
    + intros c u v Hcin Hu Hv' Hvn. apply elem_of_app in Hcin as [Hcin|Hcin];
        [now apply (Hsep c u v)|].
      apply list_elem_of_singleton in Hcin as ->.
      destruct Hp1 as (Hin1 & Hnd1 & Hiff1).
      assert (Hv1 : v ∈ v1) by now apply (Hc1 u v).
      assert (Hvin : v ∈ map id (concat comps ++ s :: m1)) by now apply Hiff1.
      rewrite map_app, elem_of_app in Hvin.
      destruct Hvin as [Hold|Hnew]; [exfalso|exact Hnew].
      assert (Hun : u ∈ map id ns).
      { apply elem_of_map in Hu as (n & -> & Hn). apply elem_of_map.
        exists n. split; [reflexivity|]. apply Hin1.
        apply elem_of_app. now right. }
      assert (Huv : u ∈ visited).
      { apply (Hc v u Hold). now apply adj_sym. }
      destruct Hp as (_ & _ & Hiff).
      assert (Huold : u ∈ map id (concat comps)) by now apply Hiff.
      rewrite map_app in Hnd1. apply NoDup_app in Hnd1 as (_ & Hdisj & _).
      exact (Hdisj u Huold Hu).
Qed.

End Closure.

(** An edge between two nodes of the graph stays inside one component. *)
Lemma findComponents_separated (data : LineageData)
    (comps : list (list Node)) (c : list Node) (e : Edge) :
  findComponents (nodes data) (buildAdj data) (nodes data) ∅ [] = Some comps ->
  c ∈ comps -> e ∈ edges data ->
  sourceNodeId e ∈ map id (nodes data) ->
  targetNodeId e ∈ map id (nodes data) ->
  sourceNodeId e ∈ map id c <-> targetNodeId e ∈ map id c.
Proof.
  intros Hf Hc He Hs Ht.
  assert (Hsep : separated (nodes data) (buildAdj data) comps).
  { apply (findComponents_closed (nodes data) (buildAdj data)) with
      (starts := nodes data) (visited := ∅) (comps := []); auto.
    - intros u v Hv Hin. rewrite buildAdj_lookup in Hin |- *.
      rewrite decide_True by exact Hv.
      destruct (decide (u ∈ map id (nodes data))); [|inversion Hin].
      simpl in *. now apply links_sym.
    - split; [|split].
      + intros n H. inversion H.
      + constructor.
      + intros k. simpl. split; [intros H; inversion H|].
        intros [H _]. now apply not_elem_of_empty in H.
    - intros u v H. inversion H.
    - intros c' u v H. inversion H. }
  split; intros H.
  - apply (Hsep c (sourceNodeId e) (targetNodeId e)); auto.
    rewrite buildAdj_lookup, decide_True by exact Hs. simpl.
    apply elem_of_links. exists e. split; [exact He|]. now left.
  - apply (Hsep c (targetNodeId e) (sourceNodeId e)); auto.
    rewrite buildAdj_lookup, decide_True by exact Ht. simpl.
    apply elem_of_links. exists e. split; [exact He|]. now right.
Qed.

(** ** The components are connected *)

Section Connected.

Variables (ns : list Node) (adj : gmap string (list string)) (s : string).

(** [v] is in the adjacency list of [u]. *)
Definition adjacent (u v : string) : Prop := v ∈ default [] (adj !! u).

Definition reached (L : list Node) : Prop :=
  forall n, n ∈ L -> rtc adjacent s (id n).

Lemma visit_reached (u vId : string) (visited : gset string)
    (queue : list Node) :
  rtc adjacent s u -> adjacent u vId -> reached queue ->
  reached (snd (visit ns (visited, queue) vId)).
Proof.
  intros Hu Hv Hq. unfold visit.
  destruct (decide (vId ∈ visited)) as [Hin|Hout]; [exact Hq|].
  destruct (findNode ns vId) as [vNode|] eqn:Hf; [|exact Hq].
  apply findNode_Some in Hf as [_ <-]. simpl.
  intros n Hn. apply elem_of_app in Hn as [Hn|Hn]; [now apply Hq|].
  apply list_elem_of_singleton in Hn as ->. now apply rtc_r with u.
Qed.

Lemma fold_visit_reached (u : string) (vIds : list string)
    (st : gset string * list Node) :
  rtc adjacent s u -> (forall v, v ∈ vIds -> adjacent u v) ->
  reached (snd st) ->
  reached (snd (fold_left (visit ns) vIds st)).
Proof.
  intros Hu. revert st.
  induction vIds as [|a r IH]; intros st Hall Hq; [exact Hq|].
  cbn [fold_left]. apply IH; [intros v Hv; apply Hall; now right|].
  destruct st as [visited queue]. apply (visit_reached u); auto.
  apply Hall. left.
Qed.

Lemma bfs_reached (fuel : nat) (visited : gset string)
    (pending component : list Node) (visited' : gset string)
    (component' : list Node) :
  bfs fuel ns adj visited pending component = Some (visited', component') ->
  reached (component ++ pending) -> reached component'.
Proof.
  revert visited pending component.
  induction fuel as [|fuel IH]; intros visited pending component Hb Hr.
  - destruct pending; [|discriminate]. injection Hb as <- <-.
    now rewrite app_nil_r in Hr.
  - destruct pending as [|uNode rest].
    { injection Hb as <- <-. now rewrite app_nil_r in Hr. }
    cbn [bfs] in Hb.
    assert (Hu : rtc adjacent s (id uNode)).
    { apply Hr. apply elem_of_app. right. left. }
    pose proof (fold_visit_reached (id uNode) (default [] (adj !! id uNode))
                  (visited, rest) Hu (fun v H => H)) as Hq.
    destruct (fold_left (visit ns) (default [] (adj !! id uNode))
                (visited, rest)) as [v1 q1].
    cbn [snd] in Hq. apply IH in Hb; [exact Hb|].
    intros n Hn. rewrite <- app_assoc in Hn.
    apply elem_of_app in Hn as [Hn|Hn].
    + apply Hr. apply elem_of_app. now left.
    + apply elem_of_cons in Hn as [->|Hn]; [exact Hu|].
      apply Hq; [|exact Hn].
      intros m Hm. apply Hr. apply elem_of_app. right. now right.
Qed.

End Connected.

(** Every component is what the search reaches from its first node. *)
Lemma findComponents_reached (ns : list Node) (adj : gmap string (list string))
    (starts : list Node) (visited : gset string)
    (comps comps' : list (list Node)) :
  (forall s, s ∈ starts -> s ∈ ns) ->
  findComponents ns adj starts visited comps = Some comps' ->
  placed ns visited (concat comps) ->
  (forall c, c ∈ comps ->
     exists s r, c = s :: r /\ reached adj (id s) c) ->
  forall c, c ∈ comps' -> exists s r, c = s :: r /\ reached adj (id s) c.
Proof.
  revert visited comps.
  induction starts as [|s r IH]; intros visited comps Hs Hf Hp Hall.
  - injection Hf as <-. exact Hall.
  - cbn [findComponents] in Hf.
    assert (Hr : forall s, s ∈ r -> s ∈ ns) by (intros; apply Hs; now right).
    destruct (decide (id s ∈ visited)) as [Hv|Hv]; [now apply (IH visited comps)|].
    assert (Hp0 : placed ns ({[id s]} ∪ visited) (concat comps ++ [] ++ [s])).
    { simpl. apply placed_snoc; [exact Hp| |exact Hv]. apply Hs. left. }
    destruct (bfs_placed ns adj (S (length ns)) _ _ _ _ Hp0)
      as (v1 & m1 & Hb & Hp1 & Hs1); [lia|].
    rewrite Hb in Hf. simpl in Hp1, Hf.
    apply (bfs_reached ns adj (id s)) in Hb.
    2:{ intros n Hn. simpl in Hn. apply list_elem_of_singleton in Hn as ->.
        constructor. }
    simpl in Hb.
    apply (IH v1 (comps ++ [s :: m1])); auto.
    + rewrite concat_app. simpl. now rewrite app_nil_r.
    + intros c Hc. apply elem_of_app in Hc as [Hc|Hc]; [now apply Hall|].
      apply list_elem_of_singleton in Hc as ->. eauto.
Qed.

(** ** The rounds of the depth assignment are the connected components *)

Section Partition.

Variable sort_by : forall A : Type, (A -> Z) -> list A -> list A.
Hypothesis sort_by_stable : StableSort sort_by.

(** The rounds are the components of the search, reordered, and only
    their nodes get a depth. *)
Lemma depthLayers_components (data : LineageData) (fd : gmap string Z)
    (layers : list Layer) :
  depthLayers sort_by data = Some (fd, layers) ->
  exists comps,
    findComponents (nodes data) (buildAdj data) (nodes data) ∅ [] = Some comps /\
    Permutation (map layer_nodes layers) comps /\
    (forall k, k ∉ map id (concat comps) -> fd !! k = None).
Proof.
  unfold depthLayers. destruct (nodes data) as [|n0 r0] eqn:Hns.
  - intros [= <- <-]. exists []. split; [reflexivity|].
    split; [reflexivity|]. intros k _. apply lookup_empty.
  - rewrite <- Hns.
    destruct (findComponents_spec data) as (comps & -> & _ & Hnd & _ & _).
    pose proof (StableSort_perm sort_by sort_by_stable (list Node)
                  (minOrder (nodeOrderOf data)) comps) as Hperm.
    set (sorted := sort_by (list Node) (minOrder (nodeOrderOf data)) comps) in *.
    assert (Hp : Permutation (map id (concat sorted)) (map id (concat comps)))
      by now apply Permutation_map, Permutation_concat.
    assert (Hnd' : NoDup (map id (concat sorted))) by now rewrite Hp.
    destruct (layerComponents_spec sort_by sort_by_stable data (nodeOrderOf data)
                sorted ∅ 0 [] Hnd')
      as (fd' & layers' & -> & Hmap & _ & _ & _ & Hout & _).
    intros [= <- <-]. exists comps. split; [reflexivity|].
    split; [now rewrite Hmap|].
    intros k Hk. rewrite Hout; [apply lookup_empty|]. now rewrite Hp.
Qed.

(** X8. The rounds split the node ids: no id is in two rounds or twice in
    one, the ids of the rounds are the ids of the graph, no round is
    empty, and the keys of the depths are the ids of the nodes, so that an
    edge end that is the id of no node has no depth. *)
Theorem components_partition_ids (data : LineageData)
    (depths : gmap string Z) (layers : list Layer) :
  depthLayers sort_by data = Some (depths, layers) ->
  NoDup (map id (concat (map layer_nodes layers))) /\
  (forall k, k ∈ map id (nodes data) <->
             exists L, L ∈ layers /\ k ∈ map id (layer_nodes L)) /\
  (forall L, L ∈ layers -> layer_nodes L <> []) /\
  (forall k, is_Some (depths !! k) <-> k ∈ map id (nodes data)).
Proof.
  intros Heq.
  destruct (depthLayers_components data depths layers Heq)
    as (comps & Hf & Hperm & Hkeys).
  destruct (findComponents_spec data)
    as (comps' & Hf' & Hmem & Hnd & Hcover & Hne).
  rewrite Hf in Hf'. injection Hf' as <-.
  assert (Hp : Permutation (map id (concat (map layer_nodes layers)))
                 (map id (concat comps)))
    by now apply Permutation_map, Permutation_concat.
  assert (Hids : forall k, k ∈ map id (nodes data) <->
                           k ∈ map id (concat comps)).
  { intros k. split.
    - intros Hk. apply elem_of_map in Hk as (n & -> & Hn). now apply Hcover.
    - intros Hk. apply elem_of_map in Hk as (n & -> & Hn).
      apply elem_of_concat in Hn as (c & Hn & Hc).
      apply elem_of_map. exists n. split; [reflexivity|].
      now apply (Hmem c). }
  split; [now rewrite Hp|]. split; [|split].
  - intros k. rewrite Hids, <- Hp. split.
    + intros Hk. apply elem_of_map in Hk as (n & -> & Hn).
      apply elem_of_concat in Hn as (c & Hn & Hc).
      apply elem_of_map in Hc as (L & -> & HL).
      exists L. split; [exact HL|]. apply elem_of_map. eauto.
    + intros (L & HL & Hk). apply elem_of_map in Hk as (n & -> & Hn).
      apply elem_of_map. exists n. split; [reflexivity|].
      apply elem_of_concat. exists (layer_nodes L). split; [exact Hn|].
      apply elem_of_map. eauto.
  - intros L HL Hnil. apply Hne. rewrite <- Hperm, <- Hnil.
    apply elem_of_map. eauto.
  - intros k. split.
    + intros [d Hd]. apply Hids.
      destruct (decide (k ∈ map id (concat comps))) as [Hin|Hout];
        [exact Hin|]. rewrite (Hkeys k Hout) in Hd. discriminate.
    + intros Hk.
      destruct (depthLayers_sound sort_by sort_by_stable data)
        as (fd & ls & Heq' & [_ _ _ Hfinal Hcov _ _]).
      rewrite Heq in Heq'. injection Heq' as <- <-.
      apply elem_of_map in Hk as (n & -> & Hn).
      destruct (Hcov n Hn) as (L & HL & Hid).
      rewrite (Hfinal L (id n) HL Hid). eauto.
Qed.

(** X9. An edge whose two ends are ids of nodes has both ends in one
    round: no edge joins two components. *)
Theorem components_closed_under_edges (data : LineageData)
    (depths : gmap string Z) (layers : list Layer) (L : Layer) (e : Edge) :
  depthLayers sort_by data = Some (depths, layers) ->
  L ∈ layers -> e ∈ edges data ->
  sourceNodeId e ∈ map id (nodes data) ->
  targetNodeId e ∈ map id (nodes data) ->
  sourceNodeId e ∈ map id (layer_nodes L) <->
  targetNodeId e ∈ map id (layer_nodes L).
Proof.
  intros Heq HL He Hs Ht.
  destruct (depthLayers_components data depths layers Heq)
    as (comps & Hf & Hperm & _).
  apply (findComponents_separated data comps); auto.
  rewrite <- Hperm. apply elem_of_map. eauto.
Qed.

(** X10. Every node of a round is joined to the first node of the round
    by a chain of edges, taken in either direction. *)
Theorem components_connected (data : LineageData)
    (depths : gmap string Z) (layers : list Layer) (L : Layer) :
  depthLayers sort_by data = Some (depths, layers) -> L ∈ layers ->
  exists s r,
    layer_nodes L = s :: r /\
    forall n, n ∈ layer_nodes L -> rtc (joined (edges data)) (id s) (id n).
Proof.
  intros Heq HL.
  destruct (depthLayers_components data depths layers Heq)
    as (comps & Hf & Hperm & _).
  assert (Hc : layer_nodes L ∈ comps).
  { rewrite <- Hperm. apply elem_of_map. eauto. }
  destruct (findComponents_reached (nodes data) (buildAdj data) (nodes data)
              ∅ [] comps) with (c := layer_nodes L)
    as (s & r & Hs & Hreach); auto.
  - split; [|split].
    + intros n H. inversion H.
    + constructor.
    + intros k. simpl. split; [intros H; inversion H|].
      intros [H _]. now apply not_elem_of_empty in H.
  - intros c H. inversion H.
  - exists s, r. split; [exact Hs|]. intros n Hn.
    specialize (Hreach n Hn).
    induction Hreach as [|u v w Huv _ IH]; [constructor|].
    apply rtc_l with v; [|exact IH].
    unfold adjacent in Huv. rewrite buildAdj_lookup in Huv.
    destruct (decide (u ∈ map id (nodes data))); [|inversion Huv].
    simpl in Huv. now apply elem_of_links in Huv.
Qed.

End Partition.

Lemma components_partition_ids_witness :
  NoDup (map id (concat (map layer_nodes (layersOf splitPair)))) /\
  (forall k, k ∈ map id (nodes splitPair) <->
             exists L, L ∈ layersOf splitPair /\ k ∈ map id (layer_nodes L)) /\
  (forall L, L ∈ layersOf splitPair -> layer_nodes L <> []) /\
  (forall k, is_Some (depthsOf splitPair !! k) <-> k ∈ map id (nodes splitPair)).
Proof.
  apply (components_partition_ids isort_by isort_by_stable splitPair).
  exact splitPair_layers.
Defined.

Lemma components_closed_under_edges_witness :
  "B" ∈ map id (layer_nodes (nthLayer cycleWithTail 0)) <->
  "D" ∈ map id (layer_nodes (nthLayer cycleWithTail 0)).
Proof.
  apply (components_closed_under_edges isort_by isort_by_stable cycleWithTail
           (depthsOf cycleWithTail) (layersOf cycleWithTail)
           (nthLayer cycleWithTail 0) (columnEdge "B" "D")
           cycleWithTail_layers).
  - vm_compute. left.
  - vm_compute. do 5 right. left.
  - vm_compute. do 2 right. left.
  - vm_compute. do 4 right. left.
Defined.

Lemma components_connected_witness :
  exists s r,
    layer_nodes (nthLayer cycleWithTail 0) = s :: r /\
    forall n, n ∈ layer_nodes (nthLayer cycleWithTail 0) ->
              rtc (joined (edges cycleWithTail)) (id s) (id n).
Proof.
  apply (components_connected isort_by isort_by_stable cycleWithTail
           (depthsOf cycleWithTail) (layersOf cycleWithTail)
           (nthLayer cycleWithTail 0) cycleWithTail_layers).
  vm_compute. left.
Defined.

(** ** Depth columns and the sides of the edges *)

Section Directions.

Variable sort_by : forall A : Type, (A -> Z) -> list A -> list A.
Hypothesis sort_by_stable : StableSort sort_by.

(** X11. In the layout, the x of a node is that of its depth column,
    [depth * (NODE_WIDTH + 120) + 50 + NODE_WIDTH / 2]: the normalization
    never moves the nodes sideways. Nodes of one depth share their x, and a
    node of a larger depth lies at least 376 further right. *)
Theorem layout_x_by_depth (data : LineageData) (height : Q)
    (depths : gmap string Z) (ns : list D3Node) :
  nodeDepths sort_by data = Some depths ->
  computeLayout sort_by data height = Some ns ->
  forall n, n ∈ ns ->
    exists vx,
      x n = Some vx /\
      (vx == inject_Z (get0 depths (id (base n))) * (NODE_WIDTH + 120)
             + 50 + NODE_WIDTH / 2)%Q /\
      forall m, m ∈ ns ->
        exists wx,
          x m = Some wx /\
          (get0 depths (id (base n)) = get0 depths (id (base m)) ->
           (vx == wx)%Q) /\
          (get0 depths (id (base n)) < get0 depths (id (base m)) ->
           (vx + 376 <= wx)%Q).
Proof.
  intros Hd Hl n Hn.
  destruct (layout_column sort_by sort_by_stable data height depths ns n Hd Hl Hn)
    as (vx & Hvx & Hfx).
  exists vx. split; [exact Hvx|]. split; [exact Hfx|].
  intros m Hm.
  destruct (layout_column sort_by sort_by_stable data height depths ns m Hd Hl Hm)
    as (wx & Hwx & Hfw).
  exists wx. split; [exact Hwx|]. split.
  - intros Heq. rewrite Hfx, Hfw, Heq. reflexivity.
  - intros Hlt. rewrite Hfx, Hfw.
    assert (H : (inject_Z (get0 depths (id (base n))) + 1
                 <= inject_Z (get0 depths (id (base m))))%Q)
      by (apply inject_Z_succ_le; lia).
    unfold NODE_WIDTH. lra.
Qed.

(** X12. In the layout, an edge between two nodes is drawn from the right
    side of its source to the left side of its target when the target has
    the larger depth, over at least 110 pixels, and from the left side of
    the source to the right side of the target otherwise. *)
Theorem layout_edge_sides (data : LineageData) (height : Q)
    (depths : gmap string Z) (ns : list D3Node) (e : Edge) (sn tn : D3Node) :
  nodeDepths sort_by data = Some depths ->
  computeLayout sort_by data height = Some ns ->
  nodeMapOf ns !! sourceNodeId e = Some sn ->
  nodeMapOf ns !! targetNodeId e = Some tn ->
  exists g sx tx,
    resolveEdgeGeometry (nodeMapOf ns) e = Some g /\
    x sn = Some sx /\ x tn = Some tx /\
    (get0 depths (sourceNodeId e) < get0 depths (targetNodeId e) ->
     x1 g = (sx + NODE_WIDTH / 2)%Q /\
     x2 g = (tx - NODE_WIDTH / 2 - markerOffset)%Q /\
     (x1 g + 110 <= x2 g)%Q) /\
    (get0 depths (targetNodeId e) <= get0 depths (sourceNodeId e) ->
     x1 g = (sx - NODE_WIDTH / 2)%Q /\
     x2 g = (tx + NODE_WIDTH / 2 + markerOffset)%Q).
Proof.
  intros Hd Hl Hs Ht.
  pose proof (nodeMapOf_lookup_Some ns _ _ Hs) as [Hsn Hsid].
  pose proof (nodeMapOf_lookup_Some ns _ _ Ht) as [Htn Htid].
  destruct (layout_column sort_by sort_by_stable data height depths ns sn Hd Hl Hsn)
    as (sx & Hsx & Hfs).
  destruct (layout_column sort_by sort_by_stable data height depths ns tn Hd Hl Htn)
    as (tx & Htx & Hft).
  rewrite Hsid in Hfs. rewrite Htid in Hft.
  destruct (reachable_positioned sort_by data height ns
              (reach_layout sort_by data height ns Hl) sn Hsn) as [_ [sy Hsy]].
  destruct (reachable_positioned sort_by data height ns
              (reach_layout sort_by data height ns Hl) tn Htn) as [_ [ty Hty]].
  unfold resolveEdgeGeometry. rewrite Hs, Ht, Hsx, Hsy, Htx, Hty.
  destruct (Qltb sx tx) eqn:E; eexists; exists sx, tx;
    (split; [reflexivity|]); (split; [reflexivity|]); (split; [reflexivity|]);
    cbn [x1 x2]; split; intros Hcmp.
  - split; [reflexivity|]. split; [reflexivity|].
    assert (H : (inject_Z (get0 depths (sourceNodeId e)) + 1
                 <= inject_Z (get0 depths (targetNodeId e)))%Q)
      by (apply inject_Z_succ_le; lia).
    clear E Hcmp. unfold markerOffset, NODE_WIDTH in *. halves. lra.
  - exfalso. apply Qltb_lt in E. rewrite Zle_Qle in Hcmp.
    unfold NODE_WIDTH in *. halves. lra.
  - exfalso. apply Qltb_ge in E.
    assert (H : (inject_Z (get0 depths (sourceNodeId e)) + 1
                 <= inject_Z (get0 depths (targetNodeId e)))%Q)
      by (apply inject_Z_succ_le; lia).
    clear Hcmp. unfold NODE_WIDTH in *. halves. lra.
  - split; reflexivity.
Qed.

(** X13. When the edges of the graph have no directed cycle, every edge
    between two nodes is drawn in the layout from the right side of its
    source to the left side of its target, which lies further right. *)
Theorem acyclic_edges_point_right (data : LineageData) (height : Q)
    (ns : list D3Node) (e : Edge) (sn tn : D3Node) :
  acyclicEdges (edges data) ->
  computeLayout sort_by data height = Some ns ->
  e ∈ edges data ->
  nodeMapOf ns !! sourceNodeId e = Some sn ->
  nodeMapOf ns !! targetNodeId e = Some tn ->
  exists g sx tx,
    resolveEdgeGeometry (nodeMapOf ns) e = Some g /\
    x sn = Some sx /\ x tn = Some tx /\
    x1 g = (sx + NODE_WIDTH / 2)%Q /\
    x2 g = (tx - NODE_WIDTH / 2 - markerOffset)%Q /\
    (x1 g + 110 <= x2 g)%Q.
Proof.
  intros (rank & Hrank) Hl He Hs Ht.
  destruct (depthLayers_sound sort_by sort_by_stable data)
    as (fd & ls & Heq & Hok).
  assert (Hd : nodeDepths sort_by data = Some fd)
    by (unfold nodeDepths; now rewrite Heq).
  pose proof (nodeMapOf_lookup_Some ns _ _ Hs) as [Hsn Hsid].
  pose proof (nodeMapOf_lookup_Some ns _ _ Ht) as [Htn Htid].
  assert (Hbase : map base ns = nodes data).
  { unfold computeLayout in Hl. destruct (nodes data) eqn:Hns;
      [now injection Hl as <-|].
    rewrite Hd in Hl. injection Hl as <-. rewrite <- Hns.
    apply placeNodes_base. }
  assert (Hids : forall n, n ∈ ns -> id (base n) ∈ map id (nodes data)).
  { intros n Hn. rewrite <- Hbase, map_map. apply elem_of_map. eauto. }
  pose proof (Hids sn Hsn) as Hsin. pose proof (Hids tn Htn) as Htin.
  rewrite Hsid in Hsin. rewrite Htid in Htin.
  destruct (depthLayers_components sort_by sort_by_stable data fd ls Heq)
    as (comps & Hf & Hperm & _).
  destruct Hok as [Hlayers Hedges _ Hfinal Hcover _ _].
  apply elem_of_map in Hsin as (n0 & Hn0 & Hn0in).
  destruct (Hcover n0 Hn0in) as (L & HL & HsL). rewrite <- Hn0 in HsL.
  assert (Hsin : sourceNodeId e ∈ map id (nodes data))
    by (rewrite Hn0; apply elem_of_map; eauto).
  assert (HtL : targetNodeId e ∈ map id (layer_nodes L)).
  { apply (findComponents_separated data comps (layer_nodes L) e); auto.
    rewrite <- Hperm. apply elem_of_map. eauto. }
  rewrite Forall_forall in Hlayers. pose proof (Hlayers L HL) as HokL.
  assert (He' : e ∈ layer_edges L).
  { rewrite (Hedges L HL). apply componentEdgesOf_closed. auto. }
  assert (Hdeq : sourceNodeId e ∈ layer_dequeued L).
  { apply acyclic_all_dequeued; try done.
    - intros e0 He0. rewrite (Hedges L HL) in He0.
      now apply componentEdgesOf_closed in He0.
    - exists rank. intros e0 He0. apply Hrank.
      rewrite (Hedges L HL) in He0. now apply componentEdgesOf_closed in He0. }
  pose proof (ok_edges L HokL e He' Hdeq) as Hmono.
  assert (Hlt : get0 fd (sourceNodeId e) < get0 fd (targetNodeId e)).
  { rewrite (get0_Some _ _ _ (Hfinal L _ HL HsL)).
    rewrite (get0_Some _ _ _ (Hfinal L _ HL HtL)). lia. }
  destruct (layout_column sort_by sort_by_stable data height fd ns sn Hd Hl Hsn)
    as (sx & Hsx & Hfs).
  destruct (layout_column sort_by sort_by_stable data height fd ns tn Hd Hl Htn)
    as (tx & Htx & Hft).
  rewrite Hsid in Hfs. rewrite Htid in Hft.
  destruct (reachable_positioned sort_by data height ns
              (reach_layout sort_by data height ns Hl) sn Hsn) as [_ [sy Hsy]].
  destruct (reachable_positioned sort_by data height ns
              (reach_layout sort_by data height ns Hl) tn Htn) as [_ [ty Hty]].
  assert (H : (inject_Z (get0 fd (sourceNodeId e)) + 1
               <= inject_Z (get0 fd (targetNodeId e)))%Q)
    by (apply inject_Z_succ_le; lia).
  assert (E : Qltb sx tx = true).
  { apply Qltb_lt. clear Hlt Hmono. unfold NODE_WIDTH in *. halves. lra. }
  unfold resolveEdgeGeometry. rewrite Hs, Ht, Hsx, Hsy, Htx, Hty, E.
  eexists. exists sx, tx. split; [reflexivity|].
  split; [reflexivity|]. split; [reflexivity|]. cbn [x1 x2].
  split; [reflexivity|]. split; [reflexivity|].
  clear E Hlt Hmono. unfold markerOffset, NODE_WIDTH in *. halves. lra.
Qed.

End Directions.

Lemma chain_depths_run : nodeDepths isort_by chain = Some (depthsOf chain).
Proof. vm_compute. reflexivity. Qed.

Lemma chain_layout :
  computeLayout isort_by chain 600 = Some (layoutOf chain 600).
Proof. vm_compute. reflexivity. Qed.

Lemma chain_acyclic : acyclicEdges (edges chain).
Proof.
  exists (fun k => if String.eqb k "A" then 0%nat
                   else if String.eqb k "B" then 1%nat else 2%nat).
  intros e He. unfold chain in He. cbn [edges] in He.
  apply elem_of_cons in He as [->|He]; [vm_compute; lia|].
  apply list_elem_of_singleton in He as ->. vm_compute. lia.
Qed.

Lemma layout_x_by_depth_witness :
  exists vx,
    x (nthNode (layoutOf chain 600) 1) = Some vx /\
    (vx == inject_Z (get0 (depthsOf chain)
                       (id (base (nthNode (layoutOf chain 600) 1))))
           * (NODE_WIDTH + 120) + 50 + NODE_WIDTH / 2)%Q /\
    forall m, m ∈ layoutOf chain 600 ->
      exists wx,
        x m = Some wx /\
        (get0 (depthsOf chain) (id (base (nthNode (layoutOf chain 600) 1)))
         = get0 (depthsOf chain) (id (base m)) -> (vx == wx)%Q) /\
        (get0 (depthsOf chain) (id (base (nthNode (layoutOf chain 600) 1)))
         < get0 (depthsOf chain) (id (base m)) -> (vx + 376 <= wx)%Q).
Proof.
  apply (layout_x_by_depth isort_by isort_by_stable chain 600 (depthsOf chain)
           (layoutOf chain 600) chain_depths_run chain_layout).
  vm_compute. right. left.
Defined.

Lemma layout_edge_sides_witness :
  exists g sx tx,
    resolveEdgeGeometry (nodeMapOf (layoutOf chain 600)) (columnEdge "B" "A")
    = Some g /\
    x (nthNode (layoutOf chain 600) 1) = Some sx /\
    x (nthNode (layoutOf chain 600) 0) = Some tx /\
    (get0 (depthsOf chain) "B" < get0 (depthsOf chain) "A" ->
     x1 g = (sx + NODE_WIDTH / 2)%Q /\
     x2 g = (tx - NODE_WIDTH / 2 - markerOffset)%Q /\
     (x1 g + 110 <= x2 g)%Q) /\
    (get0 (depthsOf chain) "A" <= get0 (depthsOf chain) "B" ->
     x1 g = (sx - NODE_WIDTH / 2)%Q /\
     x2 g = (tx + NODE_WIDTH / 2 + markerOffset)%Q).
Proof.
  apply (layout_edge_sides isort_by isort_by_stable chain 600 (depthsOf chain)
           (layoutOf chain 600) (columnEdge "B" "A")
           (nthNode (layoutOf chain 600) 1) (nthNode (layoutOf chain 600) 0)
           chain_depths_run chain_layout).
  - vm_compute. reflexivity.
  - vm_compute. reflexivity.
Defined.

Lemma acyclic_edges_point_right_witness :
  exists g sx tx,
    resolveEdgeGeometry (nodeMapOf (layoutOf chain 600)) (columnEdge "B" "C")
    = Some g /\
    x (nthNode (layoutOf chain 600) 1) = Some sx /\
    x (nthNode (layoutOf chain 600) 2) = Some tx /\
    x1 g = (sx + NODE_WIDTH / 2)%Q /\
    x2 g = (tx - NODE_WIDTH / 2 - markerOffset)%Q /\
    (x1 g + 110 <= x2 g)%Q.
Proof.
  apply (acyclic_edges_point_right isort_by isort_by_stable chain 600
           (layoutOf chain 600) (columnEdge "B" "C")
           (nthNode (layoutOf chain 600) 1) (nthNode (layoutOf chain 600) 2)
           chain_acyclic chain_layout).
  - vm_compute. right. left.
  - vm_compute. reflexivity.
  - vm_compute. reflexivity.
Defined.

(** ** The depths of a component leave no column empty *)

Section Tight.

Variable sort_by : forall A : Type, (A -> Z) -> list A -> list A.
Hypothesis sort_by_stable : StableSort sort_by.

Variables (nodeOrder : gmap string Z) (E : list Edge)
  (compAdj : gmap string (list string)).
Hypothesis compAdj_sound :
  forall u l v, compAdj !! u = Some l -> v ∈ l ->
                exists e, e ∈ E /\ sourceNodeId e = u /\ targetNodeId e = v.

(** A depth that is not 0 was written along an edge out of a node of [P],
    as one more than the depth that node had then. *)
Definition slack (P : list string) (D : gmap string Z) : Prop :=
  forall v d, D !! v = Some d ->
    d = 0 \/
    exists e, e ∈ E /\ targetNodeId e = v /\ sourceNodeId e ∈ P /\
              d <= get0 D (sourceNodeId e) + 1.

Lemma relax_slack (P : list string) (u v : string) (ud : Z)
    (D I : gmap string Z) (Q : list string) :
  u ∈ P -> ud <= get0 D u ->
  (exists e, e ∈ E /\ sourceNodeId e = u /\ targetNodeId e = v) ->
  slack P D ->
  slack P (fst (fst (relax ud (D, I, Q) v))) /\
  ud <= get0 (fst (fst (relax ud (D, I, Q) v))) u.
Proof.
  intros Hu Hud (e & He & Hs & Ht) Hsl. unfold relax. cbn [fst].
  set (D' := <[v := Z.max (get0 D v) (ud + 1)]> D).
  assert (Hmono : forall w, get0 D w <= get0 D' w).
  { intros w. unfold D'. rewrite get0_insert. destruct (decide _) as [->|]; lia. }
  split; [|specialize (Hmono u); lia].
  intros k d Hk. unfold D' in Hk. destruct (decide (v = k)) as [<-|Hne].
  - rewrite lookup_insert_eq in Hk. injection Hk as <-.
    destruct (Z.max_spec (get0 D v) (ud + 1)) as [[_ ->]|[Hlt ->]].
    + right. exists e. split; [exact He|]. split; [exact Ht|].
      rewrite Hs. split; [exact Hu|]. specialize (Hmono u). lia.
    + destruct (D !! v) as [d|] eqn:Hv.
      * rewrite (get0_Some _ _ _ Hv).
        destruct (Hsl v d Hv) as [H0|(e' & He' & Ht' & Hs' & Hle)];
          [now left|].
        right. exists e'. split; [exact He'|]. split; [exact Ht'|].
        split; [exact Hs'|]. specialize (Hmono (sourceNodeId e')). lia.
      * left. apply (get0_None _ _ Hv).
  - rewrite lookup_insert_ne in Hk by exact Hne.
    destruct (Hsl k d Hk) as [H0|(e' & He' & Ht' & Hs' & Hle)]; [now left|].
    right. exists e'. split; [exact He'|]. split; [exact Ht'|].
    split; [exact Hs'|]. specialize (Hmono (sourceNodeId e')). lia.
Qed.

Lemma relax_fold_slack (P : list string) (u : string) (ud : Z)
    (rem : list string) (D I : gmap string Z) (Q : list string) :
  u ∈ P -> ud <= get0 D u ->
  (forall v, v ∈ rem ->
     exists e, e ∈ E /\ sourceNodeId e = u /\ targetNodeId e = v) ->
  slack P D ->
  slack P (fst (fst (fold_left (relax ud) rem (D, I, Q)))).
Proof.
  intros Hu. revert D I Q.
  induction rem as [|v rem IH]; intros D I Q Hud Hrem Hsl; [exact Hsl|].
  cbn [fold_left].
  destruct (relax_slack P u v ud D I Q Hu Hud (Hrem v ltac:(left)) Hsl)
    as [Hsl' Hud'].
  destruct (relax ud (D, I, Q) v) as [[D1 I1] Q1]. cbn [fst] in Hsl', Hud'.
  apply IH; [exact Hud'| |exact Hsl'].
  intros w Hw. apply Hrem. now right.
Qed.

Lemma slack_mono (P P' : list string) (D : gmap string Z) :
  (forall k, k ∈ P -> k ∈ P') -> slack P D -> slack P' D.
Proof.
  intros Hsub Hsl v d Hv.
  destruct (Hsl v d Hv) as [H0|(e & He & Ht & Hs & Hle)]; [now left|].
  right. exists e. auto.
Qed.

Lemma kahn_slack (fuel : nat) (Q : list string) (D I : gmap string Z)
    (P : list string) (D' : gmap string Z) (P' : list string) :
  kahn sort_by fuel nodeOrder compAdj Q D I P = Some (D', P') ->
  slack P D -> slack P' D'.
Proof.
  revert Q D I P. induction fuel as [|fuel IH]; intros Q D I P Hk Hsl.
  - destruct Q; [|discriminate]. now injection Hk as <- <-.
  - destruct Q as [|u rest]; [now injection Hk as <- <-|].
    cbn [kahn] in Hk.
    pose proof (relax_fold_slack (P ++ [u]) u (get0 D u)
                  (sort_by string (get0 nodeOrder) (default [] (compAdj !! u)))
                  D I rest) as Hfold.
    destruct (fold_left (relax (get0 D u))
                (sort_by string (get0 nodeOrder) (default [] (compAdj !! u)))
                (D, I, rest)) as [[D1 I1] Q1].
    cbn [fst] in Hfold. apply IH in Hk; [exact Hk|].
    apply Hfold.
    + apply elem_of_app. right. left.
    + lia.
    + intros v Hv.
      rewrite (StableSort_perm sort_by sort_by_stable string (get0 nodeOrder))
        in Hv.
      destruct (compAdj !! u) as [l|] eqn:Hl; [|inversion Hv].
      now apply (compAdj_sound u l v).
    + apply (slack_mono P); [|exact Hsl].
      intros k Hk'. apply elem_of_app. now left.
Qed.

End Tight.

(** A depth of the round that is not 0 was written along an edge of the
    round out of a dequeued node. *)
Definition slackLayer (L : Layer) : Prop :=
  slack (layer_edges L) (layer_dequeued L) (layer_depths L).

Section TightRounds.

Variable sort_by : forall A : Type, (A -> Z) -> list A -> list A.
Hypothesis sort_by_stable : StableSort sort_by.

Lemma layerComponent_slack (data : LineageData) (nodeOrder : gmap string Z)
    (c : list Node) (fd : gmap string Z) (off : Z)
    (fd' : gmap string Z) (off' : Z) (L : Layer) :
  layerComponent sort_by data nodeOrder c fd off = Some (fd', off', L) ->
  slackLayer L.
Proof.
  unfold layerComponent.
  set (E := componentEdgesOf data c).
  pose proof (initDegrees_fold c ∅ ∅) as Hinit. cbv zeta in Hinit.
  fold (initDegrees c) in Hinit.
  destruct (initDegrees c) as [I0 A0]. cbn [fst snd] in Hinit.
  destruct Hinit as [_ HA0].
  pose proof (countEdges_fold E I0 A0) as Hcount. cbv zeta in Hcount.
  destruct (countEdges E (I0, A0)) as [I A]. cbn [fst snd] in Hcount.
  destruct Hcount as (_ & _ & HA).
  pose proof (seedQueue_fold I c [] ∅) as Hseed. cbv zeta in Hseed.
  fold (seedQueue I c) in Hseed.
  destruct (seedQueue I c) as [q D0]. cbn [fst snd] in Hseed.
  destruct Hseed as [_ HD0].
  destruct (kahn sort_by (length c) nodeOrder A
              (sort_by string (get0 nodeOrder) q) D0 I [])
    as [[D P]|] eqn:Hk; [|discriminate].
  pose proof (finish_fold off c D fd 0) as Hfin. cbv zeta in Hfin.
  destruct (fold_left (finish off) c (D, fd, 0)) as [[D' fd1] mx].
  cbn [fst snd] in Hfin. destruct Hfin as (HD' & _).
  intros [= <- <- <-]. unfold slackLayer.
  cbn [layer_edges layer_dequeued layer_depths].
  assert (Hsl : slack E P D).
  { apply (kahn_slack sort_by sort_by_stable nodeOrder E A) with
      (fuel := length c) (Q := sort_by string (get0 nodeOrder) q)
      (D := D0) (I := I) (P := []); [|exact Hk|].
    - intros u l v Hl Hv. rewrite HA, HA0 in Hl.
      destruct (decide (u ∈ map id c)); [|discriminate].
      simpl in Hl. injection Hl as <-. now apply elem_of_outs in Hv.
    - intros v d Hv. rewrite HD0, lookup_empty in Hv.
      destruct (decide _); [|discriminate]. injection Hv as <-. now left. }
  assert (Hget : forall k, get0 D' k = get0 D k).
  { intros k. unfold get0 at 1. rewrite HD'. destruct (decide _); reflexivity. }
  intros v d Hv. rewrite HD' in Hv.
  assert (Hcase : d = 0 \/ D !! v = Some d).
  { destruct (decide (v ∈ map id c)); [|now right].
    injection Hv as <-. unfold get0. destruct (D !! v); simpl; auto. }
  destruct Hcase as [H0|HDv]; [now left|].
  destruct (Hsl v d HDv) as [H0|(e & He & Ht & Hs & Hle)]; [now left|].
  right. exists e. rewrite Hget. auto.
Qed.

Lemma layerComponents_slack (data : LineageData) (nodeOrder : gmap string Z)
    (comps : list (list Node)) (fd : gmap string Z) (off : Z)
    (layers : list Layer) (fd' : gmap string Z) (layers' : list Layer) :
  layerComponents sort_by data nodeOrder comps fd off layers
  = Some (fd', layers') ->
  Forall slackLayer layers -> Forall slackLayer layers'.
Proof.
  revert fd off layers.
  induction comps as [|c r IH]; intros fd off layers Heq Hall.
  - now injection Heq as <- <-.
  - cbn [layerComponents] in Heq.
    destruct (layerComponent sort_by data nodeOrder c fd off)
      as [[[fd1 off1] L]|] eqn:Hc; [|discriminate].
    apply IH in Heq; [exact Heq|].
    apply Forall_app. split; [exact Hall|].
    constructor; [|constructor]. now apply layerComponent_slack in Hc.
Qed.

Lemma depthLayers_slack (data : LineageData) (fd : gmap string Z)
    (layers : list Layer) :
  depthLayers sort_by data = Some (fd, layers) -> Forall slackLayer layers.
Proof.
  unfold depthLayers. destruct (nodes data); [intros [= <- <-]; constructor|].
  destruct (findComponents _ _ _ _ _); [|discriminate].
  intros Heq. apply layerComponents_slack in Heq; [exact Heq|constructor].
Qed.

(** The depths of a round, counted from its offset: they lie between 0
    and the maximum, a node that is not at 0 has an edge of the round into
    it from a node one column before, and every column up to the maximum
    holds a node. *)
Lemma layer_levels (data : LineageData) (depths : gmap string Z)
    (layers : list Layer) (L : Layer) :
  depthLayers sort_by data = Some (depths, layers) -> L ∈ layers ->
  (forall n, n ∈ layer_nodes L ->
     depths !! id n = Some (get0 (layer_depths L) (id n) + layer_offset L) /\
     0 <= get0 (layer_depths L) (id n) <= layer_maxDepth L) /\
  (forall n, n ∈ layer_nodes L -> get0 (layer_depths L) (id n) <> 0 ->
     exists e m,
       e ∈ layer_edges L /\ e ∈ edges data /\ targetNodeId e = id n /\
       m ∈ layer_nodes L /\ sourceNodeId e = id m /\
       get0 (layer_depths L) (id n) = get0 (layer_depths L) (id m) + 1) /\
  (forall j, 0 <= j <= layer_maxDepth L ->
     exists m, m ∈ layer_nodes L /\ get0 (layer_depths L) (id m) = j).
Proof.
  intros Heq HL.
  pose proof (depthLayers_slack data depths layers Heq) as Hslack.
  rewrite Forall_forall in Hslack. specialize (Hslack L HL).
  destruct (depthLayers_sound sort_by sort_by_stable data)
    as (fd & ls & Heq' & [Hlayers Hedges _ Hfinal _ _ _]).
  rewrite Heq in Heq'. injection Heq' as <- <-.
  rewrite Forall_forall in Hlayers. pose proof (Hlayers L HL) as Hok.
  destruct (depthLayers_components sort_by sort_by_stable data depths layers Heq)
    as (comps & Hf & Hperm & _).
  destruct (findComponents_spec data) as (comps' & Hf' & _ & _ & _ & Hne).
  rewrite Hf in Hf'. injection Hf' as <-.
  set (rel := fun k => get0 (layer_depths L) k).
  assert (Hin : forall n, n ∈ layer_nodes L -> id n ∈ map id (layer_nodes L)).
  { intros n Hn. apply elem_of_map. eauto. }
  assert (Hrange : forall n, n ∈ layer_nodes L ->
                     0 <= rel (id n) <= layer_maxDepth L).
  { intros n Hn. split; [|now apply ok_max_bound, Hin].
    unfold rel. rewrite (get0_Some _ _ _ (ok_fallback L Hok _ (Hin n Hn))).
    apply get0_nonneg, (ok_nonneg L Hok). }
  assert (Hpred : forall n, n ∈ layer_nodes L -> rel (id n) <> 0 ->
            exists e m, e ∈ layer_edges L /\ e ∈ edges data /\
                        targetNodeId e = id n /\
                        m ∈ layer_nodes L /\ sourceNodeId e = id m /\
                        rel (id n) = rel (id m) + 1).
  { intros n Hn Hnz.
    pose proof (ok_fallback L Hok _ (Hin n Hn)) as Hfb.
    destruct (Hslack (id n) _ Hfb) as [H0|(e & He & Ht & Hs & Hle)].
    { exfalso. apply Hnz. unfold rel. now rewrite (get0_Some _ _ _ Hfb). }
    pose proof (ok_edges L Hok e He Hs) as Hge. rewrite Ht in Hge.
    destruct (ok_dequeued_known L Hok _ Hs) as [Hsin _].
    apply elem_of_map in Hsin as (m & Hm & Hmin).
    exists e, m. split; [exact He|]. rewrite (Hedges L HL) in He.
    apply componentEdgesOf_closed in He as (He & _ & _).
    split; [exact He|]. split; [exact Ht|]. split; [exact Hmin|].
    split; [exact Hm|]. unfold rel.
    rewrite (get0_Some _ _ _ Hfb) in Hge |- *. rewrite <- Hm. lia. }
  assert (Hdown : forall (k : nat) n, n ∈ layer_nodes L ->
            rel (id n) = Z.of_nat k ->
            forall j, 0 <= j <= Z.of_nat k ->
              exists m, m ∈ layer_nodes L /\ rel (id m) = j).
  { induction k as [|k IH]; intros n Hn Hk j Hj.
    - exists n. split; [exact Hn|lia].
    - destruct (decide (j = Z.of_nat (S k))) as [->|Hlt]; [eauto|].
      destruct (Hpred n Hn) as (e & m & _ & _ & _ & Hm & _ & Hrel); [lia|].
      apply (IH m Hm); lia. }
  split; [|split; [exact Hpred|]].
  - intros n Hn. split; [now apply Hfinal, Hin|now apply Hrange].
  - intros j Hj.
    destruct (ok_max_attained L Hok) as [H0|(k & Hk & Hmax)].
    + destruct (layer_nodes L) as [|n r] eqn:Hnodes.
      * exfalso. apply Hne. rewrite <- Hperm, <- Hnodes.
        apply elem_of_map. eauto.
      * exists n. split; [left|].
        assert (Hn : n ∈ n :: r) by left. specialize (Hrange n Hn). lia.
    + apply elem_of_map in Hk as (n & -> & Hn).
      apply (Hdown (Z.to_nat (layer_maxDepth L)) n Hn).
      * unfold rel. rewrite <- Hmax. pose proof (ok_max_nonneg L Hok). lia.
      * lia.
Qed.

(** X14. In the depths of a component, counted from the offset of the
    component: a node that is not in the first column has an edge into it
    from a node of the component that is exactly one column before it;
    every column from 0 to the last one holds a node; and the last column
    has a number smaller than the number of nodes of the component. *)
Theorem depths_are_tight (data : LineageData) (depths : gmap string Z)
    (layers : list Layer) (L : Layer) :
  depthLayers sort_by data = Some (depths, layers) -> L ∈ layers ->
  (forall n, n ∈ layer_nodes L ->
     depths !! id n = Some (layer_offset L) \/
     exists e m,
       e ∈ edges data /\ targetNodeId e = id n /\ m ∈ layer_nodes L /\
       sourceNodeId e = id m /\
       get0 depths (id n) = get0 depths (id m) + 1) /\
  (forall j, 0 <= j <= layer_maxDepth L ->
     exists n, n ∈ layer_nodes L /\
               depths !! id n = Some (layer_offset L + j)) /\
  layer_maxDepth L < Z.of_nat (length (layer_nodes L)).
Proof.
  intros Heq HL.
  destruct (layer_levels data depths layers L Heq HL)
    as (Hfin & Hpred & Hlevels).
  split; [|split].
  - intros n Hn. destruct (Hfin n Hn) as [Hdn _].
    destruct (decide (get0 (layer_depths L) (id n) = 0)) as [H0|Hnz].
    + left. rewrite Hdn, H0. reflexivity.
    + right.
      destruct (Hpred n Hn Hnz) as (e & m & _ & He & Ht & Hm & Hs & Hrel).
      exists e, m. split; [exact He|]. split; [exact Ht|].
      split; [exact Hm|]. split; [exact Hs|].
      destruct (Hfin m Hm) as [Hdm _].
      rewrite (get0_Some _ _ _ Hdn), (get0_Some _ _ _ Hdm). lia.
  - intros j Hj. destruct (Hlevels j Hj) as (m & Hm & Hrel).
    exists m. split; [exact Hm|]. destruct (Hfin m Hm) as [Hdm _].
    rewrite Hdm, Hrel. f_equal. lia.
  - assert (Hsub : seqZ 0 (layer_maxDepth L + 1)
                   ⊆+ map (fun n => get0 (layer_depths L) (id n))
                        (layer_nodes L)).
    { apply NoDup_submseteq; [apply NoDup_seqZ|].
      intros j Hj. apply elem_of_seqZ in Hj.
      destruct (Hlevels j) as (m & Hm & Hrel); [lia|].
      apply elem_of_map. exists m. split; [now symmetry|exact Hm]. }
    apply submseteq_length in Hsub.
    rewrite length_seqZ, length_map in Hsub. lia.
Qed.

(** X15. The depth of a node, counted from the offset of its component,
    is the length of a chain of edges of the component that ends in the
    node; when the component has no directed cycle, no chain of edges of
    the component that ends in the node is longer: the depth is the length
    of the longest chain into the node. *)
Theorem depth_is_longest_chain (data : LineageData) (depths : gmap string Z)
    (layers : list Layer) (L : Layer) (n : Node) :
  depthLayers sort_by data = Some (depths, layers) -> L ∈ layers ->
  n ∈ layer_nodes L ->
  exists d : nat,
    depths !! id n = Some (layer_offset L + Z.of_nat d) /\
    chainTo (layer_edges L) (id n) d /\
    (acyclicEdges (layer_edges L) ->
     forall k, chainTo (layer_edges L) (id n) k -> (k <= d)%nat).
Proof.
  intros Heq HL Hn.
  destruct (layer_levels data depths layers L Heq HL) as (Hfin & Hpred & _).
  destruct (depthLayers_sound sort_by sort_by_stable data)
    as (fd & ls & Heq' & [Hlayers Hedges _ _ _ _ _]).
  rewrite Heq in Heq'. injection Heq' as <- <-.
  rewrite Forall_forall in Hlayers. pose proof (Hlayers L HL) as Hok.
  assert (Hclosed : forall e, e ∈ layer_edges L ->
            sourceNodeId e ∈ map id (layer_nodes L) /\
            targetNodeId e ∈ map id (layer_nodes L)).
  { intros e He. rewrite (Hedges L HL) in He.
    now apply componentEdgesOf_closed in He. }
  assert (Hchain : forall (d : nat) m, m ∈ layer_nodes L ->
            get0 (layer_depths L) (id m) = Z.of_nat d ->
            chainTo (layer_edges L) (id m) d).
  { induction d as [|d IH]; intros m Hm Hd; [constructor|].
    destruct (Hpred m Hm) as (e & p & He & _ & Ht & Hp & Hs & Hrel); [lia|].
    rewrite <- Ht. constructor; [exact He|]. rewrite Hs.
    apply (IH p Hp). lia. }
  destruct (Hfin n Hn) as [Hdn Hrange].
  exists (Z.to_nat (get0 (layer_depths L) (id n))).
  split; [rewrite Hdn; f_equal; lia|]. split; [apply Hchain; [exact Hn|lia]|].
  intros Hacyclic k Hk.
  assert (Hall : forall v, v ∈ map id (layer_nodes L) -> v ∈ layer_dequeued L).
  { apply acyclic_all_dequeued; auto. intros e He. now apply Hclosed. }
  assert (Hbound : forall v j, chainTo (layer_edges L) v j ->
            v ∈ map id (layer_nodes L) ->
            Z.of_nat j <= get0 (layer_depths L) v).
  { intros v j Hc. induction Hc as [v|e j He Hc IH]; intros Hv.
    - apply elem_of_map in Hv as (m & -> & Hm).
      destruct (Hfin m Hm) as [_ Hr]. lia.
    - destruct (Hclosed e He) as [Hs _]. specialize (IH Hs).
      pose proof (ok_edges L Hok e He (Hall _ Hs)). lia. }
  assert (Hv : id n ∈ map id (layer_nodes L)) by (apply elem_of_map; eauto).
  specialize (Hbound (id n) k Hk Hv). lia.
Qed.

(** X16. When the graph has nodes, some box of the layout has its left
    edge on the padding exactly: the layout starts at x = 50. *)
Theorem layout_starts_at_padding (data : LineageData) (height : Q)
    (ns : list D3Node) :
  nodes data <> [] -> computeLayout sort_by data height = Some ns ->
  exists n vx,
    n ∈ ns /\ x n = Some vx /\ (vx - NODE_WIDTH / 2 == padding)%Q.
Proof.
  intros Hne Hl.
  destruct (depthLayers_sound sort_by sort_by_stable data)
    as (depths & layers & Heq & [Hlayers _ Hchain _ Hcover _ _]).
  assert (Hd : nodeDepths sort_by data = Some depths)
    by (unfold nodeDepths; now rewrite Heq).
  destruct layers as [|L rest].
  { destruct (nodes data) as [|a r]; [contradiction|].
    destruct (Hcover a) as (L & HL & _); [left|]. inversion HL. }
  destruct Hchain as [Hoff _].
  assert (HL : L ∈ L :: rest) by left.
  destruct (layer_levels data depths (L :: rest) L Heq HL)
    as (Hfin & _ & Hlevels).
  apply Forall_cons in Hlayers as [Hok _].
  destruct (Hlevels 0) as (m & Hm & Hrel).
  { pose proof (ok_max_nonneg L Hok). lia. }
  destruct (Hfin m Hm) as [Hdm _]. rewrite Hrel, Hoff in Hdm.
  assert (Hbase : map base ns = nodes data).
  { unfold computeLayout in Hl. destruct (nodes data) eqn:Hns;
      [contradiction|].
    rewrite Hd in Hl. injection Hl as <-. rewrite <- Hns.
    apply placeNodes_base. }
  assert (Hmid : id m ∈ map id (map base ns)).
  { rewrite Hbase.
    destruct (depthLayers_components sort_by sort_by_stable data depths
                (L :: rest) Heq) as (comps & Hf & Hperm & _).
    destruct (findComponents_spec data) as (comps' & Hf' & Hmem & _).
    rewrite Hf in Hf'. injection Hf' as <-.
    apply elem_of_map. exists m. split; [reflexivity|].
    apply (Hmem (layer_nodes L)); [|exact Hm].
    rewrite <- Hperm. left. }
  rewrite map_map in Hmid. apply elem_of_map in Hmid as (n & Hid & Hn).
  destruct (layout_column sort_by sort_by_stable data height depths ns n Hd Hl Hn)
    as (vx & Hvx & Hf).
  exists n, vx. split; [exact Hn|]. split; [exact Hvx|].
  rewrite <- Hid, (get0_Some _ _ _ Hdm) in Hf. rewrite Hf.
  vm_compute. reflexivity.
Qed.

End TightRounds.

Lemma depth_is_longest_chain_witness :
  exists d : nat,
    depthsOf cycleWithTail !! id (tableNode "X")
    = Some (layer_offset (nthLayer cycleWithTail 0) + Z.of_nat d) /\
    chainTo (layer_edges (nthLayer cycleWithTail 0)) (id (tableNode "X")) d /\
    (acyclicEdges (layer_edges (nthLayer cycleWithTail 0)) ->
     forall k,
       chainTo (layer_edges (nthLayer cycleWithTail 0)) (id (tableNode "X")) k ->
       (k <= d)%nat).
Proof.
  apply (depth_is_longest_chain isort_by isort_by_stable cycleWithTail
           (depthsOf cycleWithTail) (layersOf cycleWithTail)
           (nthLayer cycleWithTail 0) (tableNode "X") cycleWithTail_layers).
  - vm_compute. left.
  - vm_compute. right. left.
Defined.

Lemma layout_starts_at_padding_witness :
  exists n vx,
    n ∈ layoutOf fanOut 600 /\ x n = Some vx /\
    (vx - NODE_WIDTH / 2 == padding)%Q.
Proof.
  apply (layout_starts_at_padding isort_by isort_by_stable fanOut 600
           (layoutOf fanOut 600)).
  - discriminate.
  - exact fanOut_layout.
Defined.

Lemma depths_are_tight_witness :
  (forall n, n ∈ layer_nodes (nthLayer cycleWithTail 0) ->
     depthsOf cycleWithTail !! id n
     = Some (layer_offset (nthLayer cycleWithTail 0)) \/
     exists e m,
       e ∈ edges cycleWithTail /\ targetNodeId e = id n /\
       m ∈ layer_nodes (nthLayer cycleWithTail 0) /\
       sourceNodeId e = id m /\
       get0 (depthsOf cycleWithTail) (id n)
       = get0 (depthsOf cycleWithTail) (id m) + 1) /\
  (forall j, 0 <= j <= layer_maxDepth (nthLayer cycleWithTail 0) ->
     exists n, n ∈ layer_nodes (nthLayer cycleWithTail 0) /\
               depthsOf cycleWithTail !! id n
               = Some (layer_offset (nthLayer cycleWithTail 0) + j)) /\
  layer_maxDepth (nthLayer cycleWithTail 0)
  < Z.of_nat (length (layer_nodes (nthLayer cycleWithTail 0))).
Proof.
  apply (depths_are_tight isort_by isort_by_stable cycleWithTail
           (depthsOf cycleWithTail) (layersOf cycleWithTail)
           (nthLayer cycleWithTail 0) cycleWithTail_layers).
  vm_compute. left.
Defined.

(** ** The boxes of the layout do not overlap *)

(** The nodes with their indices, from [index] on. *)
Fixpoint enum (index : nat) (ns : list Node) : list (nat * Node) :=
  match ns with
  | [] => []
  | n :: r => (index, n) :: enum (S index) r
  end.

Lemma elem_of_enum (index i : nat) (n : Node) (ns : list Node) :
  (i, n) ∈ enum index ns <->
  (index <= i)%nat /\ ns !! (i - index)%nat = Some n.
Proof.
  revert index. induction ns as [|a r IH]; intros index; simpl.
  - split; [intros H; inversion H|intros [_ H]; discriminate].
  - rewrite elem_of_cons, IH. split.
    + intros [[= -> ->]|[Hle Hl]].
      * split; [lia|]. now rewrite Nat.sub_diag.
      * split; [lia|]. replace (i - index)%nat with (S (i - S index)) by lia.
        exact Hl.
    + intros [Hle Hl]. destruct (decide (i = index)) as [->|Hne].
      * left. rewrite Nat.sub_diag in Hl. simpl in Hl. congruence.
      * right. split; [lia|].
        replace (i - index)%nat with (S (i - S index)) in Hl by lia.
        exact Hl.
Qed.

Lemma enum_indices (index : nat) (ns : list Node) :
  map fst (enum index ns) = seq index (length ns).
Proof.
  revert index. induction ns as [|a r IH]; intros index; simpl;
    [reflexivity|]. now rewrite IH.
Qed.

Lemma pushAt_perm (depth : Z) (ref : nat * Node)
    (groups : list (Z * list (nat * Node))) :
  Permutation (concat (map snd (pushAt depth ref groups)))
    (ref :: concat (map snd groups)).
Proof.
  induction groups as [|[d g] r IH]; simpl; [reflexivity|].
  destruct (depth =? d); [|destruct (depth <? d)]; simpl.
  - rewrite <- app_assoc. simpl. symmetry. apply Permutation_middle.
  - reflexivity.
  - rewrite IH. symmetry. apply Permutation_middle.
Qed.

Lemma groupByDepth_perm (depths : gmap string Z) (ns : list Node)
    (index : nat) (groups : list (Z * list (nat * Node))) :
  Permutation (concat (map snd (groupByDepth depths ns index groups)))
    (concat (map snd groups) ++ enum index ns).
Proof.
  revert index groups. induction ns as [|n r IH]; intros index groups; simpl.
  - now rewrite app_nil_r.
  - rewrite IH, pushAt_perm. simpl. apply Permutation_middle.
Qed.

Lemma pushAt_keys (depth : Z) (ref : nat * Node)
    (groups : list (Z * list (nat * Node))) (k : Z) :
  k ∈ map fst (pushAt depth ref groups) -> k = depth \/ k ∈ map fst groups.
Proof.
  induction groups as [|[d g] r IH]; simpl.
  - intros H. apply list_elem_of_singleton in H. now left.
  - destruct (depth =? d); [|destruct (depth <? d)]; simpl.
    + now right.
    + intros H. apply elem_of_cons in H as [->|H]; [now left|now right].
    + intros H. apply elem_of_cons in H as [->|H]; [right; left|].
      destruct (IH H) as [->|H']; [now left|right; now right].
Qed.

(** The groups stay in the order of their keys, as the keys of the object
    [nodesByDepth] do. *)
Lemma pushAt_sorted (depth : Z) (ref : nat * Node)
    (groups : list (Z * list (nat * Node))) :
  StronglySorted Z.lt (map fst groups) ->
  StronglySorted Z.lt (map fst (pushAt depth ref groups)).
Proof.
  induction groups as [|[d g] r IH]; simpl; intros Hs.
  - constructor; constructor.
  - apply StronglySorted_inv in Hs as [Hr Hd].
    destruct (Z.eqb_spec depth d) as [->|Hne]; simpl.
    + now constructor.
    + destruct (Z.ltb_spec depth d) as [Hlt|Hge]; simpl.
      * constructor; [now constructor|]. constructor; [exact Hlt|].
        rewrite Forall_forall in Hd |- *. intros k Hk.
        specialize (Hd k Hk). lia.
      * constructor; [now apply IH|]. rewrite Forall_forall in Hd |- *.
        intros k Hk. apply pushAt_keys in Hk as [->|Hk]; [lia|now apply Hd].
Qed.

Lemma groupByDepth_sorted (depths : gmap string Z) (ns : list Node)
    (index : nat) (groups : list (Z * list (nat * Node))) :
  StronglySorted Z.lt (map fst groups) ->
  StronglySorted Z.lt (map fst (groupByDepth depths ns index groups)).
Proof.
  revert index groups. induction ns as [|n r IH]; intros index groups Hs;
    simpl; [exact Hs|]. now apply IH, pushAt_sorted.
Qed.

(** Every member of a group has the depth that is the key of the group. *)
Definition keyed (depths : gmap string Z)
    (groups : list (Z * list (nat * Node))) : Prop :=
  forall d g ref, (d, g) ∈ groups -> ref ∈ g ->
                  get0 depths (id (snd ref)) = d.

Lemma pushAt_keyed (depths : gmap string Z) (ref : nat * Node)
    (groups : list (Z * list (nat * Node))) :
  keyed depths groups ->
  keyed depths (pushAt (get0 depths (id (snd ref))) ref groups).
Proof.
  induction groups as [|[d g] r IH]; simpl; intros Hk.
  - intros d' g' ref' H Hin. apply list_elem_of_singleton in H.
    injection H as -> ->. now apply list_elem_of_singleton in Hin as ->.
  - assert (Hr : keyed depths r).
    { intros d' g' ref' H. apply (Hk d' g' ref'). now right. }
    destruct (Z.eqb_spec (get0 depths (id (snd ref))) d) as [Heq|Hne];
      [|destruct (get0 depths (id (snd ref)) <? d)].
    + intros d' g' ref' H Hin. apply elem_of_cons in H as [[= -> ->]|H].
      * apply elem_of_app in Hin as [Hin|Hin].
        -- apply (Hk d g ref'); [left|exact Hin].
        -- now apply list_elem_of_singleton in Hin as ->.
      * apply (Hk d' g' ref'); [now right|exact Hin].
    + intros d' g' ref' H Hin. apply elem_of_cons in H as [[= -> ->]|H].
      * now apply list_elem_of_singleton in Hin as ->.
      * now apply (Hk d' g' ref').
    + intros d' g' ref' H Hin. apply elem_of_cons in H as [[= -> ->]|H].
      * apply (Hk d g ref'); [left|exact Hin].
      * now apply (IH Hr d' g' ref').
Qed.

Lemma groupByDepth_keyed (depths : gmap string Z) (ns : list Node)
    (index : nat) (groups : list (Z * list (nat * Node))) :
  keyed depths groups -> keyed depths (groupByDepth depths ns index groups).
Proof.
  revert index groups. induction ns as [|n r IH]; intros index groups Hk;
    simpl; [exact Hk|].
  apply IH. exact (pushAt_keyed depths (index, n) groups Hk).
Qed.

Lemma StronglySorted_lt_NoDup (l : list Z) : StronglySorted Z.lt l -> NoDup l.
Proof.
  induction 1 as [|a l _ IH Ha]; constructor; [|exact IH].
  intros Hin. rewrite Forall_forall in Ha. specialize (Ha a Hin). lia.
Qed.

(** The groups of the layout: every node is in the group of its depth, with
    its index, and in no other. *)
Lemma groupByDepth_spec (depths : gmap string Z) (ns : list Node) :
  let groups := groupByDepth depths ns 0 [] in
  NoDup (map fst (concat (map snd groups))) /\
  (forall i n, ns !! i = Some n ->
     exists g, g ∈ map snd groups /\ (i, n) ∈ g) /\
  (forall g ref, g ∈ map snd groups -> ref ∈ g ->
     ns !! fst ref = Some (snd ref)) /\
  (forall g g' a b, g ∈ map snd groups -> g' ∈ map snd groups ->
     a ∈ g -> b ∈ g' ->
     get0 depths (id (snd a)) = get0 depths (id (snd b)) -> g = g').
Proof.
  intros groups.
  pose proof (groupByDepth_perm depths ns 0 []) as Hperm. simpl in Hperm.
  fold groups in Hperm.
  assert (Hsorted : StronglySorted Z.lt (map fst groups))
    by (apply groupByDepth_sorted; constructor).
  assert (Hkeyed : keyed depths groups).
  { apply groupByDepth_keyed. intros d g ref H. inversion H. }
  assert (Hin : forall ref, (exists g, g ∈ map snd groups /\ ref ∈ g) <->
                            ref ∈ enum 0 ns).
  { intros ref. rewrite <- Hperm, elem_of_concat. split.
    - intros (g & Hg & Href). eauto.
    - intros (g & Href & Hg). eauto. }
  split; [|split; [|split]].
  - rewrite Hperm, enum_indices. apply NoDup_seq.
  - intros i n Hi. apply Hin. apply elem_of_enum.
    split; [lia|]. now rewrite Nat.sub_0_r.
  - intros g [i n] Hg Href. simpl.
    assert (H : (i, n) ∈ enum 0 ns) by (apply Hin; eauto).
    apply elem_of_enum in H as [_ H]. now rewrite Nat.sub_0_r in H.
  - intros g g' a b Hg Hg' Ha Hb Heq.
    apply elem_of_map in Hg as ([d1 g1] & -> & H1).
    apply elem_of_map in Hg' as ([d2 g2] & -> & H2). simpl in *.
    pose proof (Hkeyed d1 g1 a H1 Ha) as Hd1.
    pose proof (Hkeyed d2 g2 b H2 Hb) as Hd2.
    assert (Hsame : (d1, g1) = (d2, g2)).
    { apply (NoDup_map_inj fst groups); auto.
      - now apply StronglySorted_lt_NoDup.
      - simpl. congruence. }
    congruence.
Qed.

Lemma stack_fold_spec (s : list (nat * Node)) (store : list D3Node) (cur : Q) :
  NoDup (map fst s) ->
  let r :=
    fst (fold_left
           (fun '(store, currentY) a =>
              (alter (fun n => set_y n (currentY + nodeHeight (snd a) / 2)%Q)
                 (fst a) store,
               (currentY + (nodeHeight (snd a) + verticalMargin))%Q))
           s (store, cur)) in
  (forall i, i ∉ map fst s -> r !! i = store !! i) /\
  (forall a sa, a ∈ s -> store !! fst a = Some sa ->
     exists ya, r !! fst a = Some (set_y sa ya) /\
                (cur <= ya - nodeHeight (snd a) / 2)%Q) /\
  (forall a b sa sb, a ∈ s -> b ∈ s -> fst a <> fst b ->
     store !! fst a = Some sa -> store !! fst b = Some sb ->
     exists ya yb,
       r !! fst a = Some (set_y sa ya) /\ r !! fst b = Some (set_y sb yb) /\
       (above ya (snd a) yb (snd b) \/ above yb (snd b) ya (snd a))).
Proof.
  cbv zeta. revert store cur.
  induction s as [|c s' IH]; intros store cur Hnd; cbn [fold_left fst].
  { split; [auto|]. split; [intros a sa H; inversion H|].
    intros a b sa sb H. inversion H. }
  cbn [map] in Hnd. apply NoDup_cons in Hnd as [Hc Hnd'].
  set (store1 := alter (fun n => set_y n (cur + nodeHeight (snd c) / 2)%Q)
                   (fst c) store).
  set (cur1 := (cur + (nodeHeight (snd c) + verticalMargin))%Q).
  destruct (IH store1 cur1 Hnd') as (H1 & H2 & H3).
  assert (Hother : forall i, i <> fst c -> store1 !! i = store !! i).
  { intros i Hi. unfold store1. now apply list_lookup_alter_ne. }
  assert (Hhead : forall sa, store !! fst c = Some sa ->
            fst (fold_left
                   (fun '(store, currentY) a =>
                      (alter (fun n => set_y n (currentY + nodeHeight (snd a) / 2)%Q)
                         (fst a) store,
                       (currentY + (nodeHeight (snd a) + verticalMargin))%Q))
                   s' (store1, cur1)) !! fst c
            = Some (set_y sa (cur + nodeHeight (snd c) / 2)%Q)).
  { intros sa Hsa. rewrite (H1 (fst c) Hc). unfold store1.
    rewrite list_lookup_alter_eq, Hsa. reflexivity. }
  assert (Htail : forall a, a ∈ s' -> fst a <> fst c).
  { intros a Ha Heq. apply Hc. rewrite <- Heq. apply elem_of_map. eauto. }
  assert (Hcur : (cur <= cur1)%Q).
  { unfold cur1, verticalMargin. pose proof (nodeHeight_ge (snd c)). lra. }
  split; [|split].
  - intros i Hi. cbn [map] in Hi. apply not_elem_of_cons in Hi as [Hne Hi].
    rewrite (H1 i Hi). now apply Hother.
  - intros a sa Ha Hsa. apply elem_of_cons in Ha as [->|Ha].
    + exists (cur + nodeHeight (snd c) / 2)%Q.
      split; [now apply Hhead|]. lra.
    + destruct (H2 a sa Ha) as (ya & Hya & Hle).
      { rewrite Hother; [exact Hsa|now apply Htail]. }
      exists ya. split; [exact Hya|]. lra.
  - intros a b sa sb Ha Hb Hne Hsa Hsb.
    apply elem_of_cons in Ha as [->|Ha]; apply elem_of_cons in Hb as [->|Hb].
    + contradiction.
    + destruct (H2 b sb Hb) as (yb & Hyb & Hle).
      { rewrite Hother; [exact Hsb|now apply Htail]. }
      exists (cur + nodeHeight (snd c) / 2)%Q, yb.
      split; [now apply Hhead|]. split; [exact Hyb|].
      left. unfold above. unfold cur1 in Hle.
      generalize dependent (nodeHeight (snd c)).
      generalize dependent (nodeHeight (snd b)). intros. halves. lra.
    + destruct (H2 a sa Ha) as (ya & Hya & Hle).
      { rewrite Hother; [exact Hsa|now apply Htail]. }
      exists ya, (cur + nodeHeight (snd c) / 2)%Q.
      split; [exact Hya|]. split; [now apply Hhead|].
      right. unfold above. unfold cur1 in Hle.
      generalize dependent (nodeHeight (snd c)).
      generalize dependent (nodeHeight (snd a)). intros. halves. lra.
    + apply (H3 a b sa sb); auto.
      * rewrite Hother; [exact Hsa|now apply Htail].
      * rewrite Hother; [exact Hsb|now apply Htail].
Qed.


(** In the order of the stacking, an earlier member of the column lies
    above a later one. *)
Lemma stack_fold_order (s : list (nat * Node)) (store : list D3Node) (cur : Q)
    (l1 l2 : list (nat * Node)) (a b : nat * Node) (sa sb : D3Node) :
  NoDup (map fst s) -> s = l1 ++ a :: l2 -> b ∈ l2 ->
  store !! fst a = Some sa -> store !! fst b = Some sb ->
  exists ya yb,
    fst (fold_left
           (fun '(store, currentY) a =>
              (alter (fun n => set_y n (currentY + nodeHeight (snd a) / 2)%Q)
                 (fst a) store,
               (currentY + (nodeHeight (snd a) + verticalMargin))%Q))
           s (store, cur)) !! fst a = Some (set_y sa ya) /\
    fst (fold_left
           (fun '(store, currentY) a =>
              (alter (fun n => set_y n (currentY + nodeHeight (snd a) / 2)%Q)
                 (fst a) store,
               (currentY + (nodeHeight (snd a) + verticalMargin))%Q))
           s (store, cur)) !! fst b = Some (set_y sb yb) /\
    above ya (snd a) yb (snd b).
Proof.
  revert s store cur.
  induction l1 as [|c l1 IH]; intros s store cur Hnd -> Hb Hsa Hsb;
    cbn [app fold_left]; cbn [app map] in Hnd;
    apply NoDup_cons in Hnd as [Hc Hnd'].
  - destruct (stack_fold_spec l2
                (alter (fun n => set_y n (cur + nodeHeight (snd a) / 2)%Q)
                   (fst a) store)
                (cur + (nodeHeight (snd a) + verticalMargin))%Q Hnd')
      as (H1 & H2 & _).
    assert (Hne : fst b <> fst a).
    { intros Heq. apply Hc. rewrite <- Heq. apply elem_of_map. eauto. }
    destruct (H2 b sb Hb) as (yb & Hyb & Hle).
    { rewrite list_lookup_alter_ne by auto. exact Hsb. }
    exists (cur + nodeHeight (snd a) / 2)%Q, yb. split; [|split].
    + rewrite (H1 (fst a) Hc), list_lookup_alter_eq, Hsa. reflexivity.
    + exact Hyb.
    + unfold above.
      generalize dependent (nodeHeight (snd a)).
      generalize dependent (nodeHeight (snd b)). intros. halves. lra.
  - assert (Hin : forall e, e ∈ l1 ++ a :: l2 -> fst e <> fst c).
    { intros e He Heq. apply Hc. rewrite <- Heq. apply elem_of_map. eauto. }
    apply (IH (l1 ++ a :: l2)); auto.
    + rewrite list_lookup_alter_ne; [exact Hsa|].
      intros Heq. apply (Hin a); [|now symmetry].
      apply elem_of_app. right. left.
    + rewrite list_lookup_alter_ne; [exact Hsb|].
      intros Heq. apply (Hin b); [|now symmetry].
      apply elem_of_app. right. now right.
Qed.

Lemma StronglySorted_after {A : Type} (R : A -> A -> Prop) (l1 l2 : list A)
    (a b : A) :
  StronglySorted R (l1 ++ a :: l2) -> b ∈ l2 -> R a b.
Proof.
  induction l1 as [|c r IH]; simpl; intros H Hb.
  - apply StronglySorted_inv in H as [_ Ha].
    rewrite Forall_forall in Ha. now apply Ha.
  - apply StronglySorted_inv in H as [Hr _]. now apply IH.
Qed.

Section Rows.

Variable sort_by : forall A : Type, (A -> Z) -> list A -> list A.
Hypothesis sort_by_stable : StableSort sort_by.

(** One column: the members of the group get their y, one below the
    other in the order of [nodeOrder], and no other node is touched. *)
Lemma stackColumn_spec (height : Q) (nodeOrder : gmap string Z)
    (store : list D3Node) (g : list (nat * Node)) :
  NoDup (map fst g) ->
  let r := stackColumn sort_by height nodeOrder store g in
  (forall i, i ∉ map fst g -> r !! i = store !! i) /\
  (forall a b sa sb, a ∈ g -> b ∈ g -> fst a <> fst b ->
     store !! fst a = Some sa -> store !! fst b = Some sb ->
     exists ya yb,
       r !! fst a = Some (set_y sa ya) /\ r !! fst b = Some (set_y sb yb) /\
       (above ya (snd a) yb (snd b) \/ above yb (snd b) ya (snd a)) /\
       (get0 nodeOrder (id (snd a)) < get0 nodeOrder (id (snd b)) ->
        above ya (snd a) yb (snd b))).
Proof.
  intros Hnd. cbv zeta. unfold stackColumn.
  pose proof (StableSort_perm sort_by sort_by_stable (nat * Node)%type
                (fun a => get0 nodeOrder (id (snd a))) g) as Hperm.
  pose proof (StableSort_sorted sort_by sort_by_stable (nat * Node)%type
                (fun a => get0 nodeOrder (id (snd a))) g) as Hsorted.
  set (s := sort_by (nat * Node)%type (fun a => get0 nodeOrder (id (snd a))) g)
    in *.
  assert (Hnd' : NoDup (map fst s)).
  { assert (Hp : Permutation (map fst s) (map fst g))
      by now apply Permutation_map.
    now rewrite Hp. }
  set (cur := ((height
                - (fold_left (fun acc a => acc + nodeHeight (snd a)) s 0
                   + (inject_Z (Z.of_nat (length s)) - 1) * verticalMargin)) / 2)%Q).
  destruct (stack_fold_spec s store cur Hnd') as (H1 & _ & H3).
  split.
  - intros i Hi. apply H1. intros Hin. apply Hi.
    apply elem_of_map in Hin as (a & -> & Ha). apply elem_of_map.
    exists a. split; [reflexivity|]. now rewrite <- Hperm.
  - intros a b sa sb Ha Hb Hne Hsa Hsb. rewrite <- Hperm in Ha, Hb.
    destruct (H3 a b sa sb Ha Hb Hne Hsa Hsb) as (ya & yb & Hya & Hyb & Hgap).
    exists ya, yb. split; [exact Hya|]. split; [exact Hyb|].
    split; [exact Hgap|]. intros Hlt.
    apply list_elem_of_split in Hb as (l1 & l2 & Hs).
    assert (Ha1 : a ∈ l1).
    { rewrite Hs in Ha. apply elem_of_app in Ha as [Ha|Ha]; [exact Ha|].
      apply elem_of_cons in Ha as [->|Ha]; [contradiction|].
      rewrite Hs in Hsorted.
      pose proof (StronglySorted_after _ l1 l2 b a Hsorted Ha) as Hle.
      simpl in Hle. lia. }
    apply list_elem_of_split in Ha1 as (l0 & l1' & ->).
    rewrite <- app_assoc in Hs. cbn [app] in Hs.
    destruct (stack_fold_order s store cur l0 (l1' ++ b :: l2) a b sa sb
                Hnd' Hs) as (ya' & yb' & Hya' & Hyb' & Habove); auto.
    { apply elem_of_app. right. left. }
    rewrite Hya in Hya'. rewrite Hyb in Hyb'.
    assert (Eya : y (set_y sa ya) = y (set_y sa ya')) by congruence.
    assert (Eyb : y (set_y sb yb) = y (set_y sb yb')) by congruence.
    cbn [set_y y] in Eya, Eyb. injection Eya as ->. injection Eyb as ->.
    exact Habove.
Qed.

Lemma stackColumns_spec (height : Q) (nodeOrder : gmap string Z)
    (gs : list (list (nat * Node))) (store : list D3Node) :
  NoDup (map fst (concat gs)) ->
  let r := fold_left (stackColumn sort_by height nodeOrder) gs store in
  (forall i, i ∉ map fst (concat gs) -> r !! i = store !! i) /\
  (forall g a b sa sb, g ∈ gs -> a ∈ g -> b ∈ g -> fst a <> fst b ->
     store !! fst a = Some sa -> store !! fst b = Some sb ->
     exists ya yb,
       r !! fst a = Some (set_y sa ya) /\ r !! fst b = Some (set_y sb yb) /\
       (above ya (snd a) yb (snd b) \/ above yb (snd b) ya (snd a)) /\
       (get0 nodeOrder (id (snd a)) < get0 nodeOrder (id (snd b)) ->
        above ya (snd a) yb (snd b))).
Proof.
  cbv zeta. revert store.
  induction gs as [|g0 rest IH]; intros store Hnd; cbn [fold_left].
  { split; [auto|]. intros g a b sa sb H. inversion H. }
  cbn [concat] in Hnd. rewrite map_app in Hnd.
  apply NoDup_app in Hnd as (Hnd0 & Hdisj & Hndr).
  destruct (stackColumn_spec height nodeOrder store g0 Hnd0) as [S1 S3].
  destruct (IH (stackColumn sort_by height nodeOrder store g0) Hndr)
    as [R1 R3].
  assert (Hidx : forall (g : list (nat * Node)) a, a ∈ g -> fst a ∈ map fst g).
  { intros g a Ha. apply elem_of_map. eauto. }
  assert (Hrest : forall g a, g ∈ rest -> a ∈ g ->
                    fst a ∈ map fst (concat rest)).
  { intros g a Hg Ha. apply elem_of_map. exists a. split; [reflexivity|].
    apply elem_of_concat. eauto. }
  split.
  - intros i Hi. cbn [concat] in Hi. rewrite map_app in Hi.
    apply not_elem_of_app in Hi as [Hi0 Hir].
    rewrite (R1 i Hir). now apply S1.
  - intros g a b sa sb Hg Ha Hb Hne Hsa Hsb.
    apply elem_of_cons in Hg as [->|Hg].
    + destruct (S3 a b sa sb Ha Hb Hne Hsa Hsb) as (ya & yb & Hya & Hyb & Hgap).
      exists ya, yb. rewrite !R1; [auto| |].
      * intros Hin. exact (Hdisj (fst b) (Hidx g0 b Hb) Hin).
      * intros Hin. exact (Hdisj (fst a) (Hidx g0 a Ha) Hin).
    + apply (R3 g a b sa sb); auto.
      * rewrite S1; [exact Hsa|]. intros Hin.
        exact (Hdisj (fst a) Hin (Hrest g a Hg Ha)).
      * rewrite S1; [exact Hsb|]. intros Hin.
        exact (Hdisj (fst b) Hin (Hrest g b Hg Hb)).
Qed.

(** Two nodes of the layout that have the same depth lie one above the
    other, the one of the smaller [nodeOrder] above. *)
Lemma layout_same_column (data : LineageData) (height : Q)
    (depths : gmap string Z) (ns : list D3Node) (i j : nat) (n m : D3Node) :
  nodeDepths sort_by data = Some depths ->
  computeLayout sort_by data height = Some ns ->
  i <> j -> ns !! i = Some n -> ns !! j = Some m ->
  get0 depths (id (base n)) = get0 depths (id (base m)) ->
  nodes data !! i = Some (base n) /\ nodes data !! j = Some (base m) /\
  exists ny my : Q,
    y n = Some ny /\ y m = Some my /\
    (above ny (base n) my (base m) \/ above my (base m) ny (base n)) /\
    (get0 (nodeOrderOf data) (id (base n))
     < get0 (nodeOrderOf data) (id (base m)) ->
     above ny (base n) my (base m)).
Proof.
  intros Hd Hl Hij Hi Hj Hsame.
  assert (Hn : n ∈ ns) by (apply list_elem_of_lookup; eauto).
  assert (Hm : m ∈ ns) by (apply list_elem_of_lookup; eauto).
  destruct (reachable_positioned sort_by data height ns
              (reach_layout sort_by data height ns Hl) n Hn) as [_ [ny Hny]].
  destruct (reachable_positioned sort_by data height ns
              (reach_layout sort_by data height ns Hl) m Hm) as [_ [my Hmy]].
  unfold computeLayout in Hl.
  destruct (nodes data) as [|a0 r0] eqn:Hns;
    [injection Hl as <-; discriminate|].
  rewrite Hd in Hl. injection Hl as Hl. rewrite <- Hns. clear a0 r0 Hns.
  unfold placeNodes in Hl.
  set (gs := map snd (groupByDepth depths (nodes data) 0 [])) in *.
  set (st := fold_left (stackColumn sort_by height (nodeOrderOf data)) gs
               (copyNodes (nodes data))) in *.
  destruct (normalize_translates (map (assignX depths) st))
    as (ox & oy & _ & _ & Hrel & _).
  rewrite Hl in Hrel.
  destruct (Forall2_lookup_r _ _ _ i n Hrel Hi)
    as (pn & Hpn & Hbn & _ & _ & _ & Hyn).
  destruct (Forall2_lookup_r _ _ _ j m Hrel Hj)
    as (pm & Hpm & Hbm & _ & _ & _ & Hym).
  rewrite list_lookup_fmap in Hpn, Hpm.
  destruct (st !! i) as [sn|] eqn:Hsn; [|discriminate].
  destruct (st !! j) as [sm|] eqn:Hsm; [|discriminate].
  injection Hpn as <-. injection Hpm as <-.
  cbn [assignX set_x base y] in Hbn, Hbm, Hyn, Hym.
  assert (Hbase : map base st = nodes data).
  { unfold st. rewrite stackColumns_base. unfold copyNodes.
    rewrite map_map. cbn [base]. apply map_id. }
  assert (Hnode : forall k s, st !! k = Some s ->
            nodes data !! k = Some (base s) /\
            copyNodes (nodes data) !! k
            = Some (mkD3 (base s) None None None None)).
  { intros k s Hk.
    assert (H : nodes data !! k = Some (base s)).
    { rewrite <- Hbase. change (map base st) with (base <$> st).
      now rewrite list_lookup_fmap, Hk. }
    split; [exact H|]. unfold copyNodes.
    change (map ?f ?l) with (f <$> l). now rewrite list_lookup_fmap, H. }
  destruct (Hnode i sn Hsn) as [Hni Hci]. destruct (Hnode j sm Hsm) as [Hnj Hcj].
  rewrite Hbn, Hbm. split; [exact Hni|]. split; [exact Hnj|].
  destruct (groupByDepth_spec depths (nodes data)) as (Hnd & Hcover & _ & Hgroup).
  fold gs in Hnd, Hcover, Hgroup.
  destruct (Hcover i (base sn) Hni) as (gi & Hgi & Hini).
  destruct (Hcover j (base sm) Hnj) as (gj & Hgj & Hinj).
  assert (Hg : gi = gj).
  { apply (Hgroup gi gj (i, base sn) (j, base sm)); auto. simpl. congruence. }
  subst gj.
  destruct (stackColumns_spec height (nodeOrderOf data) gs
              (copyNodes (nodes data)) Hnd) as [_ Hgap].
  destruct (Hgap gi (i, base sn) (j, base sm) _ _ Hgi Hini Hinj Hij Hci Hcj)
    as (ya & yb & Hya & Hyb & Habove & Horder).
  fold st in Hya, Hyb. cbn [fst snd] in Hya, Hyb, Habove, Horder.
  rewrite Hsn in Hya. rewrite Hsm in Hyb.
  injection Hya as Hya. injection Hyb as Hyb.
  assert (Hysn : y sn = Some ya) by (rewrite Hya; reflexivity).
  assert (Hysm : y sm = Some yb) by (rewrite Hyb; reflexivity).
  rewrite Hny, Hysn in Hyn. rewrite Hmy, Hysm in Hym.
  unfold orZero in Hyn, Hym. cbn [default] in Hyn, Hym.
  unfold Datatypes.id in Hyn, Hym.
  exists ny, my. split; [exact Hny|]. split; [exact Hmy|].
  unfold above in *. split.
  - destruct Habove as [H|H]; [left|right]; rewrite Hyn, Hym; lra.
  - intros Hlt. specialize (Horder Hlt). rewrite Hyn, Hym. lra.
Qed.

(** X17. No two boxes of the layout overlap: two nodes of the layout are
    either in different depth columns, with at least 120 pixels between
    their boxes, or one above the other with at least the vertical margin
    of 40 pixels between their boxes. *)
Theorem layout_boxes_apart (data : LineageData) (height : Q)
    (ns : list D3Node) (i j : nat) (n m : D3Node) :
  computeLayout sort_by data height = Some ns ->
  i <> j -> ns !! i = Some n -> ns !! j = Some m ->
  exists nx ny mx my : Q,
    x n = Some nx /\ y n = Some ny /\ x m = Some mx /\ y m = Some my /\
    ((nx + NODE_WIDTH / 2 + 120 <= mx - NODE_WIDTH / 2)%Q \/
     (mx + NODE_WIDTH / 2 + 120 <= nx - NODE_WIDTH / 2)%Q \/
     above ny (base n) my (base m) \/ above my (base m) ny (base n)).
Proof.
  intros Hl Hij Hi Hj.
  destruct (depthLayers_sound sort_by sort_by_stable data)
    as (depths & ls & Heq & _).
  assert (Hd : nodeDepths sort_by data = Some depths)
    by (unfold nodeDepths; now rewrite Heq).
  assert (Hn : n ∈ ns) by (apply list_elem_of_lookup; eauto).
  assert (Hm : m ∈ ns) by (apply list_elem_of_lookup; eauto).
  destruct (layout_column sort_by sort_by_stable data height depths ns n Hd Hl Hn)
    as (nx & Hnx & Hfn).
  destruct (layout_column sort_by sort_by_stable data height depths ns m Hd Hl Hm)
    as (mx & Hmx & Hfm).
  destruct (Z.lt_total (get0 depths (id (base n))) (get0 depths (id (base m))))
    as [Hlt|[Hsame|Hgt]].
  - destruct (reachable_positioned sort_by data height ns
                (reach_layout sort_by data height ns Hl) n Hn) as [_ [ny Hny]].
    destruct (reachable_positioned sort_by data height ns
                (reach_layout sort_by data height ns Hl) m Hm) as [_ [my Hmy]].
    exists nx, ny, mx, my. split; [exact Hnx|]. split; [exact Hny|].
    split; [exact Hmx|]. split; [exact Hmy|]. left.
    assert (H : (inject_Z (get0 depths (id (base n))) + 1
                 <= inject_Z (get0 depths (id (base m))))%Q)
      by (apply inject_Z_succ_le; lia).
    clear Hlt. unfold NODE_WIDTH in *. halves. lra.
  - destruct (layout_same_column data height depths ns i j n m
                Hd Hl Hij Hi Hj Hsame)
      as (_ & _ & ny & my & Hny & Hmy & Habove & _).
    exists nx, ny, mx, my. split; [exact Hnx|]. split; [exact Hny|].
    split; [exact Hmx|]. split; [exact Hmy|]. right. right. exact Habove.
  - destruct (reachable_positioned sort_by data height ns
                (reach_layout sort_by data height ns Hl) n Hn) as [_ [ny Hny]].
    destruct (reachable_positioned sort_by data height ns
                (reach_layout sort_by data height ns Hl) m Hm) as [_ [my Hmy]].
    exists nx, ny, mx, my. split; [exact Hnx|]. split; [exact Hny|].
    split; [exact Hmx|]. split; [exact Hmy|]. right. left.
    assert (H : (inject_Z (get0 depths (id (base m))) + 1
                 <= inject_Z (get0 depths (id (base n))))%Q)
      by (apply inject_Z_succ_le; lia).
    clear Hgt. unfold NODE_WIDTH in *. halves. lra.
Qed.

(** X18. With unique node ids, of two nodes of the layout that have the
    same x, the one listed first in the graph lies above the other, with
    at least the vertical margin between their boxes. *)
Theorem layout_column_order (data : LineageData) (height : Q)
    (ns : list D3Node) (i j : nat) (n m : D3Node) (nx mx : Q) :
  NoDup (map id (nodes data)) ->
  computeLayout sort_by data height = Some ns ->
  (i < j)%nat -> ns !! i = Some n -> ns !! j = Some m ->
  x n = Some nx -> x m = Some mx -> (nx == mx)%Q ->
  exists ny my : Q,
    y n = Some ny /\ y m = Some my /\ above ny (base n) my (base m).
Proof.
  intros Hnd Hl Hij Hi Hj Hnx Hmx Hx.
  destruct (depthLayers_sound sort_by sort_by_stable data)
    as (depths & ls & Heq & _).
  assert (Hd : nodeDepths sort_by data = Some depths)
    by (unfold nodeDepths; now rewrite Heq).
  assert (Hn : n ∈ ns) by (apply list_elem_of_lookup; eauto).
  assert (Hm : m ∈ ns) by (apply list_elem_of_lookup; eauto).
  destruct (layout_column sort_by sort_by_stable data height depths ns n Hd Hl Hn)
    as (nx' & Hnx' & Hfn).
  destruct (layout_column sort_by sort_by_stable data height depths ns m Hd Hl Hm)
    as (mx' & Hmx' & Hfm).
  rewrite Hnx in Hnx'. rewrite Hmx in Hmx'.
  injection Hnx' as <-. injection Hmx' as <-.
  assert (Hsame : get0 depths (id (base n)) = get0 depths (id (base m))).
  { apply inject_Z_injective. unfold NODE_WIDTH in *. halves. lra. }
  destruct (layout_same_column data height depths ns i j n m Hd Hl
              ltac:(lia) Hi Hj Hsame)
    as (Hni & Hnj & ny & my & Hny & Hmy & _ & Horder).
  exists ny, my. split; [exact Hny|]. split; [exact Hmy|].
  apply Horder. unfold nodeOrderOf.
  rewrite (get0_Some _ _ _ (setOrder_lookup _ 0 ∅ i _ Hnd Hni)).
  rewrite (get0_Some _ _ _ (setOrder_lookup _ 0 ∅ j _ Hnd Hnj)). lia.
Qed.

End Rows.

Lemma layout_boxes_apart_witness :
  exists nx ny mx my : Q,
    x (nthNode (layoutOf fanOut 600) 1) = Some nx /\
    y (nthNode (layoutOf fanOut 600) 1) = Some ny /\
    x (nthNode (layoutOf fanOut 600) 2) = Some mx /\
    y (nthNode (layoutOf fanOut 600) 2) = Some my /\
    ((nx + NODE_WIDTH / 2 + 120 <= mx - NODE_WIDTH / 2)%Q \/
     (mx + NODE_WIDTH / 2 + 120 <= nx - NODE_WIDTH / 2)%Q \/
     above ny (base (nthNode (layoutOf fanOut 600) 1)) my
       (base (nthNode (layoutOf fanOut 600) 2)) \/
     above my (base (nthNode (layoutOf fanOut 600) 2)) ny
       (base (nthNode (layoutOf fanOut 600) 1))).
Proof.
  apply (layout_boxes_apart isort_by isort_by_stable fanOut 600
           (layoutOf fanOut 600) 1 2 _ _ fanOut_layout).
  - lia.
  - vm_compute. reflexivity.
  - vm_compute. reflexivity.
Defined.

Lemma layout_column_order_witness :
  exists ny my : Q,
    y (nthNode (layoutOf fanOut 600) 1) = Some ny /\
    y (nthNode (layoutOf fanOut 600) 2) = Some my /\
    above ny (base (nthNode (layoutOf fanOut 600) 1)) my
      (base (nthNode (layoutOf fanOut 600) 2)).
Proof.
  apply (layout_column_order isort_by isort_by_stable fanOut 600
           (layoutOf fanOut 600) 1 2 _ _
           (orZero (x (nthNode (layoutOf fanOut 600) 1)))
           (orZero (x (nthNode (layoutOf fanOut 600) 2)))).
  - apply (bool_decide_unpack _). vm_compute. reflexivity.
  - exact fanOut_layout.
  - lia.
  - vm_compute. reflexivity.
  - vm_compute. reflexivity.
  - vm_compute. reflexivity.
  - vm_compute. reflexivity.
  - vm_compute. reflexivity.
Defined.

(** ** Which nodes the layering loop dequeues *)

Lemma indeg_zero (E : list Edge) (P : list string) (v : string) :
  indeg E P v = 0 ->
  forall e, e ∈ E -> targetNodeId e = v -> sourceNodeId e ∈ P.
Proof.
  induction E as [|a r IH]; cbn [indeg]; intros H e He Ht; [inversion He|].
  pose proof (indeg_nonneg r P v) as Hr.
  destruct (decide (targetNodeId a = v /\ sourceNodeId a ∉ P)) as [Hd|Hd];
    [lia|].
  apply elem_of_cons in He as [->|He]; [|apply IH; auto; lia].
  destruct (decide (sourceNodeId a ∈ P)) as [Hin|Hout]; [exact Hin|].
  exfalso. apply Hd. auto.
Qed.

(** Consecutive members of the list are joined by an edge, from the
    earlier one to the later one. *)
Fixpoint linked (E : list Edge) (l : list string) : Prop :=
  match l with
  | [] => True
  | a :: r =>
      match r with
      | [] => True
      | b :: _ =>
          (exists e, e ∈ E /\ sourceNodeId e = a /\ targetNodeId e = b) /\
          linked E r
      end
  end.

Lemma linked_app_r (E : list Edge) (l1 l2 : list string) :
  linked E (l1 ++ l2) -> linked E l2.
Proof.
  induction l1 as [|a l1 IH]; [auto|]. cbn [app linked].
  destruct (l1 ++ l2) as [|b r] eqn:Heq.
  - destruct l2; [auto|]. now destruct l1.
  - intros [_ H]. now apply IH.
Qed.

Lemma linked_app_l (E : list Edge) (l1 l2 : list string) :
  linked E (l1 ++ l2) -> linked E l1.
Proof.
  induction l1 as [|a l1 IH]; [intros _; exact I|]. cbn [app linked].
  destruct l1 as [|b l1]; [auto|]. cbn [app] in *.
  intros [He H]. split; [exact He|]. now apply IH.
Qed.

Lemma linked_snoc (E : list Edge) (l : list string) (a b : string) :
  linked E (l ++ [a]) ->
  (exists e, e ∈ E /\ sourceNodeId e = a /\ targetNodeId e = b) ->
  linked E ((l ++ [a]) ++ [b]).
Proof.
  intros Hl He. induction l as [|c l IH]; [simpl; auto|].
  cbn [app linked] in Hl |- *.
  destruct (l ++ [a]) as [|d r] eqn:Heq; [now destruct l|].
  cbn [app]. destruct Hl as [Hcd Hr]. split; [exact Hcd|]. now apply IH.
Qed.

Lemma linked_walk (E : list Edge) (l : list string) (u v : string) :
  linked E (u :: l ++ [v]) -> walk E u v.
Proof.
  revert u. induction l as [|a l IH]; intros u; cbn [app linked].
  - intros [(e & He & <- & <-) _]. now constructor.
  - intros [(e & He & <- & <-) Hr]. apply walk_step; [exact He|].
    now apply IH.
Qed.

Lemma repeated_of_not_NoDup (l : list string) :
  ~ NoDup l -> exists a l1 l2 l3, l = l1 ++ a :: l2 ++ a :: l3.
Proof.
  induction l as [|a l IH]; intros Hn; [exfalso; apply Hn; constructor|].
  destruct (decide (a ∈ l)) as [Hin|Hout].
  - apply list_elem_of_split in Hin as (l2 & l3 & ->). now exists a, [], l2, l3.
  - destruct IH as (b & l1 & l2 & l3 & ->).
    + intros Hnd. apply Hn. now constructor.
    + now exists b, (a :: l1), l2, l3.
Qed.

Section Dequeued.

Variable sort_by : forall A : Type, (A -> Z) -> list A -> list A.
Hypothesis sort_by_stable : StableSort sort_by.

(** A dequeued node has all the sources of its edges dequeued. *)
Definition backClosed (L : Layer) : Prop :=
  forall e, e ∈ layer_edges L -> targetNodeId e ∈ layer_dequeued L ->
            sourceNodeId e ∈ layer_dequeued L.

Lemma layerComponent_backClosed (data : LineageData)
    (nodeOrder : gmap string Z) (c : list Node) (fd : gmap string Z) (off : Z)
    (fd' : gmap string Z) (off' : Z) (L : Layer) :
  NoDup (map id c) ->
  layerComponent sort_by data nodeOrder c fd off = Some (fd', off', L) ->
  backClosed L.
Proof.
  intros Hnd. unfold layerComponent.
  set (E := componentEdgesOf data c).
  pose proof (initDegrees_fold c ∅ ∅) as Hinit. cbv zeta in Hinit.
  fold (initDegrees c) in Hinit.
  destruct (initDegrees c) as [I0 A0]. cbn [fst snd] in Hinit.
  destruct Hinit as [HI0 HA0].
  pose proof (countEdges_fold E I0 A0) as Hcount. cbv zeta in Hcount.
  destruct (countEdges E (I0, A0)) as [I A]. cbn [fst snd] in Hcount.
  destruct Hcount as (HI & HIkeys & HA).
  pose proof (seedQueue_fold I c [] ∅) as Hseed. cbv zeta in Hseed.
  fold (seedQueue I c) in Hseed.
  destruct (seedQueue I c) as [q D0]. cbn [fst snd] in Hseed.
  destruct Hseed as [Hq HD0]. simpl in Hq. subst q.
  pose proof (StableSort_perm sort_by sort_by_stable string (get0 nodeOrder)
                (zeroDegree I c)) as Hperm.
  set (Q := sort_by string (get0 nodeOrder) (zeroDegree I c)) in *.
  assert (HzIn : forall k, k ∈ zeroDegree I c -> k ∈ map id c /\ get0 I k = 0).
  { intros k Hk. unfold zeroDegree in Hk.
    apply elem_of_map in Hk as (n & -> & Hn).
    apply list_elem_of_In, List.filter_In in Hn as [Hn H0].
    split; [|now apply Z.eqb_eq].
    apply elem_of_map. exists n. split; [reflexivity|].
    now apply list_elem_of_In. }
  assert (Hclosed : forall e, e ∈ E ->
                      sourceNodeId e ∈ map id c /\ targetNodeId e ∈ map id c).
  { intros e He. now apply componentEdgesOf_closed in He. }
  assert (Hadj : forall u, u ∈ map id c -> A !! u = Some (outs E u)).
  { intros u Hu. rewrite HA, HA0, decide_True by done. reflexivity. }
  assert (Hinv : kahnInv E (map id c) [] Q D0 I).
  { constructor.
    - simpl. rewrite Hperm. unfold zeroDegree. now apply NoDup_map_filter.
    - intros k Hk. simpl in Hk. rewrite Hperm in Hk.
      destruct (HzIn k Hk) as [H1 H2]. split; [exact H1|]. split; [exact H2|].
      rewrite HD0, decide_True by done. eauto.
    - intros v. rewrite HI. unfold get0. rewrite HI0.
      destruct (decide _); [|rewrite lookup_empty]; simpl; lia.
    - intros v Hv H0. simpl. rewrite Hperm. unfold zeroDegree.
      apply elem_of_map in Hv as (n & -> & Hn). apply elem_of_map.
      exists n. split; [reflexivity|].
      apply list_elem_of_In, List.filter_In.
      split; [now apply list_elem_of_In|now apply Z.eqb_eq].
    - intros e _ Hs. inversion Hs.
    - intros k d. rewrite HD0, lookup_empty.
      destruct (decide _); [intros [= <-]; lia|discriminate].
    - intros k Hk. apply HIkeys. rewrite HI0, decide_True by done. eauto. }
  destruct (kahn_spec sort_by sort_by_stable nodeOrder E (map id c) A
              Hclosed Hadj (length c) [] Q D0 I Hinv)
    as (D & I' & P & -> & [_ Hknown' Hindeg' _ _ _ _]).
  { rewrite length_map. simpl. lia. }
  destruct (fold_left (finish off) c (D, fd, 0)) as [[D' fd1] mx].
  intros [= <- <- <-]. unfold backClosed. cbn [layer_edges layer_dequeued].
  intros e He Ht. apply (indeg_zero E P (targetNodeId e)); auto.
  rewrite <- Hindeg'. apply Hknown'. now rewrite app_nil_r.
Qed.

Lemma layerComponents_backClosed (data : LineageData)
    (nodeOrder : gmap string Z) (comps : list (list Node))
    (fd : gmap string Z) (off : Z) (layers : list Layer)
    (fd' : gmap string Z) (layers' : list Layer) :
  NoDup (map id (concat comps)) ->
  layerComponents sort_by data nodeOrder comps fd off layers
  = Some (fd', layers') ->
  Forall backClosed layers -> Forall backClosed layers'.
Proof.
  revert fd off layers.
  induction comps as [|c r IH]; intros fd off layers Hnd Heq Hall.
  - now injection Heq as <- <-.
  - cbn [layerComponents] in Heq. cbn [concat] in Hnd. rewrite map_app in Hnd.
    apply NoDup_app in Hnd as (Hc & _ & Hr).
    destruct (layerComponent sort_by data nodeOrder c fd off)
      as [[[fd1 off1] L]|] eqn:Hlc; [|discriminate].
    apply IH in Heq; [exact Heq|exact Hr|].
    apply Forall_app. split; [exact Hall|].
    constructor; [|constructor].
    now apply layerComponent_backClosed in Hlc.
Qed.

Lemma depthLayers_backClosed (data : LineageData) (fd : gmap string Z)
    (layers : list Layer) :
  depthLayers sort_by data = Some (fd, layers) -> Forall backClosed layers.
Proof.
  unfold depthLayers. destruct (nodes data) eqn:Hns;
    [intros [= <- <-]; constructor|].
  rewrite <- Hns.
  destruct (findComponents_spec data) as (comps & -> & _ & Hnd & _ & _).
  intros Heq. apply layerComponents_backClosed in Heq; [exact Heq| |constructor].
  assert (Hp : Permutation
                 (map id (concat (sort_by (list Node)
                                    (minOrder (nodeOrderOf data)) comps)))
                 (map id (concat comps))).
  { apply Permutation_map, Permutation_concat.
    apply (StableSort_perm sort_by sort_by_stable). }
  now rewrite Hp.
Qed.

(** From a node that was not dequeued, edges lead backwards through nodes
    that were not dequeued, as far as one likes. *)
Lemma undequeued_chain (L : Layer) :
  layerOk L ->
  (forall e, e ∈ layer_edges L -> sourceNodeId e ∈ map id (layer_nodes L)) ->
  forall (k : nat) v,
    v ∈ map id (layer_nodes L) -> v ∉ layer_dequeued L ->
    exists l, length l = k /\
              (forall u, u ∈ l -> u ∈ map id (layer_nodes L)) /\
              linked (layer_edges L) (l ++ [v]).
Proof.
  intros Hok Hclosed. induction k as [|k IH]; intros v Hv Hout.
  - exists []. split; [reflexivity|]. split; [|exact I].
    intros u Hu. inversion Hu.
  - destruct (ok_complete L Hok v Hv Hout) as (e & He & Ht & Hs).
    destruct (IH (sourceNodeId e) (Hclosed e He) Hs) as (l & Hlen & Hin & Hl).
    exists (l ++ [sourceNodeId e]). split; [|split].
    + rewrite length_app. simpl. lia.
    + intros u Hu. apply elem_of_app in Hu as [Hu|Hu]; [now apply Hin|].
      apply list_elem_of_singleton in Hu as ->. now apply Hclosed.
    + apply linked_snoc; [exact Hl|]. eauto.
Qed.

(** A node that was not dequeued is on a directed cycle or downstream of
    one: the backward chain is longer than the component has nodes. *)
Lemma undequeued_cycle (L : Layer) (v : string) :
  layerOk L ->
  (forall e, e ∈ layer_edges L -> sourceNodeId e ∈ map id (layer_nodes L)) ->
  v ∈ map id (layer_nodes L) -> v ∉ layer_dequeued L ->
  cycleUpstream (layer_edges L) v.
Proof.
  intros Hok Hclosed Hv Hout.
  destruct (undequeued_chain L Hok Hclosed
              (length (map id (layer_nodes L))) v Hv Hout)
    as (l & Hlen & Hin & Hl).
  assert (Hdup : ~ NoDup (l ++ [v])).
  { intros Hnd.
    assert (Hsub : l ++ [v] ⊆+ map id (layer_nodes L)).
    { apply NoDup_submseteq; [exact Hnd|]. intros u Hu.
      apply elem_of_app in Hu as [Hu|Hu]; [now apply Hin|].
      now apply list_elem_of_singleton in Hu as ->. }
    apply submseteq_length in Hsub. rewrite length_app in Hsub.
    simpl in Hsub. lia. }
  apply repeated_of_not_NoDup in Hdup as (c & l1 & l2 & l3 & Hsplit).
  rewrite Hsplit in Hl. apply linked_app_r in Hl.
  exists c. split.
  - apply (linked_walk _ l2).
    apply (linked_app_l _ (c :: l2 ++ [c]) l3).
    cbn [app]. now rewrite <- app_assoc.
  - destruct l3 as [|z l3 _] using rev_ind.
    + left.
      assert (E1 : l1 ++ c :: l2 ++ [c] = (l1 ++ c :: l2) ++ [c])
        by (now rewrite <- app_assoc).
      rewrite E1 in Hsplit. now apply app_inj_tail in Hsplit as [_ ->].
    + right.
      assert (E1 : l1 ++ c :: l2 ++ c :: l3 ++ [z]
                   = (l1 ++ c :: l2 ++ c :: l3) ++ [z]).
      { rewrite <- app_assoc. cbn [app]. now rewrite <- app_assoc. }
      rewrite E1 in Hsplit. apply app_inj_tail in Hsplit as [_ ->].
      apply (linked_walk _ l3).
      apply (linked_app_r _ (c :: l2)). exact Hl.
Qed.

(** X19. A node of a component is dequeued by the layering loop exactly
    when it is neither on a directed cycle of the component nor reached
    by a directed walk from such a cycle. *)
Theorem dequeued_iff_no_cycle_upstream (data : LineageData)
    (depths : gmap string Z) (layers : list Layer) (L : Layer) (v : string) :
  depthLayers sort_by data = Some (depths, layers) -> L ∈ layers ->
  v ∈ map id (layer_nodes L) ->
  v ∈ layer_dequeued L <-> ~ cycleUpstream (layer_edges L) v.
Proof.
  intros Heq HL Hv.
  pose proof (depthLayers_backClosed data depths layers Heq) as Hback.
  rewrite Forall_forall in Hback. specialize (Hback L HL).
  destruct (depthLayers_sound sort_by sort_by_stable data)
    as (fd & ls & Heq' & [Hlayers Hedges _ _ _ _ _]).
  rewrite Heq in Heq'. injection Heq' as <- <-.
  rewrite Forall_forall in Hlayers. pose proof (Hlayers L HL) as Hok.
  assert (Hclosed : forall e, e ∈ layer_edges L ->
            sourceNodeId e ∈ map id (layer_nodes L)).
  { intros e He. rewrite (Hedges L HL) in He.
    now apply componentEdgesOf_closed in He. }
  assert (Hup : forall u w, walk (layer_edges L) u w ->
            w ∈ layer_dequeued L ->
            u ∈ layer_dequeued L /\
            get0 (layer_depths L) u + 1 <= get0 (layer_depths L) w).
  { intros u w Hw. induction Hw as [e He|e w He Hw IH]; intros Hd.
    - pose proof (Hback e He Hd) as Hs. split; [exact Hs|].
      now apply (ok_edges L Hok).
    - destruct (IH Hd) as [Ht Hle]. pose proof (Hback e He Ht) as Hs.
      split; [exact Hs|]. pose proof (ok_edges L Hok e He Hs). lia. }
  split.
  - intros Hd (c & Hcycle & Hreach).
    assert (Hc : c ∈ layer_dequeued L).
    { destruct Hreach as [->|Hw]; [exact Hd|]. now apply (Hup c v). }
    destruct (Hup c c Hcycle Hc) as [_ Hlt]. lia.
  - intros Hno.
    destruct (decide (v ∈ layer_dequeued L)) as [Hd|Hout]; [exact Hd|].
    exfalso. apply Hno. now apply undequeued_cycle.
Qed.

(** X20. Along an edge between two nodes of a component whose source is
    neither on a directed cycle of the component nor downstream of one,
    the depth grows by at least 1. *)
Theorem depth_monotone_off_cycles (data : LineageData)
    (depths : gmap string Z) (layers : list Layer) (L : Layer) (e : Edge) :
  depthLayers sort_by data = Some (depths, layers) -> L ∈ layers ->
  e ∈ layer_edges L -> ~ cycleUpstream (layer_edges L) (sourceNodeId e) ->
  get0 depths (sourceNodeId e) + 1 <= get0 depths (targetNodeId e).
Proof.
  intros Heq HL He Hno.
  destruct (depthLayers_sound sort_by sort_by_stable data)
    as (fd & ls & Heq' & [Hlayers Hedges _ Hfinal _ _ _]).
  rewrite Heq in Heq'. injection Heq' as <- <-.
  rewrite Forall_forall in Hlayers. pose proof (Hlayers L HL) as Hok.
  assert (Hclosed : forall e, e ∈ layer_edges L ->
            sourceNodeId e ∈ map id (layer_nodes L) /\
            targetNodeId e ∈ map id (layer_nodes L)).
  { intros e0 He0. rewrite (Hedges L HL) in He0.
    now apply componentEdgesOf_closed in He0. }
  destruct (Hclosed e He) as [Hs Ht].
  assert (Hd : sourceNodeId e ∈ layer_dequeued L).
  { destruct (decide (sourceNodeId e ∈ layer_dequeued L)) as [Hd|Hout];
      [exact Hd|].
    exfalso. apply Hno. apply undequeued_cycle; auto.
    intros e0 H0. now apply Hclosed. }
  pose proof (ok_edges L Hok e He Hd).
  rewrite (get0_Some _ _ _ (Hfinal L _ HL Hs)).
  rewrite (get0_Some _ _ _ (Hfinal L _ HL Ht)). lia.
Qed.

End Dequeued.

Lemma walk_enters (E : list Edge) (u v : string) :
  walk E u v -> exists e, e ∈ E /\ targetNodeId e = v.
Proof. induction 1 as [e He|e w He _ IH]; eauto. Qed.

(** In [cycleWithTail] no edge enters [A]. *)
Lemma cycleWithTail_source_off_cycles :
  ~ cycleUpstream (layer_edges (nthLayer cycleWithTail 0)) "A".
Proof.
  assert (H : forall u, ~ walk (layer_edges (nthLayer cycleWithTail 0)) u "A").
  { intros u Hw. apply walk_enters in Hw as (e & He & Ht).
    vm_compute in He.
    repeat (apply elem_of_cons in He as [->|He]; [discriminate Ht|]).
    inversion He. }
  intros (c & Hc & [->|Hw]); [exact (H _ Hc)|exact (H _ Hw)].
Qed.

Lemma dequeued_iff_no_cycle_upstream_witness :
  "B" ∈ layer_dequeued (nthLayer cycleWithTail 0) <->
  ~ cycleUpstream (layer_edges (nthLayer cycleWithTail 0)) "B".
Proof.
  apply (dequeued_iff_no_cycle_upstream isort_by isort_by_stable cycleWithTail
           (depthsOf cycleWithTail) (layersOf cycleWithTail)
           (nthLayer cycleWithTail 0) "B" cycleWithTail_layers).
  - vm_compute. left.
  - vm_compute. do 3 right. left.
Defined.

Lemma depth_monotone_off_cycles_witness :
  get0 (depthsOf cycleWithTail) (sourceNodeId (columnEdge "A" "X")) + 1
  <= get0 (depthsOf cycleWithTail) (targetNodeId (columnEdge "A" "X")).
Proof.
  apply (depth_monotone_off_cycles isort_by isort_by_stable cycleWithTail
           (depthsOf cycleWithTail) (layersOf cycleWithTail)
           (nthLayer cycleWithTail 0) (columnEdge "A" "X")
           cycleWithTail_layers).
  - vm_compute. left.
  - vm_compute. left.
  - exact cycleWithTail_source_off_cycles.
Defined.

(** ** The columns are centred on the height of the container *)

(** The height that a list of boxes takes in a column, each box with the
    margin below it. *)
Fixpoint blockHeight (s : list (nat * Node)) : Q :=
  match s with
  | [] => 0
  | a :: r => (nodeHeight (snd a) + verticalMargin + blockHeight r)%Q
  end.

Lemma blockHeight_nonneg (s : list (nat * Node)) : (0 <= blockHeight s)%Q.
Proof.
  induction s as [|a r IH]; simpl; [lra|].
  pose proof (nodeHeight_ge (snd a)). unfold verticalMargin. lra.
Qed.

Lemma inject_Z_S (k : nat) :
  (inject_Z (Z.of_nat (S k)) == inject_Z (Z.of_nat k) + 1)%Q.
Proof.
  rewrite Nat2Z.inj_succ, <- Z.add_1_r, inject_Z_plus. reflexivity.
Qed.

(** [totalContentHeight] and [totalMargin] add up to the block, less the
    margin below the last box. *)
Lemma contentHeight_fold (s : list (nat * Node)) (c : Q) :
  (fold_left (fun acc a => acc + nodeHeight (snd a)) s c
   + inject_Z (Z.of_nat (length s)) * verticalMargin
   == c + blockHeight s)%Q.
Proof.
  revert c. induction s as [|a r IH]; intros c; cbn [fold_left length blockHeight].
  - change (inject_Z (Z.of_nat 0)) with 0%Q. unfold verticalMargin. lra.
  - rewrite inject_Z_S. specialize (IH (c + nodeHeight (snd a))%Q).
    set (q := fold_left _ r _) in *. clearbody q.
    set (k := inject_Z (Z.of_nat (length r))) in *. clearbody k.
    unfold verticalMargin in *. lra.
Qed.

Lemma stack_fold_extent (s : list (nat * Node)) (store : list D3Node) (cur : Q) :
  NoDup (map fst s) ->
  let r :=
    fst (fold_left
           (fun '(store, currentY) a =>
              (alter (fun n => set_y n (currentY + nodeHeight (snd a) / 2)%Q)
                 (fst a) store,
               (currentY + (nodeHeight (snd a) + verticalMargin))%Q))
           s (store, cur)) in
  (forall a sa, a ∈ s -> store !! fst a = Some sa ->
     exists ya, r !! fst a = Some (set_y sa ya) /\
                (cur <= ya - nodeHeight (snd a) / 2)%Q /\
                (ya + nodeHeight (snd a) / 2 + verticalMargin
                 <= cur + blockHeight s)%Q) /\
  (forall a s' sa, s = a :: s' -> store !! fst a = Some sa ->
     r !! fst a = Some (set_y sa (cur + nodeHeight (snd a) / 2)%Q)) /\
  (forall s' z sz, s = s' ++ [z] -> store !! fst z = Some sz ->
     exists yz, r !! fst z = Some (set_y sz yz) /\
                (yz + nodeHeight (snd z) / 2 + verticalMargin
                 == cur + blockHeight s)%Q).
Proof.
  cbv zeta. revert store cur.
  induction s as [|c s' IH]; intros store cur Hnd; cbn [fold_left fst].
  { split; [intros a sa H; inversion H|]. split; [discriminate|].
    intros s' z sz H. now destruct s'. }
  cbn [map] in Hnd. apply NoDup_cons in Hnd as [Hc Hnd'].
  set (store1 := alter (fun n => set_y n (cur + nodeHeight (snd c) / 2)%Q)
                   (fst c) store).
  set (cur1 := (cur + (nodeHeight (snd c) + verticalMargin))%Q).
  destruct (IH store1 cur1 Hnd') as (H1 & _ & H3).
  destruct (stack_fold_spec s' store1 cur1 Hnd') as (Hframe & _ & _).
  assert (Hother : forall i, i <> fst c -> store1 !! i = store !! i).
  { intros i Hi. unfold store1. now apply list_lookup_alter_ne. }
  assert (Hhead : forall sa, store !! fst c = Some sa ->
            fst (fold_left
                   (fun '(store, currentY) a =>
                      (alter (fun n => set_y n (currentY + nodeHeight (snd a) / 2)%Q)
                         (fst a) store,
                       (currentY + (nodeHeight (snd a) + verticalMargin))%Q))
                   s' (store1, cur1)) !! fst c
            = Some (set_y sa (cur + nodeHeight (snd c) / 2)%Q)).
  { intros sa Hsa. rewrite (Hframe (fst c) Hc). unfold store1.
    rewrite list_lookup_alter_eq, Hsa. reflexivity. }
  assert (Htail : forall a, a ∈ s' -> fst a <> fst c).
  { intros a Ha Heq. apply Hc. rewrite <- Heq. apply elem_of_map. eauto. }
  pose proof (blockHeight_nonneg s') as Hpos.
  pose proof (nodeHeight_ge (snd c)) as Hhc.
  split; [|split].
  - intros a sa Ha Hsa. apply elem_of_cons in Ha as [->|Ha].
    + exists (cur + nodeHeight (snd c) / 2)%Q.
      split; [now apply Hhead|]. cbn [blockHeight].
      generalize dependent (nodeHeight (snd c)). intros. halves. lra.
    + destruct (H1 a sa Ha) as (ya & Hya & Hlo & Hhi).
      { rewrite Hother; [exact Hsa|now apply Htail]. }
      exists ya. split; [exact Hya|]. cbn [blockHeight]. unfold cur1 in *.
      unfold verticalMargin in *. split; lra.
  - intros a s0 sa [= <- <-] Hsa. now apply Hhead.
  - intros s0 z sz Hs Hsz. destruct s0 as [|c0 s0].
    + cbn [app] in Hs. injection Hs as Hcz Hnil. subst z s'.
      exists (cur + nodeHeight (snd c) / 2)%Q.
      split; [now apply Hhead|]. cbn [blockHeight].
      generalize dependent (nodeHeight (snd c)). intros. halves. lra.
    + cbn [app] in Hs. injection Hs as Hcc Hs'. subst c0 s'.
      destruct (H3 s0 z sz eq_refl) as (yz & Hyz & Heq).
      { rewrite Hother; [exact Hsz|]. apply Htail.
        apply elem_of_app. right. left. }
      exists yz. split; [exact Hyz|]. rewrite Heq. cbn [blockHeight].
      unfold cur1. lra.
Qed.

(** The column of the group [g] in [r], which came from [store]: its
    boxes lie between [top] and [bottom], which they reach, and these two
    are at equal distances from the middle of [height]. *)
Definition columnCentred (height : Q) (store r : list D3Node)
    (g : list (nat * Node)) : Prop :=
  exists top bottom : Q,
    (top + bottom == height)%Q /\
    (forall a sa, a ∈ g -> store !! fst a = Some sa ->
       exists ya, r !! fst a = Some (set_y sa ya) /\
                  (top <= ya - nodeHeight (snd a) / 2)%Q /\
                  (ya + nodeHeight (snd a) / 2 <= bottom)%Q) /\
    (exists a, a ∈ g /\ forall sa, store !! fst a = Some sa ->
       exists ya, r !! fst a = Some (set_y sa ya) /\
                  (ya - nodeHeight (snd a) / 2 == top)%Q) /\
    (exists a, a ∈ g /\ forall sa, store !! fst a = Some sa ->
       exists ya, r !! fst a = Some (set_y sa ya) /\
                  (ya + nodeHeight (snd a) / 2 == bottom)%Q).

Lemma columnCentred_frame (height : Q) (store store' r r' : list D3Node)
    (g : list (nat * Node)) :
  (forall a, a ∈ g -> store' !! fst a = store !! fst a) ->
  (forall a, a ∈ g -> r' !! fst a = r !! fst a) ->
  columnCentred height store r g -> columnCentred height store' r' g.
Proof.
  intros Hs Hr (top & bottom & Hsum & Hall & (a & Ha & Htop) & (b & Hb & Hbot)).
  exists top, bottom. split; [exact Hsum|]. split; [|split].
  - intros c sc Hc Hsc. rewrite (Hs c Hc) in Hsc. rewrite (Hr c Hc).
    now apply Hall.
  - exists a. split; [exact Ha|]. intros sa Hsa.
    rewrite (Hs a Ha) in Hsa. rewrite (Hr a Ha). now apply Htop.
  - exists b. split; [exact Hb|]. intros sb Hsb.
    rewrite (Hs b Hb) in Hsb. rewrite (Hr b Hb). now apply Hbot.
Qed.

Section Centre.

Variable sort_by : forall A : Type, (A -> Z) -> list A -> list A.
Hypothesis sort_by_stable : StableSort sort_by.

Lemma stackColumn_centred (height : Q) (nodeOrder : gmap string Z)
    (store : list D3Node) (g : list (nat * Node)) :
  NoDup (map fst g) -> g <> [] ->
  columnCentred height store (stackColumn sort_by height nodeOrder store g) g.
Proof.
  intros Hnd Hne. unfold stackColumn.
  pose proof (StableSort_perm sort_by sort_by_stable (nat * Node)%type
                (fun a => get0 nodeOrder (id (snd a))) g) as Hperm.
  set (s := sort_by (nat * Node)%type (fun a => get0 nodeOrder (id (snd a))) g)
    in *.
  assert (Hnd' : NoDup (map fst s)).
  { assert (Hp : Permutation (map fst s) (map fst g))
      by now apply Permutation_map.
    now rewrite Hp. }
  assert (Hs : s <> []).
  { intros Heq. rewrite Heq in Hperm. apply Permutation_nil_l in Hperm.
    now apply Hne. }
  set (cur := ((height
                - (fold_left (fun acc a => acc + nodeHeight (snd a)) s 0
                   + (inject_Z (Z.of_nat (length s)) - 1) * verticalMargin)) / 2)%Q).
  destruct (stack_fold_extent s store cur Hnd') as (H1 & H2 & H3).
  pose proof (contentHeight_fold s 0) as Hsum.
  exists cur, (cur + blockHeight s - verticalMargin)%Q. split; [|split; [|split]].
  - unfold cur. clear H1 H2 H3 cur.
    set (q := fold_left _ s _) in *. clearbody q.
    set (k := inject_Z (Z.of_nat (length s))) in *. clearbody k.
    set (b := blockHeight s) in *. clearbody b.
    unfold verticalMargin in *. halves. lra.
  - intros a sa Ha Hsa. rewrite <- Hperm in Ha.
    destruct (H1 a sa Ha Hsa) as (ya & Hya & Hlo & Hhi).
    exists ya. split; [exact Hya|]. split; [exact Hlo|]. lra.
  - destruct s as [|a s'] eqn:Es; [contradiction|].
    exists a. split; [rewrite <- Hperm; left|]. intros sa Hsa.
    exists (cur + nodeHeight (snd a) / 2)%Q.
    split; [now apply (H2 a s' sa)|]. lra.
  - destruct s as [|z s' _] eqn:Es using rev_ind; [contradiction|].
    exists z. split.
    { rewrite <- Hperm. apply elem_of_app. right. left. }
    intros sz Hsz. destruct (H3 s' z sz eq_refl Hsz) as (yz & Hyz & Heq).
    exists yz. split; [exact Hyz|]. lra.
Qed.

Lemma stackColumns_centred (height : Q) (nodeOrder : gmap string Z)
    (gs : list (list (nat * Node))) (store : list D3Node)
    (g : list (nat * Node)) :
  NoDup (map fst (concat gs)) -> g ∈ gs -> g <> [] ->
  columnCentred height store
    (fold_left (stackColumn sort_by height nodeOrder) gs store) g.
Proof.
  revert store.
  induction gs as [|g0 rest IH]; intros store Hnd Hg Hne; [inversion Hg|].
  cbn [fold_left]. cbn [concat] in Hnd. rewrite map_app in Hnd.
  apply NoDup_app in Hnd as (Hnd0 & Hdisj & Hndr).
  destruct (stackColumn_spec sort_by sort_by_stable height nodeOrder store g0
              Hnd0) as [S1 _].
  destruct (stackColumns_spec sort_by sort_by_stable height nodeOrder rest
              (stackColumn sort_by height nodeOrder store g0) Hndr) as [R1 _].
  assert (Hidx : forall (g : list (nat * Node)) a, a ∈ g -> fst a ∈ map fst g).
  { intros g' a Ha. apply elem_of_map. eauto. }
  apply elem_of_cons in Hg as [->|Hg].
  - apply (columnCentred_frame height store store
             (stackColumn sort_by height nodeOrder store g0)).
    + reflexivity.
    + intros a Ha. apply R1. intros Hin.
      exact (Hdisj (fst a) (Hidx g0 a Ha) Hin).
    + now apply stackColumn_centred.
  - apply (columnCentred_frame height
             (stackColumn sort_by height nodeOrder store g0) store
             (fold_left (stackColumn sort_by height nodeOrder) rest
                (stackColumn sort_by height nodeOrder store g0))).
    + intros a Ha. symmetry. apply S1. intros Hin.
      apply (Hdisj (fst a) Hin). apply elem_of_map. exists a.
      split; [reflexivity|]. apply elem_of_concat. eauto.
    + reflexivity.
    + now apply IH.
Qed.

End Centre.

Lemma groupByDepth_same_depth (depths : gmap string Z) (ns : list Node)
    (g : list (nat * Node)) (a b : nat * Node) :
  g ∈ map snd (groupByDepth depths ns 0 []) -> a ∈ g -> b ∈ g ->
  get0 depths (id (snd a)) = get0 depths (id (snd b)).
Proof.
  intros Hg Ha Hb. apply elem_of_map in Hg as ([d g'] & -> & Hin).
  assert (Hkeyed : keyed depths (groupByDepth depths ns 0 [])).
  { apply groupByDepth_keyed. intros d0 g0 ref H. inversion H. }
  rewrite (Hkeyed d g' a Hin Ha), (Hkeyed d g' b Hin Hb). reflexivity.
Qed.

Section Centred.

Variable sort_by : forall A : Type, (A -> Z) -> list A -> list A.
Hypothesis sort_by_stable : StableSort sort_by.

(** X21. Every depth column of the layout is centred on the same
    horizontal line, the middle of the container height moved down by the
    offset of the normalization: the top of the highest box of the column
    and the bottom of its lowest box lie at equal distances from it. *)
Theorem layout_columns_centred (data : LineageData) (height : Q)
    (depths : gmap string Z) (ns : list D3Node) :
  nodeDepths sort_by data = Some depths ->
  computeLayout sort_by data height = Some ns ->
  exists oy : Q,
    (0 <= oy)%Q /\
    forall n, n ∈ ns ->
      exists top bottom : Q,
        (top + bottom == height + 2 * oy)%Q /\
        (forall m vy,
           m ∈ ns ->
           get0 depths (id (base m)) = get0 depths (id (base n)) ->
           y m = Some vy ->
           (top <= vy - nodeHeight (base m) / 2)%Q /\
           (vy + nodeHeight (base m) / 2 <= bottom)%Q) /\
        (exists m vy,
           m ∈ ns /\
           get0 depths (id (base m)) = get0 depths (id (base n)) /\
           y m = Some vy /\ (vy - nodeHeight (base m) / 2 == top)%Q) /\
        (exists m vy,
           m ∈ ns /\
           get0 depths (id (base m)) = get0 depths (id (base n)) /\
           y m = Some vy /\ (vy + nodeHeight (base m) / 2 == bottom)%Q).
Proof.
  intros Hd Hl.
  pose proof (reachable_positioned sort_by data height ns
                (reach_layout sort_by data height ns Hl)) as Hpos.
  unfold computeLayout in Hl.
  destruct (nodes data) as [|a0 r0] eqn:Hns.
  { injection Hl as <-. exists 0%Q. split; [lra|]. intros n Hn. inversion Hn. }
  rewrite Hd in Hl. injection Hl as Hl. clear a0 r0 Hns.
  unfold placeNodes in Hl.
  set (gs := map snd (groupByDepth depths (nodes data) 0 [])) in *.
  set (st := fold_left (stackColumn sort_by height (nodeOrderOf data)) gs
               (copyNodes (nodes data))) in *.
  destruct (normalize_translates (map (assignX depths) st))
    as (ox & oy & _ & Hoy & Hrel & _).
  rewrite Hl in Hrel. exists oy. split; [exact Hoy|].
  assert (Hbase : map base st = nodes data).
  { unfold st. rewrite stackColumns_base. unfold copyNodes.
    rewrite map_map. cbn [base]. apply map_id. }
  assert (Hnode : forall k s, st !! k = Some s ->
            nodes data !! k = Some (base s) /\
            copyNodes (nodes data) !! k
            = Some (mkD3 (base s) None None None None)).
  { intros k s Hk.
    assert (H : nodes data !! k = Some (base s)).
    { rewrite <- Hbase. change (map base st) with (base <$> st).
      now rewrite list_lookup_fmap, Hk. }
    split; [exact H|]. unfold copyNodes.
    change (map ?f ?l) with (f <$> l). now rewrite list_lookup_fmap, H. }
  assert (Hdown : forall k m, ns !! k = Some m ->
            exists s, st !! k = Some s /\ base m = base s /\
                      (orZero (y m) == orZero (y s) + oy)%Q).
  { intros k m Hk.
    destruct (Forall2_lookup_r _ _ _ k m Hrel Hk)
      as (p & Hp & Hb & _ & _ & _ & Hy).
    rewrite list_lookup_fmap in Hp.
    destruct (st !! k) as [s|] eqn:Hs; [|discriminate].
    injection Hp as <-. exists s. cbn [assignX set_x base y] in Hb, Hy. auto. }
  assert (Hup : forall k s, st !! k = Some s ->
            exists m, ns !! k = Some m /\ base m = base s /\
                      (orZero (y m) == orZero (y s) + oy)%Q).
  { intros k s Hk.
    assert (Hp : map (assignX depths) st !! k = Some (assignX depths s)).
    { change (map ?f ?l) with (f <$> l). now rewrite list_lookup_fmap, Hk. }
    destruct (Forall2_lookup_l _ _ _ k _ Hrel Hp)
      as (m & Hm & Hb & _ & _ & _ & Hy).
    exists m. cbn [assignX set_x base y] in Hb, Hy. auto. }
  destruct (groupByDepth_spec depths (nodes data))
    as (Hnd & Hcover & Hmember & Hgroup).
  fold gs in Hnd, Hcover, Hmember, Hgroup.
  intros n Hn. apply list_elem_of_lookup in Hn as [i Hi].
  destruct (Hdown i n Hi) as (sn & Hsn & Hbn & _).
  destruct (Hnode i sn Hsn) as [Hni _].
  destruct (Hcover i (base sn) Hni) as (g & Hg & Hing).
  assert (Hne : g <> []) by (intros ->; inversion Hing).
  destruct (stackColumns_centred sort_by sort_by_stable height
              (nodeOrderOf data) gs (copyNodes (nodes data)) g Hnd Hg Hne)
    as (top & bottom & Hsum & Hall & (a & Ha & Htop) & (b & Hb & Hbot)).
  fold st in Hall, Htop, Hbot.
  assert (Hreach : forall c, c ∈ g ->
            exists s m vy,
              st !! fst c = Some s /\ ns !! fst c = Some m /\
              base m = snd c /\ y m = Some vy /\
              copyNodes (nodes data) !! fst c
              = Some (mkD3 (snd c) None None None None) /\
              (forall yc, st !! fst c
                          = Some (set_y (mkD3 (snd c) None None None None) yc) ->
                          (vy == yc + oy)%Q) /\
              get0 depths (id (base m)) = get0 depths (id (base n))).
  { intros c Hc. pose proof (Hmember g c Hg Hc) as Hcn.
    assert (Hcs : is_Some (st !! fst c)).
    { apply lookup_lt_is_Some. rewrite <- (length_map base st), Hbase.
      now apply lookup_lt_Some in Hcn. }
    destruct Hcs as [s Hs]. destruct (Hnode _ s Hs) as [Hcn' Hcopy].
    rewrite Hcn in Hcn'. injection Hcn' as Hsc.
    destruct (Hup _ s Hs) as (m & Hm & Hbm & Hym).
    assert (Hmin : m ∈ ns) by (apply list_elem_of_lookup; eauto).
    destruct (Hpos m Hmin) as [_ [vy Hvy]].
    exists s, m, vy. split; [exact Hs|]. split; [exact Hm|].
    split; [congruence|]. split; [exact Hvy|].
    split; [now rewrite Hsc|]. split.
    - intros yc Hyc. rewrite Hs in Hyc. injection Hyc as ->.
      rewrite Hvy in Hym. cbn [set_y y orZero default] in Hym.
      unfold orZero in Hym. cbn [default] in Hym.
      unfold Datatypes.id in Hym. exact Hym.
    - rewrite Hbm, <- Hsc, Hbn.
      apply (groupByDepth_same_depth depths (nodes data) g c (i, base sn));
        auto. }
  exists (top + oy)%Q, (bottom + oy)%Q. split; [rewrite <- Hsum; ring|].
  split; [|split].
  - intros m vy Hm Hsame Hvy. apply list_elem_of_lookup in Hm as [j Hj].
    destruct (Hdown j m Hj) as (sm & Hsm & Hbm & _).
    destruct (Hnode j sm Hsm) as [Hnj Hcj].
    destruct (Hcover j (base sm) Hnj) as (g' & Hg' & Hing').
    assert (g' = g).
    { apply (Hgroup g' g (j, base sm) (i, base sn)); auto. simpl. congruence. }
    subst g'.
    destruct (Hreach (j, base sm) Hing')
      as (s & m' & vy' & Hs & Hm' & _ & Hvy' & Hcopy & Hshift & _).
    cbn [fst snd] in *. rewrite Hj in Hm'. injection Hm' as <-.
    rewrite Hvy in Hvy'. injection Hvy' as <-.
    destruct (Hall (j, base sm) _ Hing' Hcopy) as (ya & Hya & Hlo & Hhi).
    cbn [fst snd] in *. specialize (Hshift ya Hya).
    rewrite Hbm. rewrite Hshift. split; lra.
  - destruct (Hreach a Ha)
      as (s & m & vy & Hs & Hm & Hbm & Hvy & Hcopy & Hshift & Hsame).
    destruct (Htop _ Hcopy) as (ya & Hya & Heq).
    exists m, vy. split; [apply list_elem_of_lookup; eauto|].
    split; [exact Hsame|]. split; [exact Hvy|].
    rewrite (Hshift ya Hya), Hbm, <- Heq. ring.
  - destruct (Hreach b Hb)
      as (s & m & vy & Hs & Hm & Hbm & Hvy & Hcopy & Hshift & Hsame).
    destruct (Hbot _ Hcopy) as (yb & Hyb & Heq).
    exists m, vy. split; [apply list_elem_of_lookup; eauto|].
    split; [exact Hsame|]. split; [exact Hvy|].
    rewrite (Hshift yb Hyb), Hbm, <- Heq. ring.
Qed.

End Centred.

Lemma fanOut_depths_run : nodeDepths isort_by fanOut = Some (depthsOf fanOut).
Proof. vm_compute. reflexivity. Qed.

Lemma layout_columns_centred_witness :
  exists oy : Q,
    (0 <= oy)%Q /\
    forall n, n ∈ layoutOf fanOut 600 ->
      exists top bottom : Q,
        (top + bottom == 600 + 2 * oy)%Q /\
        (forall m vy,
           m ∈ layoutOf fanOut 600 ->
           get0 (depthsOf fanOut) (id (base m))
           = get0 (depthsOf fanOut) (id (base n)) ->
           y m = Some vy ->
           (top <= vy - nodeHeight (base m) / 2)%Q /\
           (vy + nodeHeight (base m) / 2 <= bottom)%Q) /\
        (exists m vy,
           m ∈ layoutOf fanOut 600 /\
           get0 (depthsOf fanOut) (id (base m))
           = get0 (depthsOf fanOut) (id (base n)) /\
           y m = Some vy /\ (vy - nodeHeight (base m) / 2 == top)%Q) /\
        (exists m vy,
           m ∈ layoutOf fanOut 600 /\
           get0 (depthsOf fanOut) (id (base m))
           = get0 (depthsOf fanOut) (id (base n)) /\
           y m = Some vy /\ (vy + nodeHeight (base m) / 2 == bottom)%Q).
Proof.
  apply (layout_columns_centred isort_by isort_by_stable fanOut 600
           (depthsOf fanOut) (layoutOf fanOut 600)
           fanOut_depths_run fanOut_layout).
Defined.

(** ** The ends of an edge lie on the boxes *)

Lemma columnAnchor_bounds (n : Node) (columnName : string) :
  (0 <= columnAnchor (columns n) columnName)%Q /\
  (columnAnchor (columns n) columnName <= nodeHeight n)%Q.
Proof.
  unfold columnAnchor.
  destruct (list_find _ _) as [[i c]|] eqn:Hfind.
  - apply list_find_Some in Hfind as (Hi & _ & _).
    apply lookup_lt_Some in Hi.
    assert (H0 : (0 <= inject_Z (Z.of_nat i))%Q) by (unfold Qle; simpl; lia).
    assert (H1 : (inject_Z (Z.of_nat i) + 1
                  <= inject_Z (Z.of_nat (length (columns n))))%Q).
    { unfold Qle. simpl. lia. }
    unfold nodeHeight, HEADER_HEIGHT, COLUMN_HEIGHT.
    generalize dependent (inject_Z (Z.of_nat i)).
    generalize (inject_Z (Z.of_nat (length (columns n)))).
    clear. intros q q0 H0 H1. split; halves; lra.
  - pose proof (nodeHeight_ge n). split; lra.
Qed.

(** X22. A drawn edge starts on the left or the right side of the box of
    its source node and ends the marker offset away from the left or the
    right side of the box of its target node, both at a height within the
    box. *)
Theorem edge_ends_on_boxes (nodeMap : gmap string D3Node) (e : Edge)
    (sn tn : D3Node) (g : EdgeGeometry) :
  nodeMap !! sourceNodeId e = Some sn ->
  nodeMap !! targetNodeId e = Some tn ->
  resolveEdgeGeometry nodeMap e = Some g ->
  exists sx sy tx ty : Q,
    x sn = Some sx /\ y sn = Some sy /\ x tn = Some tx /\ y tn = Some ty /\
    (x1 g = (sx + NODE_WIDTH / 2)%Q \/ x1 g = (sx - NODE_WIDTH / 2)%Q) /\
    (x2 g = (tx - NODE_WIDTH / 2 - markerOffset)%Q \/
     x2 g = (tx + NODE_WIDTH / 2 + markerOffset)%Q) /\
    (sy - nodeHeight (base sn) / 2 <= y1 g)%Q /\
    (y1 g <= sy + nodeHeight (base sn) / 2)%Q /\
    (ty - nodeHeight (base tn) / 2 <= y2 g)%Q /\
    (y2 g <= ty + nodeHeight (base tn) / 2)%Q.
Proof.
  intros Hs Ht Hg.
  destruct (resolveEdgeGeometry_Some nodeMap e sn tn g Hs Ht Hg)
    as (sx & sy & tx & ty & Hsx & Hsy & Htx & Hty & Hx1 & Hx2 & Hy1 & Hy2).
  exists sx, sy, tx, ty. split; [exact Hsx|]. split; [exact Hsy|].
  split; [exact Htx|]. split; [exact Hty|].
  split; [rewrite Hx1; destruct (Qltb sx tx); auto|].
  split; [rewrite Hx2; destruct (Qltb sx tx); auto|].
  destruct (columnAnchor_bounds (base sn) (sourceColumn e)) as [Hs0 Hs1].
  destruct (columnAnchor_bounds (base tn) (targetColumn e)) as [Ht0 Ht1].
  rewrite Hy1, Hy2. clear Hx1 Hx2 Hy1 Hy2 Hg.
  set (cs := columnAnchor (columns (base sn)) (sourceColumn e)) in *.
  set (ct := columnAnchor (columns (base tn)) (targetColumn e)) in *.
  set (hs := nodeHeight (base sn)) in *.
  set (ht := nodeHeight (base tn)) in *.
  clearbody cs ct hs ht. repeat split; halves; lra.
Qed.

Lemma edge_ends_on_boxes_witness :
  exists sx sy tx ty : Q,
    x (nthNode (layoutOf chain 600) 0) = Some sx /\
    y (nthNode (layoutOf chain 600) 0) = Some sy /\
    x (nthNode (layoutOf chain 600) 1) = Some tx /\
    y (nthNode (layoutOf chain 600) 1) = Some ty /\
    (x1 (default noGeometry
           (resolveEdgeGeometry (nodeMapOf (layoutOf chain 600))
              (columnEdge "A" "B"))) = (sx + NODE_WIDTH / 2)%Q \/
     x1 (default noGeometry
           (resolveEdgeGeometry (nodeMapOf (layoutOf chain 600))
              (columnEdge "A" "B"))) = (sx - NODE_WIDTH / 2)%Q) /\
    (x2 (default noGeometry
           (resolveEdgeGeometry (nodeMapOf (layoutOf chain 600))
              (columnEdge "A" "B")))
     = (tx - NODE_WIDTH / 2 - markerOffset)%Q \/
     x2 (default noGeometry
           (resolveEdgeGeometry (nodeMapOf (layoutOf chain 600))
              (columnEdge "A" "B")))
     = (tx + NODE_WIDTH / 2 + markerOffset)%Q) /\
    (sy - nodeHeight (base (nthNode (layoutOf chain 600) 0)) / 2
     <= y1 (default noGeometry
              (resolveEdgeGeometry (nodeMapOf (layoutOf chain 600))
                 (columnEdge "A" "B"))))%Q /\
    (y1 (default noGeometry
           (resolveEdgeGeometry (nodeMapOf (layoutOf chain 600))
              (columnEdge "A" "B")))
     <= sy + nodeHeight (base (nthNode (layoutOf chain 600) 0)) / 2)%Q /\
    (ty - nodeHeight (base (nthNode (layoutOf chain 600) 1)) / 2
     <= y2 (default noGeometry
              (resolveEdgeGeometry (nodeMapOf (layoutOf chain 600))
                 (columnEdge "A" "B"))))%Q /\
    (y2 (default noGeometry
           (resolveEdgeGeometry (nodeMapOf (layoutOf chain 600))
              (columnEdge "A" "B")))
     <= ty + nodeHeight (base (nthNode (layoutOf chain 600) 1)) / 2)%Q.
Proof.
  apply (edge_ends_on_boxes (nodeMapOf (layoutOf chain 600))
           (columnEdge "A" "B")).
  - vm_compute. reflexivity.
  - vm_compute. reflexivity.
  - vm_compute. reflexivity.
Defined.
